(** * Aggregator: a shallow embedding of [c/models/aggregator.h]

    The aggregation engine reduces a table to a set of exemplar rows and
    a members column that maps every input row to its exemplar.  This
    file embeds the methods of [Aggregator<T>] as Rocq functions and
    states the properties of the specification over them.

    Conventions.
    - [int32_t] values are integers in [Z]; a cast to [int32_t] is
      [to_int32], the missing value of an integer column is [NA_I4].
    - [size_t] values are naturals in [N]; sums and products wrap at
      [2^64] ([size_add], [size_mul]).  Array positions are [nat].
    - [T] (float or double) is [spec_float] at a format [prec], [emax];
      the missing value of a real column is the NaN.
    - An array written in place ([d_members], [d_counts]) is a list that
      is threaded through the loop that writes it. *)

From Stdlib Require Import ZArith NArith Lia Bool Znumtheory.
From Stdlib Require Import Floats.SpecFloat.
From Stdlib Require Import Strings.String.
From stdpp Require Import base tactics option list.

Local Open Scope Z_scope.

(** ** Machine integers *)

Module Int.

Definition INT32_MIN : Z := - 2 ^ 31.
Definition INT32_MAX : Z := 2 ^ 31 - 1.

(** [static_cast<int32_t>(z)] for an integer [z]. *)
Definition to_int32 (z : Z) : Z := (z + 2 ^ 31) mod 2 ^ 32 - 2 ^ 31.

(** [GETNA<int32_t>()] and [ISNA<int32_t>(x)]. *)
Definition NA_I4 : Z := INT32_MIN.
Definition ISNA_I4 (x : Z) : bool := x =? NA_I4.

Definition SIZE_MOD : N := (2 ^ 64)%N.
Definition size_add (a b : N) : N := ((a + b) mod SIZE_MOD)%N.
Definition size_mul (a b : N) : N := ((a * b) mod SIZE_MOD)%N.

End Int.
Import Int.

(** ** The group-by primitive *)

Module Groupby.

(** Modelled from the spec: the table group-by of the storage engine
    ([DataTable::group], whose code is not part of the aggregator).
    Given the keys of the rows it returns [(rowindex, groupby)], where
    [rowindex[i]] maps sorted positions to original rows and the
    offsets of the group-by give the start position of every group,
    followed by the number of rows.  The sort is stable. *)
Section Sort.
Context {K : Type} (leb eqb : K -> K -> bool).

Fixpoint insert_row (x : nat * K) (l : list (nat * K)) : list (nat * K) :=
  match l with
  | [] => [x]
  | y :: l' => if leb x.2 y.2 then x :: l else y :: insert_row x l'
  end.

Definition sort_rows (keys : list K) : list (nat * K) :=
  foldr insert_row [] (zip (seq 0 (length keys)) keys).

(** Maximal runs of rows with equal keys. *)
Fixpoint runs (l : list (nat * K)) : list (list (nat * K)) :=
  match l with
  | [] => []
  | x :: l' =>
      match runs l' with
      | (y :: r) :: rs =>
          if eqb x.2 y.2 then (x :: y :: r) :: rs else [x] :: (y :: r) :: rs
      | _ => [[x]]
      end
  end.

Fixpoint offsets_from {X : Type} (pos : nat) (rs : list (list X)) : list nat :=
  pos :: match rs with
         | [] => []
         | r :: rs' => offsets_from (pos + length r) rs'
         end.

Record t := { ri : list nat; offsets : list nat }.

Definition group (keys : list K) : t :=
  let rs := runs (sort_rows keys) in
  {| ri := (concat rs).*1; offsets := offsets_from 0%nat rs |}.

Definition ngroups (g : t) : nat := pred (length (offsets g)).

(** The rows of group [i], read as the code reads them:
    [ri[offsets[i]], ..., ri[offsets[i+1] - 1]]. *)
Definition group_rows (g : t) (i : nat) : list nat :=
  (fun j => ri g !!! j) <$> seq (offsets g !!! i) (offsets g !!! S i - offsets g !!! i).
End Sort.

(** Grouping of an [int32] column: ascending, so that the missing
    value, the least [int32], makes the first group. *)
Definition group_i4 (keys : list Z) : t := group Z.leb Z.eqb keys.

End Groupby.
Import Groupby.

(** ** Sampling and finalization *)

Module Finalizer.

(** [for (j = from; j < to; ++j) d[ri[j]] = v]. *)
Definition mark_rows (ri : list nat) (from to : nat) (v : Z) (d : list Z) : list Z :=
  foldl (fun d j => <[ri !!! j := v]> d) d (seq from (to - from)).

(** The [while (k < max_bins)] loop of [sample_exemplars].  [draws] are
    the successive results of [rand()]; [None] means that the loop has
    consumed all of them and is still running. *)
Fixpoint sample_loop (g : Groupby.t) (max_bins : N) (draws : list nat)
    (k : nat) (d : list Z) : option (list Z) :=
  if (N.of_nat k <? max_bins)%N then
    match draws with
    | [] => None
    | r :: draws' =>
        let i := Z.to_nat (Z.rem (Z.of_nat r) (to_int32 (Z.of_nat (ngroups g)))) in
        let off_i := offsets g !!! i in
        if ISNA_I4 (d !!! (ri g !!! off_i)) then
          let off_i1 := offsets g !!! S i in
          sample_loop g max_bins draws' (S k)
            (mark_rows (ri g) off_i off_i1 (to_int32 (Z.of_nat k)) d)
        else sample_loop g max_bins draws' k d
    end
  else Some d.

(** [sample_exemplars(max_bins, n_na_bins)]: the new members column and
    [was_sampled]. *)
Definition sample_exemplars (draws : list nat) (max_bins n_na_bins : N)
    (d_members : list Z) : option (list Z * bool) :=
  let g := group_i4 d_members in
  if (size_add max_bins n_na_bins <? N.of_nat (ngroups g))%N then
    d ← sample_loop g max_bins draws 0%nat (replicate (length d_members) NA_I4);
    Some (d, true)
  else Some (d_members, false).

(** The result of [aggregate_exemplars]: the row index applied to the
    copy of the input table, the [members_count] column and the
    rewritten [exemplar_id] column. *)
Record result := {
  exemplar_indices : list Z;
  d_counts : list Z;
  d_members : list Z
}.

(** First loop: [exemplar_indices] and [d_counts], for the groups
    [was_sampled .. ngroups - 1]. *)
Definition set_counts (g : Groupby.t) (ws : nat) (i : nat) (acc : list Z * list Z)
    : list Z * list Z :=
  let i_sampled := (i - ws)%nat in
  let off_i := offsets g !!! i in
  (<[i_sampled := to_int32 (Z.of_nat (ri g !!! off_i))]> acc.1,
   <[i_sampled := Z.of_nat (offsets g !!! S i) - Z.of_nat (offsets g !!! i)]> acc.2).

(** Second loop: rewrite the members of group [i] to [i_sampled]. *)
Definition set_members (g : Groupby.t) (ws : nat) (counts : list Z) (i : nat) (d : list Z)
    : list Z :=
  let i_sampled := (i - ws)%nat in
  foldl (fun d j => <[ri g !!! (offsets g !!! i + j)%nat := to_int32 (Z.of_nat i_sampled)]> d)
        d (seq 0 (Z.to_nat (counts !!! i_sampled))).

Definition aggregate_exemplars (was_sampled : bool) (members : list Z) : result :=
  let g := group_i4 members in
  let ws := (if was_sampled then 1 else 0)%nat in
  let n_exemplars := (ngroups g - ws)%nat in
  let loop := seq ws (ngroups g - ws) in
  let ic := foldl (fun acc i => set_counts g ws i acc)
                  (replicate n_exemplars 0, replicate n_exemplars 0) loop in
  {| exemplar_indices := ic.1;
     d_counts := ic.2;
     d_members := foldl (fun d i => set_members g ws ic.2 i d) members loop |}.

(** The number of rows of a members column whose [exemplar_id] is [k]. *)
Definition count_rows (k : Z) (ids : list Z) : nat :=
  length (filter (fun x => x = k) ids).

End Finalizer.
Import Finalizer.

(** ** The floating-point type [T] *)

Module Real.

#[global] Instance spec_float_inhabited : Inhabited spec_float := populate S754_nan.

Section Format.
Variables prec emax : Z.

(** [ISNA<T>(x)] is [std::isnan(x)]; [GETNA<T>()] is the NaN. *)
Definition ISNA (x : spec_float) : bool :=
  match x with S754_nan => true | _ => false end.
Definition GETNA : spec_float := S754_nan.

(** Conversion of an integer ([size_t], [int32_t], a literal) to [T]. *)
Definition of_Z (z : Z) : spec_float := binary_normalize prec emax z 0 false.

Definition zero : spec_float := S754_zero false.
Definition one : spec_float := of_Z 1.
Definition half : spec_float := binary_normalize prec emax 1 (-1) false.

(** [std::numeric_limits<T>::epsilon()], that is [2^(1-prec)]. *)
Definition epsilon : spec_float := binary_normalize prec emax 1 (1 - prec) false.

Definition add := SFadd prec emax.
Definition sub := SFsub prec emax.
Definition mul := SFmul prec emax.
Definition div := SFdiv prec emax.
Definition opp := SFopp.
Definition fabs := SFabs.
Definition ltb (a b : spec_float) : bool := SFltb a b.
Definition gtb (a b : spec_float) : bool := SFltb b a.
Definition eqb (a b : spec_float) : bool := SFeqb a b.

(** [static_cast<T>(x)] for a value [x] of another floating-point
    width. *)
Definition of_float (x : spec_float) : spec_float :=
  match x with
  | S754_finite s m e => binary_normalize prec emax (cond_Zopp s (Zpos m)) e s
  | _ => x
  end.

(** The integer part of [x], rounded towards zero. *)
Definition trunc (x : spec_float) : option Z :=
  match x with
  | S754_zero _ => Some 0
  | S754_finite s m e => Some (cond_Zopp s (Z.shiftl (Zpos m) e))
  | _ => None
  end.

(** [static_cast<int32_t>(x)].  C++ leaves the conversion of a NaN, an
    infinity or a value out of range undefined; the model takes what
    the x86-64 conversion instruction yields, [INT32_MIN]. *)
Definition cast_int32 (x : spec_float) : Z :=
  match trunc x with
  | Some z => if (INT32_MIN <=? z) && (z <=? INT32_MAX) then z else INT32_MIN
  | None => INT32_MIN
  end.

End Format.

End Real.

(** ** Classes of floating-point values *)

Module Shape.

(** [T] is [float] or [double]. *)
Definition ieee_format (prec emax : Z) : Prop :=
  (prec = 24 /\ emax = 128) \/ (prec = 53 /\ emax = 1024).

(** A coordinate is a number or missing: it is not infinite. *)
Definition coordinate (x : spec_float) : bool :=
  match x with S754_infinity _ => false | _ => true end.

(** A zero, a finite number or an infinity that is not negative. *)
Definition nonneg (x : spec_float) : bool :=
  match x with
  | S754_zero false | S754_infinity false | S754_finite false _ _ => true
  | _ => false
  end.

(** Zero or a finite number. *)
Definition finite (x : spec_float) : bool :=
  match x with
  | S754_zero _ | S754_finite _ _ _ => true
  | _ => false
  end.

(** A finite number above zero. *)
Definition positive_finite (x : spec_float) : bool :=
  match x with
  | S754_finite false _ _ => true
  | _ => false
  end.

(** A number of sign [s]. *)
Definition signed (s : bool) (x : spec_float) : bool :=
  match x with
  | S754_zero s' | S754_infinity s' | S754_finite s' _ _ => Bool.eqb s s'
  | S754_nan => false
  end.

End Shape.
Import Shape.

(** ** Normalization and binning *)

Module Binning.

(** Modelled from the spec: the column convertor
    ([models/column_convertor.h]), a typed view of a numeric column as
    values of [T] with its row count and the cached minimum and maximum
    of the values that are not missing. *)
Record ColumnConvertor := {
  cc_values : list spec_float;
  cc_min : spec_float;
  cc_max : spec_float
}.

Definition get_nrows (c : ColumnConvertor) : nat := length (cc_values c).
Definition get_value (c : ColumnConvertor) (i : nat) : spec_float := cc_values c !!! i.

Section Format.
Variables prec emax : Z.

(** [set_norm_coeffs(norm_factor, norm_shift, c_min, c_max, c_bins)]
    returns the pair [(norm_factor, norm_shift)]. *)
Definition set_norm_coeffs (c_min c_max : spec_float) (c_bins : N)
    : spec_float * spec_float :=
  if Real.gtb (Real.fabs (Real.sub prec emax c_max c_min)) (Real.epsilon prec emax) then
    let norm_factor :=
      Real.div prec emax
        (Real.mul prec emax (Real.of_Z prec emax (Z.of_N c_bins))
           (Real.sub prec emax (Real.one prec emax) (Real.epsilon prec emax)))
        (Real.sub prec emax c_max c_min) in
    (norm_factor, Real.mul prec emax (Real.opp norm_factor) c_min)
  else
    (Real.zero, Real.mul prec emax (Real.half prec emax) (Real.of_Z prec emax (Z.of_N c_bins))).

(** [norm_factor * value + norm_shift]. *)
Definition normalize (coeffs : spec_float * spec_float) (value : spec_float) : spec_float :=
  Real.add prec emax (Real.mul prec emax coeffs.1 value) coeffs.2.

(** The bin id of a value that is not missing. *)
Definition bin_id (coeffs : spec_float * spec_float) (value : spec_float) : Z :=
  Real.cast_int32 (normalize coeffs value).

Definition group_1d_continuous (c0 : ColumnConvertor) (n_bins : N) (d_members : list Z)
    : list Z :=
  let coeffs := set_norm_coeffs (cc_min c0) (cc_max c0) n_bins in
  foldl (fun d i =>
           let value := get_value c0 i in
           if Real.ISNA value then <[i := NA_I4]> d
           else <[i := bin_id coeffs value]> d)
        d_members (seq 0 (get_nrows c0)).

Definition group_2d_continuous (c0 c1 : ColumnConvertor) (nx_bins ny_bins : N)
    (d_members : list Z) : list Z :=
  let coeffs_x := set_norm_coeffs (cc_min c0) (cc_max c0) nx_bins in
  let coeffs_y := set_norm_coeffs (cc_min c1) (cc_max c1) ny_bins in
  foldl (fun d i =>
           let value0 := get_value c0 i in
           let value1 := get_value c1 i in
           let na_case := Z.b2z (Real.ISNA value0) + 2 * Z.b2z (Real.ISNA value1) in
           if negb (na_case =? 0) then <[i := - na_case]> d
           else <[i := to_int32 (bin_id coeffs_y value1 * to_int32 (Z.of_N nx_bins)
                                 + bin_id coeffs_x value0)]> d)
        d_members (seq 0 (get_nrows c0)).

End Format.
End Binning.

(** ** The distance kernel *)

Module Distance.
Section Format.
Variables prec emax : Z.

(** The loop of [calculate_distance] over the dimensions [dims], from
    the running [sum] and the count [n] of the dimensions used so far.
    [inl sum] is the early return, [inr (sum, n)] the end of the loop. *)
Fixpoint distance_loop (early_exit : bool) (delta : spec_float)
    (e1 e2 : list spec_float) (dims : list nat) (sum : spec_float) (n : Z)
    : spec_float + spec_float * Z :=
  match dims with
  | [] => inr (sum, n)
  | i :: dims' =>
      if Real.ISNA (e1 !!! i) || Real.ISNA (e2 !!! i) then
        distance_loop early_exit delta e1 e2 dims' sum n
      else
        let n := to_int32 (n + 1) in
        let sum :=
          Real.add prec emax sum
            (Real.mul prec emax (Real.sub prec emax (e1 !!! i) (e2 !!! i))
                                (Real.sub prec emax (e1 !!! i) (e2 !!! i))) in
        if early_exit && Real.gtb sum delta then inl sum
        else distance_loop early_exit delta e1 e2 dims' sum n
  end.

Definition calculate_distance (e1 e2 : list spec_float) (ndims : nat)
    (delta : spec_float) (early_exit : bool) : spec_float :=
  match distance_loop early_exit delta e1 e2 (seq 0 ndims) Real.zero 0 with
  | inl sum => sum
  | inr (sum, n) =>
      Real.div prec emax
        (Real.mul prec emax sum (Real.of_Z prec emax (Z.of_nat ndims)))
        (Real.of_Z prec emax n)
  end.

End Format.
End Distance.

(** ** The exemplar scan of the N-D path *)

Module NDim.

Record exemplar := { id : N; coords : list spec_float }.

#[global] Instance exemplar_inhabited : Inhabited exemplar :=
  populate {| id := 0%N; coords := [] |}.

(** [(k * coprimes[coprime_index] + exemplar_index) % nexemplars], in
    [size_t] arithmetic. *)
Definition probe (nexemplars c e0 k : N) : N :=
  (size_add (size_mul k c) e0 mod nexemplars)%N.

(** The modular path over the exemplars. *)
Definition path (nexemplars c e0 : N) : list N :=
  (fun k => probe nexemplars c e0 (N.of_nat k)) <$> seq 0 (N.to_nat nexemplars).

(** The sequence [j_k = (k * c + e0) mod n] for [k = 0, ..., n - 1], in
    unbounded arithmetic. *)
Definition modular_sequence (n c e0 : N) : list N :=
  (fun k => ((N.of_nat k * c + e0) mod n)%N) <$> seq 0 (N.to_nat n).

(** Modelled from the spec: [calculate_coprimes] ([models/utils.h]),
    the integers of [[1, n)] that are coprime with [n], and [1] alone
    when [n = 1]. *)
Definition calculate_coprimes (n : N) : list N :=
  if (n =? 1)%N then [1%N]
  else filter (fun k => N.gcd k n = 1%N) (N.of_nat <$> seq 1 (N.to_nat n - 1)).

Section Format.
Variables prec emax : Z.

(** The [for (k ...)] loop of [test_member]: the exemplars are tested
    along the path; the first one at a distance below [delta] gives the
    new value of [d_members[i]]. *)
Fixpoint scan (member : list spec_float) (exemplars : list exemplar) (ndims : nat)
    (delta : spec_float) (js : list N) : option Z :=
  match js with
  | [] => None
  | j :: js' =>
      let e := exemplars !!! N.to_nat j in
      let distance :=
        Distance.calculate_distance prec emax member (coords e) ndims delta true in
      if Real.ltb distance delta then Some (to_int32 (Z.of_N (id e)))
      else scan member exemplars ndims delta js'
  end.

Definition test_member (member : list spec_float) (exemplars : list exemplar)
    (ndims : nat) (delta : spec_float) (c e0 : N) : option Z :=
  scan member exemplars ndims delta (path (N.of_nat (length exemplars)) c e0).

End Format.
End NDim.

(** ** The dispatcher *)

Module Dispatch.

(** Modelled from the spec: the input table of the storage engine.  A
    column has a declared type and one cell per row; any cell may be
    missing.  A table without columns has no rows. *)
Inductive SType :=
  | BOOL | INT8 | INT16 | INT32 | INT64 | FLOAT32 | FLOAT64 | STR32 | STR64 | OBJ.

Inductive cell :=
  | CellNA
  | CellInt (z : Z)
  | CellReal (x : spec_float)
  | CellStr (s : String.string).

Record Column := { stype : SType; cells : list cell }.

#[global] Instance Column_inhabited : Inhabited Column :=
  populate {| stype := OBJ; cells := [] |}.
#[global] Instance cell_inhabited : Inhabited cell := populate CellNA.

Record DataTable := { columns : list Column }.

Definition ncols (dt : DataTable) : nat := length (columns dt).
Definition nrows (dt : DataTable) : nat :=
  match columns dt with
  | [] => 0%nat
  | c :: _ => length (cells c)
  end.

Definition ISNA_cell (c : cell) : bool :=
  match c with CellNA => true | _ => false end.

(** Modelled from the spec: the order of the cells of a column in the
    table group-by, with the missing cells first or last. *)
Definition cell_leb (na_last : bool) (a b : cell) : bool :=
  match a, b with
  | CellNA, CellNA => true
  | CellNA, _ => negb na_last
  | _, CellNA => na_last
  | CellInt x, CellInt y => x <=? y
  | CellReal x, CellReal y => SFleb x y
  | CellStr x, CellStr y => String.leb x y
  | _, _ => true
  end.

Definition cell_eqb (a b : cell) : bool :=
  match a, b with
  | CellNA, CellNA => true
  | CellInt x, CellInt y => x =? y
  | CellReal x, CellReal y => SFeqb x y
  | CellStr x, CellStr y => String.eqb x y
  | _, _ => false
  end.

Definition pair_leb (a b : cell * cell) : bool :=
  if cell_eqb a.1 b.1 then cell_leb false a.2 b.2 else cell_leb false a.1 b.1.
Definition pair_eqb (a b : cell * cell) : bool :=
  cell_eqb a.1 b.1 && cell_eqb a.2 b.2.

Inductive exn :=
  | ValueError (msg : String.string)
  | CallbackError
  | WorkerError.

Inductive outcome :=
  | Returned
  | Raised (e : exn)
  | Sampling.

(** The exemplars table: the rows of the input table that are kept,
    and the bound [members_count] column. *)
Record Exemplars := { ex_rows : list Z; members_count : list Z }.

(** The two references of the caller that [aggregate] assigns. *)
Record Outputs := {
  dt_exemplars_in : option Exemplars;
  dt_members_in : option (list Z)
}.

Record Params := {
  min_rows : N;
  n_bins : N;
  nx_bins : N;
  ny_bins : N;
  nd_max_bins : N;
  max_dimensions : N
}.

Section Format.
Variables prec emax : Z.

(** What [aggregate] takes from its surroundings:
    - [progress_fn], the callback of the caller, which may raise;
    - [rand], the successive results of [rand()] in the sampler;
    - [uninit], the content of the cells of the new [exemplar_id]
      column, which [new_data_column] does not initialise;
    - [nd_loop], the outcome of the parallel loop of [group_nd] followed
      by [adjust_members]: the exception captured in a worker and
      rethrown, or the members column.  The threads, the lock and the
      random engines of the workers are not modelled. *)
Record Env := {
  progress_fn : option (spec_float -> Z -> option exn);
  rand : list nat;
  uninit : nat -> Z;
  nd_loop : list Binning.ColumnConvertor -> list Z -> exn + list Z
}.

(** [progress(progress, status_code)]: [None] when the call returns. *)
Definition progress (env : Env) (p : spec_float) (status_code : Z) : option exn :=
  match progress_fn env with
  | None => None
  | Some f => f p status_code
  end.

Definition is_numeric (t : SType) : bool :=
  match t with
  | BOOL | INT8 | INT16 | INT32 | INT64 | FLOAT32 | FLOAT64 => true
  | _ => false
  end.

(** Modelled from the spec: the convertor of a numeric column.  The
    minimum and maximum ignore the missing values; a column that is
    missing throughout has minimum and maximum [0]. *)
Definition cell_value (c : cell) : spec_float :=
  match c with
  | CellInt z => Real.of_Z prec emax z
  | CellReal x => Real.of_float prec emax x
  | _ => S754_nan
  end.

Definition lower (acc : option spec_float) (v : spec_float) : option spec_float :=
  if Real.ISNA v then acc
  else match acc with
       | None => Some v
       | Some m => if SFltb v m then Some v else Some m
       end.

Definition upper (acc : option spec_float) (v : spec_float) : option spec_float :=
  if Real.ISNA v then acc
  else match acc with
       | None => Some v
       | Some m => if SFltb m v then Some v else Some m
       end.

Definition make_convertor (col : Column) : Binning.ColumnConvertor :=
  let vs := cell_value <$> cells col in
  {| Binning.cc_values := vs;
     Binning.cc_min := default Real.zero (foldl lower None vs);
     Binning.cc_max := default Real.zero (foldl upper None vs) |}.

(** The loop of [aggregate] over the columns: the convertors of the
    numeric columns, and the categorical columns, which are kept only
    when the table has fewer than three columns. *)
Definition contconvs (dt : DataTable) : list Binning.ColumnConvertor :=
  make_convertor <$> filter (fun c => is_numeric (stype c) = true) (columns dt).

Definition catcols (dt : DataTable) : list Column :=
  if (ncols dt <? 3)%nat
  then filter (fun c => is_numeric (stype c) = false) (columns dt)
  else [].

(** [group_0d]: the rows sorted by the first column, missing values
    last; [iterate] calls the function with [(i, ri[i])]. *)
Definition group_0d (dt : DataTable) (d_members : list Z) : list Z :=
  match columns dt with
  | [] => d_members
  | c0 :: _ =>
      let ri_exemplars := ri (group (cell_leb true) cell_eqb (cells c0)) in
      foldl (fun d i => <[ri_exemplars !!! i := to_int32 (Z.of_nat i)]> d)
            d_members (seq 0 (nrows dt))
  end.

Definition group_1d_categorical (dt_cat : list Column) (d_members : list Z) : list Z :=
  let g0 := group (cell_leb false) cell_eqb (cells (dt_cat !!! 0%nat)) in
  foldl (fun d i =>
           mark_rows (ri g0) (offsets g0 !!! i) (offsets g0 !!! S i)
                     (to_int32 (Z.of_nat i)) d)
        d_members (seq 0 (ngroups g0)).

Definition group_1d (par : Params) (dt : DataTable) (d_members : list Z) : list Z :=
  match contconvs dt with
  | c0 :: _ => Binning.group_1d_continuous prec emax c0 (n_bins par) d_members
  | [] => group_1d_categorical (catcols dt) d_members
  end.

(** [group_2d_categorical_str]: the rows are grouped by both columns;
    a row with a missing cell goes to the bin of its case. *)
Definition group_2d_categorical_str (dt_cat : list Column) (d_members : list Z) : list Z :=
  let d_c0 := cells (dt_cat !!! 0%nat) in
  let d_c1 := cells (dt_cat !!! 1%nat) in
  let g := group pair_leb pair_eqb (zip d_c0 d_c1) in
  foldl (fun d i =>
           let group_id := to_int32 (Z.of_nat i) in
           foldl (fun d j =>
                    let gi := ri g !!! j in
                    let na_case :=
                      Z.b2z (ISNA_cell (d_c0 !!! gi)) + 2 * Z.b2z (ISNA_cell (d_c1 !!! gi)) in
                    if negb (na_case =? 0) then <[gi := - na_case]> d
                    else <[gi := group_id]> d)
                 d (seq (offsets g !!! i) (offsets g !!! S i - offsets g !!! i)))
        d_members (seq 0 (ngroups g)).

Definition is_str (t : SType) : bool :=
  match t with STR32 | STR64 => true | _ => false end.

Definition group_2d_categorical (dt_cat : list Column) (d_members : list Z)
    : exn + list Z :=
  if is_str (stype (dt_cat !!! 0%nat)) then
    if is_str (stype (dt_cat !!! 1%nat)) then
      inr (group_2d_categorical_str dt_cat d_members)
    else inl (ValueError
      "For 2D categorical aggregation, all column typesshould be either STR32 or STR64")
  else inl (ValueError
    "In 2D categorical aggregator column typesshould be either STR32 or STR64").

(** [group_2d_mixed_str]: the rows are grouped by the categorical
    column and binned by the continuous one. *)
Definition group_2d_mixed_str (par : Params) (c0 : Binning.ColumnConvertor)
    (dt_cat : list Column) (d_members : list Z) : list Z :=
  let d_cat := cells (dt_cat !!! 0%nat) in
  let g := group (cell_leb false) cell_eqb d_cat in
  let coeffs :=
    Binning.set_norm_coeffs prec emax (Binning.cc_min c0) (Binning.cc_max c0)
      (nx_bins par) in
  foldl (fun d i =>
           let group_cat_id := to_int32 (Z.of_N (size_mul (nx_bins par) (N.of_nat i))) in
           foldl (fun d j =>
                    let gi := ri g !!! j in
                    let na_case :=
                      Z.b2z (Real.ISNA (Binning.get_value c0 gi))
                      + 2 * Z.b2z (ISNA_cell (d_cat !!! gi)) in
                    if negb (na_case =? 0) then <[gi := - na_case]> d
                    else <[gi := to_int32 (group_cat_id
                                    + Binning.bin_id prec emax coeffs
                                        (Binning.get_value c0 gi))]> d)
                 d (seq (offsets g !!! i) (offsets g !!! S i - offsets g !!! i)))
        d_members (seq 0 (ngroups g)).

Definition group_2d_mixed (par : Params) (c0 : Binning.ColumnConvertor)
    (dt_cat : list Column) (d_members : list Z) : exn + list Z :=
  if is_str (stype (dt_cat !!! 0%nat)) then
    inr (group_2d_mixed_str par c0 dt_cat d_members)
  else inl (ValueError
    "For 2D mixed aggretation, the categorical column type should be either STR32 or STR64").

Definition group_2d (par : Params) (dt : DataTable) (d_members : list Z) : exn + list Z :=
  match contconvs dt with
  | [] => group_2d_categorical (catcols dt) d_members
  | [c0] => group_2d_mixed par c0 (catcols dt) d_members
  | [c0; c1] =>
      inr (Binning.group_2d_continuous prec emax c0 c1 (nx_bins par) (ny_bins par) d_members)
  | _ => inl (ValueError "Got datatable with too many columns for 2D aggregation:  ")
  end.

(** The number of missing-value bins that [aggregate] passes to the
    sampler, by the number of columns to aggregate by. *)
Definition n_na_bins_of (ncols : nat) : N :=
  match ncols with
  | 1%nat => 1%N
  | 2%nat => 3%N
  | _ => 0%N
  end.

(** The grouping step of [aggregate]: the members column and, when the
    table has at least [min_rows] rows, the [max_bins] and [n_na_bins]
    of the sampler. *)
Definition grouping (par : Params) (env : Env) (dt : DataTable)
    : exn + list Z * option (N * N) :=
  let col0 := uninit env <$> seq 0 (nrows dt) in
  if (min_rows par <=? N.of_nat (nrows dt))%N then
    let ncols := (length (contconvs dt) + length (catcols dt))%nat in
    match ncols with
    | 0%nat => inr (group_0d dt col0, Some (nd_max_bins par, n_na_bins_of ncols))
    | 1%nat => inr (group_1d par dt col0, Some (n_bins par, n_na_bins_of ncols))
    | 2%nat =>
        match group_2d par dt col0 with
        | inl e => inl e
        | inr d => inr (d, Some (size_mul (nx_bins par) (ny_bins par), n_na_bins_of ncols))
        end
    | _ =>
        match nd_loop env (contconvs dt) col0 with
        | inl e => inl e
        | inr d => inr (d, Some (nd_max_bins par, n_na_bins_of ncols))
        end
    end
  else inr (group_0d dt col0, None).

(** [aggregate(dt_in, dt_exemplars_in, dt_members_in)]: the references
    of the caller after the call, and how the call ends. *)
Definition aggregate (par : Params) (env : Env) (dt : DataTable) (out : Outputs)
    : Outputs * outcome :=
  match progress env Real.zero 0 with
  | Some e => (out, Raised e)
  | None =>
      match grouping par env dt with
      | inl e => (out, Raised e)
      | inr (members, sampler) =>
          let sampled :=
            match sampler with
            | Some (max_bins, n_na_bins) =>
                sample_exemplars (rand env) max_bins n_na_bins members
            | None => Some (members, false)
            end in
          match sampled with
          | None => (out, Sampling)
          | Some (members', was_sampled) =>
              let res := aggregate_exemplars was_sampled members' in
              let out' :=
                {| dt_exemplars_in :=
                     Some {| ex_rows := exemplar_indices res;
                             members_count := d_counts res |};
                   dt_members_in := Some (d_members res) |} in
              match progress env (Real.one 24 128) 1 with
              | Some e => (out', Raised e)
              | None => (out', Returned)
              end
          end
      end
  end.

End Format.
End Dispatch.

(** ** The rows of the N-D path *)

Module Rows.

#[global] Instance ColumnConvertor_inhabited : Inhabited Binning.ColumnConvertor :=
  populate {| Binning.cc_values := []; Binning.cc_min := S754_nan; Binning.cc_max := S754_nan |}.

Section Format.
Variables prec emax : Z.

(** The normalized value of the row [row] in the column [c], with one
    bin, as [normalize_row] and [project_row] compute it. *)
Definition norm_value (c : Binning.ColumnConvertor) (row : nat) : spec_float :=
  Binning.normalize prec emax
    (Binning.set_norm_coeffs prec emax (Binning.cc_min c) (Binning.cc_max c) 1)
    (Binning.get_value c row).

(** [normalize_row(r, row)]: the array [r] after the call. *)
Definition normalize_row (contconvs : list Binning.ColumnConvertor) (row : nat)
    (r : list spec_float) : list spec_float :=
  foldl (fun r i => <[i := norm_value (contconvs !!! i) row]> r)
        r (seq 0 (length contconvs)).

(** [project_row(r, row, pmatrix)]: [r] is zeroed, every value of the
    row that is not missing adds its multiple of a row of the
    projection matrix, and the sums are divided by the number [n] of
    values used. *)
Definition project_row (max_dimensions : nat) (contconvs : list Binning.ColumnConvertor)
    (row : nat) (pmatrix : list spec_float) (r : list spec_float) : list spec_float :=
  let r0 := foldl (fun r j => <[j := Real.zero]> r) r (seq 0 max_dimensions) in
  let rn :=
    foldl (fun (rn : list spec_float * Z) i =>
             let value := Binning.get_value (contconvs !!! i) row in
             if Real.ISNA value then rn
             else
               let norm_row := norm_value (contconvs !!! i) row in
               (foldl (fun r j =>
                         <[j := Real.add prec emax (r !!! j)
                                  (Real.mul prec emax
                                     (pmatrix !!! (i * max_dimensions + j)%nat) norm_row)]> r)
                      rn.1 (seq 0 max_dimensions),
                to_int32 (rn.2 + 1)))
          (r0, 0) (seq 0 (length contconvs)) in
  foldl (fun r j => <[j := Real.div prec emax (r !!! j) (Real.of_Z prec emax rn.2)]> r)
        rn.1 (seq 0 max_dimensions).

End Format.
End Rows.

(** ** Merging exemplars *)

Module Merge.

(** [calculate_map(ids, id)].  The recursion of the source has no
    bound; [fuel] is the depth that the model follows, and [None] a
    recursion deeper than that.  Reading [ids] out of range, undefined
    in the source, reads [0]. *)
Fixpoint calculate_map (fuel : nat) (ids : list N) (id : N) : option N :=
  match fuel with
  | O => None
  | S fuel' =>
      if (id =? ids !!! N.to_nat id)%N then Some id
      else calculate_map fuel' ids (ids !!! N.to_nat id)
  end.

(** [static_cast<size_t>(x)] for an [int32_t]. *)
Definition to_size (x : Z) : N := Z.to_N (x mod 2 ^ 64).

(** The [map] array of [adjust_members]. *)
Definition members_map (fuel : nat) (ids : list N) : option (list N) :=
  mapM (fun i => if (ids !!! i =? N.of_nat i)%N then Some (N.of_nat i)
                 else calculate_map fuel ids (N.of_nat i))
       (seq 0 (length ids)).

(** [adjust_members(ids)]: the members column after the call. *)
Definition adjust_members (fuel : nat) (ids : list N) (d_members : list Z)
    : option (list Z) :=
  map ← members_map fuel ids;
  Some ((fun x => to_int32 (Z.of_N (map !!! N.to_nat (to_size x)))) <$> d_members).

Section Format.
Variables prec emax : Z.

(** [std::pow] of the C library, whose code is not part of the
    repository. *)
Variable pow : spec_float -> spec_float -> spec_float.

(** The pairs [(i, j)] of the two nested loops of [adjust_delta], in
    the order of the index [k]; the vector is not empty when
    [adjust_delta] is called. *)
Definition pairs (n : nat) : list (nat * nat) :=
  i ← seq 0 (n - 1); (fun j => (i, j)) <$> seq (S i) (n - S i).

(** [(n * n - n) / 2] in [size_t]. *)
Definition n_distances (n : nat) : N :=
  (((N.of_nat n * N.of_nat n - N.of_nat n) mod SIZE_MOD) / 2)%N.

(** The array [deltas] after the first pair of loops. *)
Definition distances (delta : spec_float) (ndims : nat) (exemplars : list NDim.exemplar)
    : list spec_float :=
  (fun ij : nat * nat =>
     Distance.calculate_distance prec emax
       (NDim.coords (exemplars !!! ij.1)) (NDim.coords (exemplars !!! ij.2))
       ndims delta false) <$> pairs (length exemplars).

Definition total_distance (deltas : list spec_float) : spec_float :=
  foldl (fun t d => Real.add prec emax t (SFsqrt prec emax d)) Real.zero deltas.

Definition delta_merge (total : spec_float) (n : nat) : spec_float :=
  pow (Real.div prec emax (Real.mul prec emax (Real.half prec emax) total)
         (Real.of_Z prec emax (Z.of_N (n_distances n))))
      (Real.of_Z prec emax 2).

(** One step of the second pair of loops, on the vector of exemplars,
    where [None] is [nullptr], and the vector [ids]. *)
Definition merge_step (dm : spec_float)
    (st : list (option NDim.exemplar) * list N) (p : nat * nat * spec_float)
    : list (option NDim.exemplar) * list N :=
  if Real.ltb p.2 dm then
    match st.1 !!! p.1.1, st.1 !!! p.1.2 with
    | Some ei, Some ej =>
        (<[p.1.2 := None]> st.1, <[N.to_nat (NDim.id ej) := NDim.id ei]> st.2)
    | _, _ => st
    end
  else st.

Definition merge (dm : spec_float) (deltas : list spec_float)
    (exemplars : list NDim.exemplar) (ids : list N) : list (option NDim.exemplar) * list N :=
  foldl (merge_step dm) (Some <$> exemplars, ids) (zip (pairs (length exemplars)) deltas).

(** [adjust_delta(delta, exemplars, ids, ndims)]: the new [delta], the
    vector of exemplars without the merged ones, and [ids]. *)
Definition adjust_delta (delta : spec_float) (exemplars : list NDim.exemplar)
    (ids : list N) (ndims : nat) : spec_float * list NDim.exemplar * list N :=
  let deltas := distances delta ndims exemplars in
  let dm := delta_merge (total_distance deltas) (length exemplars) in
  let delta' :=
    Real.add prec emax delta
      (Real.add prec emax dm
         (Real.mul prec emax (Real.of_Z prec emax 2)
            (SFsqrt prec emax (Real.mul prec emax delta dm)))) in
  let st := merge dm deltas exemplars ids in
  (delta', omap id st.1, st.2).

End Format.
End Merge.

(** ** The loop of the N-D path *)

Module Loop.

(** The state that the loop of [group_nd] over the rows works on. *)
Record state := {
  exemplars : list NDim.exemplar;
  ids : list N;
  coprimes : list N;
  delta : spec_float;
  d_members : list Z
}.

(** What the loop takes from its surroundings, by the row [i]:
    - [fresh i], what the array [member] of [ndims] cells holds when
      the row [i] is reached: what [new T[ndims]] left there, which is
      not initialised, or the values of an earlier row;
    - [exemplar_index i] and [coprime_index i], the two draws of the
      random engine. *)
Record Draws := {
  fresh : nat -> list spec_float;
  exemplar_index : nat -> N;
  coprime_index : nat -> N
}.

Section Format.
Variables prec emax : Z.

(** [std::pow] of the C library and the projection matrix of
    [generate_pmatrix], which is drawn at random. *)
Variable pow : spec_float -> spec_float -> spec_float.
Variable pmatrix : list spec_float.

Variable par : Dispatch.Params.
Variable env : Dispatch.Env.
Variable draws : Draws.
Variable contconvs : list Binning.ColumnConvertor.

Definition nrows : nat := Binning.get_nrows (contconvs !!! 0%nat).

(** [std::min(max_dimensions, ncols)] and [ncols > max_dimensions]. *)
Definition ndims : nat :=
  N.to_nat (N.min (Dispatch.max_dimensions par) (N.of_nat (length contconvs))).
Definition do_projection : bool :=
  (Dispatch.max_dimensions par <? N.of_nat (length contconvs))%N.

Definition member_of (i : nat) : list spec_float :=
  if do_projection
  then Rows.project_row prec emax (N.to_nat (Dispatch.max_dimensions par)) contconvs i
         pmatrix (fresh draws i)
  else Rows.normalize_row prec emax contconvs i (fresh draws i).

(** The body of the loop for the row [i], as one thread runs it: the
    row is tested against the exemplars and, when none is within
    [delta], becomes an exemplar itself.  With one thread no other
    thread changes [ecounter] between the test and the insertion, and
    the test is not repeated. *)
Definition row_step (st : state) (i : nat) : state :=
  let member := member_of i in
  match NDim.test_member prec emax member (exemplars st) ndims (delta st)
          (coprimes st !!! N.to_nat (coprime_index draws i)) (exemplar_index draws i) with
  | Some z =>
      {| exemplars := exemplars st; ids := ids st; coprimes := coprimes st;
         delta := delta st; d_members := <[i := z]> (d_members st) |}
  | None =>
      let e := {| NDim.id := N.of_nat (length (ids st)); NDim.coords := member |} in
      let ids1 := ids st ++ [NDim.id e] in
      let d1 := <[i := to_int32 (Z.of_N (NDim.id e))]> (d_members st) in
      let exs1 := exemplars st ++ [e] in
      let adjusted :=
        if (Dispatch.nd_max_bins par <? N.of_nat (length exs1))%N
        then Merge.adjust_delta prec emax pow (delta st) exs1 ids1 ndims
        else (delta st, exs1, ids1) in
      {| exemplars := adjusted.1.2; ids := adjusted.2;
         coprimes := NDim.calculate_coprimes (N.of_nat (length adjusted.1.2));
         delta := adjusted.1.1; d_members := d1 |}
  end.

(** [PBSTEPS] and the step of the progress reports for one thread. *)
Definition PBSTEPS : nat := 100.
Definition rstep : nat := if (PBSTEPS <? nrows)%nat then (nrows / PBSTEPS)%nat else 1%nat.

(** [if ((i / nth) % rstep == 0) progress(static_cast<float>(i+1) / nrows)]. *)
Definition report (i : nat) : option Dispatch.exn :=
  if (i mod rstep =? 0)%nat
  then Dispatch.progress env
         (Real.div 24 128 (Real.of_Z 24 128 (Z.of_nat i + 1)) (Real.of_Z 24 128 (Z.of_nat nrows)))
         0
  else None.

(** The loop over the rows; an exception of the progress callback ends
    it and is rethrown after the loop. *)
Fixpoint rows_loop (rows : list nat) (st : state) : Dispatch.exn + state :=
  match rows with
  | [] => inr st
  | i :: rows' =>
      let st' := row_step st i in
      match report i with
      | Some e => inl e
      | None => rows_loop rows' st'
      end
  end.

Definition init (d_members : list Z) : state :=
  {| exemplars := []; ids := []; coprimes := []; delta := Real.epsilon prec emax;
     d_members := d_members |}.

(** [group_nd] run by one thread.  [fuel] bounds the recursion of
    [calculate_map], and [None] is a recursion deeper than that. *)
Definition group_nd (fuel : nat) (d_members : list Z) : option (Dispatch.exn + list Z) :=
  match rows_loop (seq 0 nrows) (init d_members) with
  | inl e => Some (inl e)
  | inr st =>
      d ← Merge.adjust_members fuel (ids st) (Loop.d_members st);
      Some (inr d)
  end.

End Format.
End Loop.

(** * Properties *)

(** ** Machine integers *)

Section IntFacts.

Lemma to_int32_small z : INT32_MIN <= z <= INT32_MAX -> to_int32 z = z.
Proof.
  unfold to_int32, INT32_MIN, INT32_MAX. intros H.
  rewrite Z.mod_small; lia.
Qed.

Lemma to_int32_nat (n : nat) : Z.of_nat n < 2 ^ 31 -> to_int32 (Z.of_nat n) = Z.of_nat n.
Proof.
  intros H. apply to_int32_small. unfold INT32_MIN, INT32_MAX. lia.
Qed.

Lemma ISNA_I4_spec x : ISNA_I4 x = true <-> x = NA_I4.
Proof. unfold ISNA_I4. apply Z.eqb_eq. Qed.

Lemma ISNA_I4_nat (n : nat) : ISNA_I4 (Z.of_nat n) = false.
Proof. unfold ISNA_I4, NA_I4, INT32_MIN. apply Z.eqb_neq. lia. Qed.

Lemma size_add_small a b : (a + b < SIZE_MOD)%N -> size_add a b = (a + b)%N.
Proof. intros H. unfold size_add. apply N.mod_small. exact H. Qed.

End IntFacts.

(** ** The group-by contract *)

Section SortFacts.
Context {K : Type} (leb eqb : K -> K -> bool).

Lemma insert_row_perm (x : nat * K) l : insert_row leb x l ≡ₚ x :: l.
Proof.
  induction l as [|y l IH]; simpl; [done|].
  destruct (leb x.2 y.2); [done|].
  rewrite IH. apply Permutation_swap.
Qed.

Lemma sort_rows_perm (keys : list K) :
  sort_rows leb keys ≡ₚ zip (seq 0 (length keys)) keys.
Proof.
  unfold sort_rows. induction (zip (seq 0 (length keys)) keys) as [|x l IH]; simpl; [done|].
  rewrite insert_row_perm. by constructor.
Qed.

Lemma runs_nonempty (l : list (nat * K)) : Forall (fun r => r <> []) (runs eqb l).
Proof.
  induction l as [|x l IH]; simpl; [constructor|].
  destruct (runs eqb l) as [|[|y r] rs] eqn:E.
  - repeat constructor. done.
  - repeat constructor. done.
  - inversion IH; subst. destruct (eqb x.2 y.2); repeat constructor; done.
Qed.

Lemma runs_concat (l : list (nat * K)) : concat (runs eqb l) = l.
Proof.
  induction l as [|x l IH]; simpl; [done|].
  pose proof (runs_nonempty l) as Hne.
  destruct (runs eqb l) as [|[|y r] rs] eqn:E; simpl in *.
  - by rewrite <- IH.
  - inversion Hne; subst. done.
  - destruct (eqb x.2 y.2); simpl; by rewrite <- IH.
Qed.

Lemma elem_of_concat {X} (x : X) (ls : list (list X)) :
  x ∈ concat ls <-> exists l, l ∈ ls /\ x ∈ l.
Proof.
  induction ls as [|l ls IH]; simpl.
  - split; [intros H; inversion H|intros (l & H & _); inversion H].
  - rewrite elem_of_app, IH. split.
    + intros [H|(l' & H1 & H2)]; [exists l|exists l']; split; try done.
      * by left.
      * by right.
    + intros (l' & H1 & H2). apply elem_of_cons in H1 as [->|H1]; [by left|].
      right. by exists l'.
Qed.

Lemma offsets_from_length {X} pos (rs : list (list X)) :
  length (offsets_from pos rs) = S (length rs).
Proof.
  revert pos. induction rs as [|r rs IH]; intros pos; simpl; [done|].
  by rewrite IH.
Qed.

Lemma offsets_from_lookup {X} pos (rs : list (list X)) i :
  (i <= length rs)%nat ->
  offsets_from pos rs !! i = Some (pos + length (concat (take i rs)))%nat.
Proof.
  revert pos i. induction rs as [|r rs IH]; intros pos i Hi; simpl in *.
  - assert (i = 0%nat) as -> by lia. simpl. f_equal. lia.
  - destruct i as [|i]; simpl.
    + f_equal. lia.
    + rewrite IH by lia. rewrite length_app. f_equal. lia.
Qed.

Lemma concat_lookup_offset {X} (rs : list (list X)) i j r :
  rs !! i = Some r -> (j < length r)%nat ->
  concat rs !! (length (concat (take i rs)) + j)%nat = r !! j.
Proof.
  revert i. induction rs as [|r0 rs IH]; intros i Hi Hj; [done|].
  destruct i as [|i]; simpl in *.
  - inversion Hi; subst. by rewrite lookup_app_l.
  - rewrite length_app, <- Nat.add_assoc.
    rewrite lookup_app_r by lia.
    replace (length r0 + (length (concat (take i rs)) + j) - length r0)%nat
      with (length (concat (take i rs)) + j)%nat by lia.
    by apply IH.
Qed.

End SortFacts.

Section GroupFacts.
Context {K : Type} (leb eqb : K -> K -> bool).

(** The groups as lists of rows, in the order of the row index. *)
Definition groups_of (keys : list K) : list (list nat) :=
  (fun r => r.*1) <$> runs eqb (sort_rows leb keys).

Lemma fmap_fst_concat {A B} (rs : list (list (A * B))) :
  (concat rs).*1 = concat ((fun r => r.*1) <$> rs).
Proof.
  induction rs as [|r rs IH]; simpl; [done|].
  by rewrite fmap_app, IH.
Qed.

Lemma offsets_from_fmap {X Y} (f : list X -> list Y) pos (rs : list (list X)) :
  (forall r, length (f r) = length r) ->
  offsets_from pos (f <$> rs) = offsets_from pos rs.
Proof.
  intros Hf. revert pos. induction rs as [|r rs IH]; intros pos; simpl; [done|].
  by rewrite Hf, IH.
Qed.

Lemma group_ri keys : ri (group leb eqb keys) = concat (groups_of keys).
Proof. unfold group, groups_of. simpl. apply fmap_fst_concat. Qed.

Lemma group_offsets keys :
  offsets (group leb eqb keys) = offsets_from 0%nat (groups_of keys).
Proof.
  unfold group, groups_of. simpl. symmetry. apply offsets_from_fmap.
  intros r. apply length_fmap.
Qed.

Lemma group_ngroups keys : ngroups (group leb eqb keys) = length (groups_of keys).
Proof. unfold ngroups. rewrite group_offsets, offsets_from_length. done. Qed.

Lemma group_ri_perm keys : ri (group leb eqb keys) ≡ₚ seq 0 (length keys).
Proof.
  unfold group. simpl. rewrite runs_concat, sort_rows_perm.
  rewrite fst_zip; [done|]. rewrite length_seq. done.
Qed.

Lemma group_ri_length keys : length (ri (group leb eqb keys)) = length keys.
Proof. rewrite group_ri_perm. apply length_seq. Qed.

Lemma groups_of_nonempty keys : Forall (fun r => r <> []) (groups_of keys).
Proof.
  unfold groups_of. apply Forall_fmap. eapply Forall_impl; [apply runs_nonempty|].
  intros [|x r] H; simpl; done.
Qed.

Lemma group_offsets_lookup keys i :
  (i <= length (groups_of keys))%nat ->
  offsets (group leb eqb keys) !!! i = length (concat (take i (groups_of keys))).
Proof.
  intros Hi. apply list_lookup_total_correct.
  rewrite group_offsets, offsets_from_lookup by done. done.
Qed.

Lemma group_rows_eq keys i rows :
  groups_of keys !! i = Some rows ->
  group_rows (group leb eqb keys) i = rows.
Proof.
  intros Hi. pose proof (lookup_lt_Some _ _ _ Hi) as Hlt.
  unfold group_rows.
  rewrite !group_offsets_lookup by lia.
  rewrite (take_S_r _ _ _ Hi), concat_app, length_app. simpl. rewrite app_nil_r.
  replace (length (concat (take i (groups_of keys))) + length rows
           - length (concat (take i (groups_of keys))))%nat with (length rows) by lia.
  apply list_eq. intros j.
  rewrite list_lookup_fmap.
  destruct (decide (j < length rows)%nat) as [Hj|Hj].
  - rewrite lookup_seq_lt by done. simpl.
    rewrite fmap_fst_concat. fold (groups_of keys).
    destruct (lookup_lt_is_Some_2 rows j Hj) as [x Hx].
    rewrite Hx. f_equal. apply list_lookup_total_correct.
    rewrite concat_lookup_offset with (r := rows); done.
  - rewrite lookup_seq_ge by lia. simpl. symmetry. apply lookup_ge_None. lia.
Qed.

Lemma group_offsets_mono keys i rows :
  groups_of keys !! i = Some rows ->
  offsets (group leb eqb keys) !!! S i
  = (offsets (group leb eqb keys) !!! i + length rows)%nat.
Proof.
  intros Hi. pose proof (lookup_lt_Some _ _ _ Hi) as Hlt.
  rewrite !group_offsets_lookup by lia.
  rewrite (take_S_r _ _ _ Hi), concat_app, length_app. simpl. rewrite app_nil_r. done.
Qed.

Lemma groups_of_NoDup keys : NoDup (concat (groups_of keys)).
Proof. rewrite <- group_ri, group_ri_perm. apply NoDup_seq. Qed.

Lemma groups_of_elem keys r :
  r ∈ concat (groups_of keys) <-> (r < length keys)%nat.
Proof.
  rewrite <- group_ri, group_ri_perm, elem_of_seq. lia.
Qed.

(** Two groups do not share a row. *)
Lemma groups_of_disjoint keys i j ri rj r :
  groups_of keys !! i = Some ri -> groups_of keys !! j = Some rj ->
  r ∈ ri -> r ∈ rj -> i = j.
Proof.
  pose proof (groups_of_NoDup keys) as Hnd.
  revert i j. induction (groups_of keys) as [|g gs IH]; intros i j Hi Hj Hri Hrj; [done|].
  simpl in Hnd. apply NoDup_app in Hnd as (Hg & Hgs & Hrest).
  destruct i as [|i], j as [|j]; simpl in *; simplify_eq; try done.
  - exfalso. apply (Hgs r Hri). apply elem_of_concat.
    exists rj. split; [by eapply list_elem_of_lookup_2|done].
  - exfalso. apply (Hgs r Hrj). apply elem_of_concat.
    exists ri. split; [by eapply list_elem_of_lookup_2|done].
  - f_equal. by eapply IH.
Qed.

(** Every row belongs to a group. *)
Lemma groups_of_cover keys r :
  (r < length keys)%nat ->
  exists i rows, groups_of keys !! i = Some rows /\ r ∈ rows.
Proof.
  intros Hr. apply groups_of_elem in Hr.
  apply elem_of_concat in Hr as (rows & Hrows & Hin).
  apply list_elem_of_lookup in Hrows as [i Hi].
  by exists i, rows.
Qed.

End GroupFacts.

(** *** Integer keys: groups are the classes of equal keys, in
    ascending order of the key *)

Section GroupI4Facts.

Fixpoint sorted_keys (l : list (nat * Z)) : Prop :=
  match l with
  | [] => True
  | x :: l' => Forall (fun y => x.2 <= y.2) l' /\ sorted_keys l'
  end.

Fixpoint sorted_runs (rs : list (list (nat * Z))) : Prop :=
  match rs with
  | [] => True
  | r :: rs' =>
      Forall (fun x => Forall (fun r' => Forall (fun y => x.2 < y.2) r') rs') r
      /\ sorted_runs rs'
  end.

Lemma insert_row_sorted x l : sorted_keys l -> sorted_keys (insert_row Z.leb x l).
Proof.
  induction l as [|y l IH]; simpl; intros Hs.
  - split; [constructor|done].
  - destruct Hs as [Hy Hs]. destruct (Z.leb_spec x.2 y.2) as [Hle|Hgt]; simpl.
    + split; [|done]. constructor; [done|].
      eapply Forall_impl; [exact Hy|]. simpl. intros z Hz. lia.
    + split; [|by apply IH].
      rewrite insert_row_perm. constructor; [lia|done].
Qed.

Lemma sort_rows_sorted keys : sorted_keys (sort_rows Z.leb keys).
Proof.
  unfold sort_rows. induction (zip (seq 0 (length keys)) keys) as [|x l IH]; simpl; [done|].
  by apply insert_row_sorted.
Qed.

Lemma sort_rows_keys keys x :
  x ∈ sort_rows Z.leb keys -> keys !! x.1 = Some x.2.
Proof.
  rewrite sort_rows_perm. intros Hx.
  apply list_elem_of_lookup in Hx as [i Hi].
  apply lookup_zip_with_Some in Hi as (r & k & -> & Hr & Hk). simpl.
  apply lookup_seq in Hr as [-> _]. done.
Qed.

Lemma runs_const (l : list (nat * Z)) :
  Forall (fun r => forall x y, x ∈ r -> y ∈ r -> x.2 = y.2) (runs Z.eqb l).
Proof.
  induction l as [|x l IH]; simpl; [constructor|].
  destruct (runs Z.eqb l) as [|[|y r] rs] eqn:E.
  - repeat constructor. intros a b Ha Hb.
    apply list_elem_of_singleton in Ha, Hb. by subst.
  - repeat constructor. intros a b Ha Hb.
    apply list_elem_of_singleton in Ha, Hb. by subst.
  - inversion IH as [|? ? Hr Hrs]; subst.
    destruct (Z.eqb_spec x.2 y.2) as [Heq|Hne].
    + constructor; [|done]. intros a b Ha Hb.
      assert (forall c, c ∈ x :: y :: r -> c.2 = y.2) as Hc.
      { intros c Hc. apply elem_of_cons in Hc as [->|Hc]; [done|].
        apply Hr; [done|by left]. }
      by rewrite (Hc a Ha), (Hc b Hb).
    + constructor; [|done]. intros a b Ha Hb.
      apply list_elem_of_singleton in Ha, Hb. by subst.
Qed.

Lemma runs_sorted (l : list (nat * Z)) :
  sorted_keys l -> sorted_runs (runs Z.eqb l).
Proof.
  induction l as [|x l IH]; simpl; [done|].
  intros [Hx Hs]. specialize (IH Hs).
  pose proof (runs_concat Z.eqb l) as Hc.
  pose proof (runs_const l) as Hk.
  destruct (runs Z.eqb l) as [|[|y r] rs] eqn:E.
  - simpl. split; [|done]. repeat constructor.
  - simpl. split; [|done]. repeat constructor.
  - simpl in IH. destruct IH as [Hyr Hrs].
    inversion Hk as [|? ? Hr _]; subst.
    destruct (Z.eqb_spec x.2 y.2) as [Heq|Hne]; simpl.
    + split; [|done]. constructor; [|done].
      inversion Hyr as [|? ? Hy _]; subst.
      eapply Forall_impl; [exact Hy|]. intros r' Hr'. simpl in Hr'.
      eapply Forall_impl; [exact Hr'|]. simpl. intros z Hz. lia.
    + assert (x.2 < y.2) as Hlt.
      { simpl in Hx. inversion Hx; subst. lia. }
      split; [|done]. constructor; [|constructor]. constructor.
      * apply Forall_forall. intros z Hz. rewrite <- (Hr y z); [lia|by left|done].
      * inversion Hyr as [|? ? Hy _]; subst.
        eapply Forall_impl; [exact Hy|]. intros r' Hr'. simpl in Hr'.
        eapply Forall_impl; [exact Hr'|]. simpl. intros z Hz. lia.
Qed.

Lemma sorted_runs_lookup rs i j ri rj x y :
  sorted_runs rs -> (i < j)%nat ->
  rs !! i = Some ri -> rs !! j = Some rj -> x ∈ ri -> y ∈ rj -> x.2 < y.2.
Proof.
  revert i j. induction rs as [|r rs IH]; intros i j Hs Hij Hi Hj Hx Hy; [done|].
  destruct Hs as [Hr Hs]. destruct j as [|j]; [lia|]. simpl in Hj.
  destruct i as [|i]; simpl in Hi.
  - simplify_eq. rewrite Forall_forall in Hr. specialize (Hr x Hx).
    rewrite Forall_forall in Hr.
    specialize (Hr rj (list_elem_of_lookup_2 _ _ _ Hj)).
    rewrite Forall_forall in Hr. by apply Hr.
  - eapply (IH i j); eauto. lia.
Qed.

(** Rows of groups [i < j] have keys in strictly ascending order. *)
Lemma group_i4_ordered keys i j ri rj r r' :
  groups_of Z.leb Z.eqb keys !! i = Some ri ->
  groups_of Z.leb Z.eqb keys !! j = Some rj ->
  r ∈ ri -> r' ∈ rj -> (i < j)%nat ->
  exists k k', keys !! r = Some k /\ keys !! r' = Some k' /\ k < k'.
Proof.
  unfold groups_of. rewrite !list_lookup_fmap.
  intros Hi Hj Hr Hr' Hij.
  destruct (runs Z.eqb (sort_rows Z.leb keys) !! i) as [pi|] eqn:Ei; [|done].
  destruct (runs Z.eqb (sort_rows Z.leb keys) !! j) as [pj|] eqn:Ej; [|done].
  simpl in Hi, Hj. simplify_eq.
  apply list_elem_of_fmap in Hr as (x & -> & Hx).
  apply list_elem_of_fmap in Hr' as (y & -> & Hy).
  exists x.2, y.2. split_and!.
  - apply sort_rows_keys. rewrite <- (runs_concat Z.eqb). apply elem_of_concat.
    exists pi. split; [by eapply list_elem_of_lookup_2|done].
  - apply sort_rows_keys. rewrite <- (runs_concat Z.eqb). apply elem_of_concat.
    exists pj. split; [by eapply list_elem_of_lookup_2|done].
  - eapply sorted_runs_lookup; eauto. apply runs_sorted, sort_rows_sorted.
Qed.

(** Rows of one group have the same key. *)
Lemma group_i4_same keys i rows r r' :
  groups_of Z.leb Z.eqb keys !! i = Some rows ->
  r ∈ rows -> r' ∈ rows ->
  exists k, keys !! r = Some k /\ keys !! r' = Some k.
Proof.
  unfold groups_of. rewrite !list_lookup_fmap.
  intros Hi Hr Hr'.
  destruct (runs Z.eqb (sort_rows Z.leb keys) !! i) as [pi|] eqn:Ei; [|done].
  simpl in Hi. simplify_eq.
  apply list_elem_of_fmap in Hr as (x & -> & Hx).
  apply list_elem_of_fmap in Hr' as (y & -> & Hy).
  pose proof (runs_const (sort_rows Z.leb keys)) as Hc.
  rewrite Forall_forall in Hc.
  specialize (Hc pi (list_elem_of_lookup_2 _ _ _ Ei) x y Hx Hy).
  exists x.2. split.
  - apply sort_rows_keys. rewrite <- (runs_concat Z.eqb). apply elem_of_concat.
    exists pi. split; [by eapply list_elem_of_lookup_2|done].
  - rewrite Hc. apply sort_rows_keys. rewrite <- (runs_concat Z.eqb). apply elem_of_concat.
    exists pi. split; [by eapply list_elem_of_lookup_2|done].
Qed.

(** Two rows are in the same group exactly when their keys are equal. *)
Lemma group_i4_key_iff keys i j ri rj r r' :
  groups_of Z.leb Z.eqb keys !! i = Some ri ->
  groups_of Z.leb Z.eqb keys !! j = Some rj ->
  r ∈ ri -> r' ∈ rj ->
  (keys !! r = keys !! r' <-> i = j).
Proof.
  intros Hi Hj Hr Hr'. split.
  - intros Heq. destruct (Nat.lt_trichotomy i j) as [Hlt|[->|Hgt]]; [|done|].
    + destruct (group_i4_ordered keys i j ri rj r r') as (k & k' & H1 & H2 & H3); try done.
      rewrite H1, H2 in Heq. simplify_eq. lia.
    + destruct (group_i4_ordered keys j i rj ri r' r) as (k & k' & H1 & H2 & H3); try done.
      rewrite H1, H2 in Heq. simplify_eq. lia.
  - intros <-. simplify_eq.
    destruct (group_i4_same keys i ri r r') as (k & H1 & H2); try done.
    by rewrite H1, H2.
Qed.

End GroupI4Facts.

(** ** Writing rows in place *)

Section MarkFacts.

Lemma foldl_insert_length (f : nat -> nat) (v : Z) js (d : list Z) :
  length (foldl (fun d j => <[f j := v]> d) d js) = length d.
Proof.
  revert d. induction js as [|j js IH]; intros d; simpl; [done|].
  by rewrite IH, length_insert.
Qed.

Lemma foldl_insert_lookup_in (f : nat -> nat) (v : Z) js (d : list Z) r :
  r ∈ f <$> js -> (r < length d)%nat ->
  foldl (fun d j => <[f j := v]> d) d js !! r = Some v.
Proof.
  revert d. induction js as [|j js IH] using rev_ind; intros d Hin Hr.
  - inversion Hin.
  - rewrite foldl_app. simpl.
    destruct (decide (f j = r)) as [<-|Hne].
    + apply list_lookup_insert_eq. by rewrite foldl_insert_length.
    + rewrite list_lookup_insert_ne by done.
      apply IH; [|done].
      rewrite fmap_app, elem_of_app in Hin. destruct Hin as [Hin|Hin]; [done|].
      apply list_elem_of_singleton in Hin. congruence.
Qed.

Lemma foldl_insert_lookup_notin (f : nat -> nat) (v : Z) js (d : list Z) r :
  r ∉ f <$> js ->
  foldl (fun d j => <[f j := v]> d) d js !! r = d !! r.
Proof.
  revert d. induction js as [|j js IH]; intros d Hin; simpl; [done|].
  rewrite fmap_cons, not_elem_of_cons in Hin. destruct Hin as [Hne Hin].
  rewrite IH by done. by apply list_lookup_insert_ne.
Qed.

Lemma mark_rows_group g i v (d : list Z) :
  mark_rows (ri g) (offsets g !!! i) (offsets g !!! S i) v d
  = foldl (fun d j => <[ri g !!! j := v]> d) d
      (seq (offsets g !!! i) (offsets g !!! S i - offsets g !!! i)).
Proof. done. Qed.

Lemma mark_rows_length g i v (d : list Z) :
  length (mark_rows (ri g) (offsets g !!! i) (offsets g !!! S i) v d) = length d.
Proof. apply foldl_insert_length. Qed.

Lemma mark_rows_in g i v (d : list Z) r :
  r ∈ group_rows g i -> (r < length d)%nat ->
  mark_rows (ri g) (offsets g !!! i) (offsets g !!! S i) v d !! r = Some v.
Proof. intros Hin Hr. by apply foldl_insert_lookup_in. Qed.

Lemma mark_rows_notin g i v (d : list Z) r :
  r ∉ group_rows g i ->
  mark_rows (ri g) (offsets g !!! i) (offsets g !!! S i) v d !! r = d !! r.
Proof. intros Hin. by apply foldl_insert_lookup_notin. Qed.

(** A loop over groups that writes [v i] to the rows of group [i]. *)
Lemma foldl_groups_length (step : nat -> list Z -> list Z) gs (d : list Z) :
  (forall i (d : list Z), i ∈ gs -> length (step i d) = length d) ->
  length (foldl (fun d i => step i d) d gs) = length d.
Proof.
  revert d. induction gs as [|i gs IH]; intros d Hstep; simpl; [done|].
  rewrite IH, Hstep; [done|by left|].
  intros i' d' Hi'. apply Hstep. by right.
Qed.

Lemma foldl_groups_notin (step : nat -> list Z -> list Z) (rows : nat -> list nat)
    gs (d : list Z) r :
  (forall i (d : list Z), i ∈ gs -> r ∉ rows i -> step i d !! r = d !! r) ->
  (forall i, i ∈ gs -> r ∉ rows i) ->
  foldl (fun d i => step i d) d gs !! r = d !! r.
Proof.
  revert d. induction gs as [|i gs IH]; intros d Hstep Hnot; simpl; [done|].
  rewrite IH.
  - apply Hstep; [by left|]. apply Hnot. by left.
  - intros i' d' Hi'. apply Hstep. by right.
  - intros i' Hi'. apply Hnot. by right.
Qed.

Lemma foldl_groups_in (step : nat -> list Z -> list Z) (rows : nat -> list nat)
    (v : nat -> Z) gs (d : list Z) r i :
  (forall i (d : list Z), i ∈ gs -> length (step i d) = length d) ->
  (forall i (d : list Z), i ∈ gs -> r ∉ rows i -> step i d !! r = d !! r) ->
  (forall i (d : list Z), i ∈ gs -> r ∈ rows i -> (r < length d)%nat ->
     step i d !! r = Some (v i)) ->
  i ∈ gs -> r ∈ rows i -> (forall i', i' ∈ gs -> r ∈ rows i' -> i' = i) ->
  (r < length d)%nat ->
  foldl (fun d i => step i d) d gs !! r = Some (v i).
Proof.
  revert d.
  induction gs as [|i' gs IH] using rev_ind; intros d Hlen Hout Hin Hi Hr Huniq Hlt.
  - inversion Hi.
  - rewrite foldl_app. simpl.
    assert (forall j, j ∈ gs -> j ∈ gs ++ [i']) as Hsub.
    { intros j Hj. apply elem_of_app. by left. }
    assert (i' ∈ gs ++ [i']) as Hlast.
    { apply elem_of_app. right. by left. }
    destruct (decide (r ∈ rows i')) as [Hr'|Hr'].
    + rewrite <- (Huniq i'); [|done|done].
      apply Hin; [done|done|]. rewrite foldl_groups_length; [done|].
      intros j d' Hj. apply Hlen. by apply Hsub.
    + rewrite Hout by done. apply IH; try done.
      * intros j d' Hj. apply Hlen. by apply Hsub.
      * intros j d' Hj. apply Hout. by apply Hsub.
      * intros j d' Hj. apply Hin. by apply Hsub.
      * apply elem_of_app in Hi as [Hi|Hi]; [done|].
        apply list_elem_of_singleton in Hi. by subst.
      * intros i'' Hi'' Hr''. apply Huniq; [|done]. by apply Hsub.
Qed.

(** A loop that fills the slots [0 .. m-1] of an array in order. *)
Lemma foldl_fill {A} (a : nat -> A) ws m (l : list A) :
  (m <= length l)%nat ->
  foldl (fun l i => <[(i - ws)%nat := a i]> l) l (seq ws m)
  = (a <$> seq ws m) ++ drop m l.
Proof.
  induction m as [|m IH]; intros Hm.
  - simpl. by rewrite drop_0.
  - rewrite seq_S, foldl_app, fmap_app. simpl.
    rewrite IH by lia.
    replace (ws + m - ws)%nat with (length (a <$> seq ws m) + 0)%nat
      by (rewrite length_fmap, length_seq; lia).
    rewrite insert_app_r.
    destruct (drop m l) as [|x l'] eqn:E.
    + apply (f_equal length) in E. rewrite length_drop in E. simpl in E. lia.
    + simpl. rewrite <- app_assoc. simpl. do 2 f_equal.
      replace (S m) with (m + 1)%nat by lia.
      rewrite <- (drop_drop l 1 m), E. done.
Qed.

End MarkFacts.

(** ** The finalizer *)

Section FinalizerFacts.
Variable members : list Z.
Hypothesis Hlen : Z.of_nat (length members) < 2 ^ 31.

Local Abbreviation g := (group_i4 members).
Local Abbreviation gs := (groups_of Z.leb Z.eqb members).

Definition ws_nat (was_sampled : bool) : nat := if was_sampled then 1%nat else 0%nat.

Lemma concat_length_ge {X} (ls : list (list X)) :
  Forall (fun l => l <> []) ls -> (length ls <= length (concat ls))%nat.
Proof.
  induction 1 as [|l ls Hl _ IH]; simpl; [done|].
  rewrite length_app. destruct l; [done|]. simpl. lia.
Qed.

Lemma ngroups_i4 : ngroups g = length gs.
Proof. apply group_ngroups. Qed.

Lemma ngroups_le : (ngroups g <= length members)%nat.
Proof.
  rewrite ngroups_i4.
  rewrite <- (group_ri_length Z.leb Z.eqb members), group_ri.
  apply concat_length_ge, groups_of_nonempty.
Qed.

Lemma group_rows_i4 i rows : gs !! i = Some rows -> group_rows g i = rows.
Proof. apply group_rows_eq. Qed.

Lemma offsets_i4 i rows :
  gs !! i = Some rows -> offsets g !!! S i = (offsets g !!! i + length rows)%nat.
Proof. apply group_offsets_mono. Qed.

Lemma set_counts_snd ws l (acc : list Z * list Z) :
  (foldl (fun acc i => set_counts g ws i acc) acc l).2
  = foldl (fun c i => <[(i - ws)%nat :=
             Z.of_nat (offsets g !!! S i) - Z.of_nat (offsets g !!! i)]> c) acc.2 l.
Proof. revert acc. induction l as [|i l IH]; intros acc; simpl; [done|]. by rewrite IH. Qed.

Lemma set_counts_fst ws l (acc : list Z * list Z) :
  (foldl (fun acc i => set_counts g ws i acc) acc l).1
  = foldl (fun c i => <[(i - ws)%nat :=
             to_int32 (Z.of_nat (ri g !!! (offsets g !!! i)))]> c) acc.1 l.
Proof. revert acc. induction l as [|i l IH]; intros acc; simpl; [done|]. by rewrite IH. Qed.

Lemma d_counts_eq ws :
  d_counts (aggregate_exemplars ws members)
  = (fun i => Z.of_nat (offsets g !!! S i) - Z.of_nat (offsets g !!! i))
      <$> seq (ws_nat ws) (ngroups g - ws_nat ws).
Proof.
  unfold aggregate_exemplars. cbn [d_counts]. fold (ws_nat ws).
  rewrite set_counts_snd. cbn [snd].
  rewrite foldl_fill by (rewrite length_replicate; lia).
  rewrite drop_ge by (rewrite length_replicate; lia).
  by rewrite app_nil_r.
Qed.

Lemma exemplar_indices_eq ws :
  exemplar_indices (aggregate_exemplars ws members)
  = (fun i => to_int32 (Z.of_nat (ri g !!! (offsets g !!! i))))
      <$> seq (ws_nat ws) (ngroups g - ws_nat ws).
Proof.
  unfold aggregate_exemplars. cbn [exemplar_indices]. fold (ws_nat ws).
  rewrite set_counts_fst. cbn [fst].
  rewrite foldl_fill by (rewrite length_replicate; lia).
  rewrite drop_ge by (rewrite length_replicate; lia).
  by rewrite app_nil_r.
Qed.

Lemma d_counts_length ws :
  length (d_counts (aggregate_exemplars ws members)) = (length gs - ws_nat ws)%nat.
Proof.
  by rewrite d_counts_eq, length_fmap, length_seq, ngroups_i4.
Qed.

Lemma d_counts_lookup ws k rows :
  gs !! (ws_nat ws + k)%nat = Some rows ->
  d_counts (aggregate_exemplars ws members) !! k = Some (Z.of_nat (length rows)).
Proof.
  intros Hk. pose proof (lookup_lt_Some _ _ _ Hk) as Hlt.
  rewrite d_counts_eq, list_lookup_fmap, ngroups_i4.
  rewrite lookup_seq_lt by lia. cbn [fmap option_fmap option_map].
  rewrite (offsets_i4 _ _ Hk). f_equal. lia.
Qed.

Lemma set_members_mark ws i rows (d : list Z) :
  gs !! i = Some rows -> (ws_nat ws <= i)%nat ->
  set_members g (ws_nat ws) (d_counts (aggregate_exemplars ws members)) i d
  = mark_rows (ri g) (offsets g !!! i) (offsets g !!! S i) (Z.of_nat (i - ws_nat ws)) d.
Proof.
  intros Hi Hws. pose proof (lookup_lt_Some _ _ _ Hi) as Hlt.
  pose proof ngroups_le as Hle. rewrite ngroups_i4 in Hle.
  unfold set_members, mark_rows.
  assert (d_counts (aggregate_exemplars ws members) !! (i - ws_nat ws)%nat
          = Some (Z.of_nat (length rows))) as Hc.
  { apply d_counts_lookup. by replace (ws_nat ws + (i - ws_nat ws))%nat with i by lia. }
  rewrite (list_lookup_total_correct _ _ _ Hc).
  rewrite Nat2Z.id, (offsets_i4 _ _ Hi).
  replace (offsets g !!! i + length rows - offsets g !!! i)%nat with (length rows) by lia.
  rewrite to_int32_nat by lia.
  replace (seq (offsets g !!! i) (length rows))
    with (Nat.add (offsets g !!! i) <$> seq 0 (length rows))
    by (rewrite fmap_add_seq; f_equal; lia).
  by rewrite foldl_fmap.
Qed.

(** The rewritten [exemplar_id] of a row in group [i]: the group number,
    shifted by one when group [0] is skipped; the rows of a skipped
    group keep their value. *)
Lemma aggregate_exemplars_lookup ws i rows r :
  gs !! i = Some rows -> r ∈ rows ->
  d_members (aggregate_exemplars ws members) !! r
  = if decide (ws_nat ws <= i)%nat then Some (Z.of_nat (i - ws_nat ws)) else members !! r.
Proof.
  intros Hi Hr. pose proof (lookup_lt_Some _ _ _ Hi) as Hlt.
  assert (r < length members)%nat as Hrlt.
  { apply (groups_of_elem Z.leb Z.eqb). apply elem_of_concat. exists rows.
    split; [by eapply list_elem_of_lookup_2|done]. }
  unfold aggregate_exemplars. cbn [d_members]. fold (ws_nat ws).
  change (foldl (fun acc i0 => set_counts g (ws_nat ws) i0 acc)
            (replicate (ngroups g - ws_nat ws) 0, replicate (ngroups g - ws_nat ws) 0)
            (seq (ws_nat ws) (ngroups g - ws_nat ws))).2
    with (d_counts (aggregate_exemplars ws members)).
  set (step := fun i d => set_members g (ws_nat ws)
                 (d_counts (aggregate_exemplars ws members)) i d).
  assert (forall j, j ∈ seq (ws_nat ws) (ngroups g - ws_nat ws) ->
            (ws_nat ws <= j)%nat /\ exists rj, gs !! j = Some rj) as Hloop.
  { intros j Hj. apply elem_of_seq in Hj. split; [lia|].
    apply lookup_lt_is_Some_2. rewrite ngroups_i4 in Hj. lia. }
  assert (forall j (d : list Z), j ∈ seq (ws_nat ws) (ngroups g - ws_nat ws) ->
            length (step j d) = length d) as Hsl.
  { intros j d Hj. destruct (Hloop j Hj) as (Hj1 & rj & Hj2).
    unfold step. rewrite (set_members_mark ws j rj) by done. apply mark_rows_length. }
  assert (forall j (d : list Z), j ∈ seq (ws_nat ws) (ngroups g - ws_nat ws) ->
            r ∉ group_rows g j -> step j d !! r = d !! r) as Hso.
  { intros j d Hj Hnot. destruct (Hloop j Hj) as (Hj1 & rj & Hj2).
    unfold step. rewrite (set_members_mark ws j rj) by done. by apply mark_rows_notin. }
  destruct (decide (ws_nat ws <= i)%nat) as [Hws|Hws].
  - apply (foldl_groups_in step (group_rows g) (fun i => Z.of_nat (i - ws_nat ws))); try done.
    + intros j d Hj Hin Hlt'. destruct (Hloop j Hj) as (Hj1 & rj & Hj2).
      unfold step. rewrite (set_members_mark ws j rj) by done. by apply mark_rows_in.
    + apply elem_of_seq. rewrite ngroups_i4. lia.
    + by rewrite (group_rows_i4 i rows).
    + intros j Hj Hin. destruct (Hloop j Hj) as (Hj1 & rj & Hj2).
      rewrite (group_rows_i4 j rj) in Hin by done.
      by eapply (groups_of_disjoint Z.leb Z.eqb members j i rj rows r).
  - apply (foldl_groups_notin step (group_rows g)); [done|].
    intros j Hj Hin. destruct (Hloop j Hj) as (Hj1 & rj & Hj2).
    rewrite (group_rows_i4 j rj) in Hin by done.
    assert (j = i) by (by eapply (groups_of_disjoint Z.leb Z.eqb members j i rj rows r)).
    lia.
Qed.

Lemma aggregate_exemplars_length ws :
  length (d_members (aggregate_exemplars ws members)) = length members.
Proof.
  unfold aggregate_exemplars. cbn [d_members]. fold (ws_nat ws).
  apply foldl_groups_length. intros j d Hj.
  apply foldl_insert_length.
Qed.

End FinalizerFacts.

(** ** The sampler *)

Section SamplerFacts.
Variable members : list Z.
Hypothesis Hlen : Z.of_nat (length members) < 2 ^ 31.

Local Abbreviation g := (group_i4 members).
Local Abbreviation gs := (groups_of Z.leb Z.eqb members).

(** The state of the sampling loop after the groups [sel] have been
    selected, in this order: the rows of the [j]-th selected group hold
    [j], all other rows hold the missing value. *)
Definition selected (sel : list nat) (d : list Z) : Prop :=
  NoDup sel /\ (forall i, i ∈ sel -> (i < length gs)%nat) /\
  length d = length members /\
  forall i rows r, gs !! i = Some rows -> r ∈ rows ->
    (forall j, sel !! j = Some i -> d !! r = Some (Z.of_nat j)) /\
    (i ∉ sel -> d !! r = Some NA_I4).

Lemma rows_lt i rows r : gs !! i = Some rows -> r ∈ rows -> (r < length members)%nat.
Proof.
  intros Hi Hr. apply (groups_of_elem Z.leb Z.eqb). apply elem_of_concat.
  exists rows. split; [by eapply list_elem_of_lookup_2|done].
Qed.

Lemma selected_init : selected [] (replicate (length members) NA_I4).
Proof.
  split_and!.
  - constructor.
  - intros i Hi. inversion Hi.
  - apply length_replicate.
  - intros i rows r Hi Hr. split; [intros j Hj; done|].
    intros _. apply lookup_replicate_2. by eapply rows_lt.
Qed.

Lemma selected_length sel d : selected sel d -> (length sel <= length gs)%nat.
Proof.
  intros (Hnd & Hlt & _).
  rewrite <- (length_seq (length gs) 0).
  apply submseteq_length, NoDup_submseteq; [done|].
  intros i Hi. apply elem_of_seq. specialize (Hlt i Hi). lia.
Qed.

Lemma draw_index r :
  (0 < length gs)%nat ->
  Z.to_nat (Z.rem (Z.of_nat r) (to_int32 (Z.of_nat (ngroups g)))) = (r mod length gs)%nat.
Proof.
  intros Hpos. pose proof (ngroups_le members) as Hle.
  rewrite (ngroups_i4 members) in *.
  rewrite to_int32_nat by lia.
  rewrite Z.rem_mod_nonneg by lia.
  rewrite <- Nat2Z.inj_mod. apply Nat2Z.id.
Qed.

Lemma first_row i rows : gs !! i = Some rows -> ri g !!! (offsets g !!! i) ∈ rows.
Proof.
  intros Hi. pose proof (group_rows_i4 members i rows Hi) as Hrows.
  pose proof (offsets_i4 members i rows Hi) as Hoff.
  pose proof (groups_of_nonempty Z.leb Z.eqb members) as Hne.
  rewrite Forall_forall in Hne. specialize (Hne rows (list_elem_of_lookup_2 _ _ _ Hi)).
  unfold group_rows in Hrows. rewrite Hoff in Hrows.
  destruct rows as [|r0 rows]; [done|].
  replace (offsets g !!! i + length (r0 :: rows) - offsets g !!! i)%nat
    with (S (length rows)) in Hrows by (simpl; lia).
  cbn [seq fmap list_fmap] in Hrows.
  assert (r0 = ri g !!! (offsets g !!! i)) as -> by congruence. by left.
Qed.

Lemma selected_test sel d i rows :
  selected sel d -> gs !! i = Some rows ->
  ISNA_I4 (d !!! (ri g !!! (offsets g !!! i))) = true <-> i ∉ sel.
Proof.
  intros (Hnd & Hlt & Hd & Hrows) Hi.
  destruct (Hrows i rows _ Hi (first_row i rows Hi)) as [Hsel Hnot].
  split.
  - intros Hna Hin. apply list_elem_of_lookup in Hin as [j Hj].
    rewrite (list_lookup_total_correct _ _ _ (Hsel j Hj)) in Hna.
    by rewrite ISNA_I4_nat in Hna.
  - intros Hin. by rewrite (list_lookup_total_correct _ _ _ (Hnot Hin)).
Qed.

Lemma selected_step sel d i rows :
  selected sel d -> gs !! i = Some rows -> i ∉ sel ->
  selected (sel ++ [i])
    (mark_rows (ri g) (offsets g !!! i) (offsets g !!! S i) (Z.of_nat (length sel)) d).
Proof.
  intros (Hnd & Hlt & Hd & Hrows) Hi Hnot.
  split_and!.
  - apply NoDup_app. split_and!; [done| |apply NoDup_singleton].
    intros x Hx Hx'. apply list_elem_of_singleton in Hx'. by subst.
  - intros x Hx. apply elem_of_app in Hx as [Hx|Hx]; [by apply Hlt|].
    apply list_elem_of_singleton in Hx. subst. by eapply lookup_lt_Some.
  - by rewrite mark_rows_length.
  - intros i' rows' r Hi' Hr.
    destruct (decide (i' = i)) as [->|Hne].
    + assert (rows' = rows) as -> by congruence. split.
      * intros j Hj.
        rewrite mark_rows_in;
          [|by rewrite (group_rows_i4 members i rows Hi)|rewrite Hd; by eapply rows_lt].
        apply lookup_app_Some in Hj as [Hj|[Hlen' Hj]].
        -- exfalso. apply Hnot. by eapply list_elem_of_lookup_2.
        -- apply list_lookup_singleton_Some in Hj as [Hj _].
           do 2 f_equal. lia.
      * intros Hn. exfalso. apply Hn. apply elem_of_app. right. by left.
    + assert (r ∉ group_rows g i) as Hout.
      { rewrite (group_rows_i4 members i rows Hi). intros Hr'. apply Hne.
        by eapply (groups_of_disjoint Z.leb Z.eqb members i' i rows' rows r). }
      rewrite mark_rows_notin by done.
      destruct (Hrows i' rows' r Hi' Hr) as [Hsel Hnsel]. split.
      * intros j Hj. apply Hsel.
        apply lookup_app_Some in Hj as [Hj|[Hlen' Hj]]; [done|].
        apply list_lookup_singleton_Some in Hj as [_ Hj]. congruence.
      * intros Hn. apply Hnsel. intros Hin. apply Hn. apply elem_of_app. by left.
Qed.

Lemma sample_loop_unfold max_bins draws k (d : list Z) :
  sample_loop g max_bins draws k d =
  if (N.of_nat k <? max_bins)%N then
    match draws with
    | [] => None
    | r :: draws' =>
        let i := Z.to_nat (Z.rem (Z.of_nat r) (to_int32 (Z.of_nat (ngroups g)))) in
        let off_i := offsets g !!! i in
        if ISNA_I4 (d !!! (ri g !!! off_i)) then
          let off_i1 := offsets g !!! S i in
          sample_loop g max_bins draws' (S k)
            (mark_rows (ri g) off_i off_i1 (to_int32 (Z.of_nat k)) d)
        else sample_loop g max_bins draws' k d
    end
  else Some d.
Proof. destruct draws; reflexivity. Qed.

Lemma sample_loop_spec max_bins draws sel d d' :
  (0 < length gs)%nat ->
  selected sel d -> (length sel <= N.to_nat max_bins)%nat ->
  sample_loop g max_bins draws (length sel) d = Some d' ->
  exists sel', selected sel' d' /\ length sel' = N.to_nat max_bins.
Proof.
  intros Hpos. revert sel d.
  induction draws as [|r draws IH]; intros sel d Hsel Hk Hrun;
    rewrite sample_loop_unfold in Hrun;
    destruct (N.ltb_spec (N.of_nat (length sel)) max_bins) as [Hlt|Hge];
    try done.
  - simplify_eq. exists sel. split; [done|lia].
  - cbv zeta in Hrun. rewrite draw_index in Hrun by done.
    set (i := (r mod length gs)%nat) in *.
    assert (i < length gs)%nat as Hi by (apply Nat.mod_upper_bound; lia).
    destruct (lookup_lt_is_Some_2 gs i Hi) as [rows Hrows].
    pose proof (selected_length _ _ Hsel) as Hsl.
    pose proof (ngroups_le members) as Hle. rewrite (ngroups_i4 members) in Hle.
    destruct (ISNA_I4 (d !!! (ri g !!! (offsets g !!! i)))) eqn:Hna.
    + rewrite to_int32_nat in Hrun by lia.
      apply (selected_test sel d i rows Hsel Hrows) in Hna.
      eapply (IH (sel ++ [i])).
      * by apply (selected_step sel d i rows).
      * rewrite length_app. simpl. lia.
      * rewrite length_app. simpl. rewrite Nat.add_1_r. exact Hrun.
    + by apply (IH sel d).
  - simplify_eq. exists sel. split; [done|lia].
Qed.

End SamplerFacts.

(** ** Member counts *)

Section CountFacts.

Lemma filter_fmap_length {A B} (P : B -> Prop) `{!forall x, Decision (P x)}
    (f : A -> B) (l : list A) :
  length (filter P (f <$> l)) = length (filter (fun x => P (f x)) l).
Proof.
  induction l as [|x l IH]; [done|].
  rewrite fmap_cons, !filter_cons. destruct (decide (P (f x))); simpl; by rewrite IH.
Qed.

Lemma list_as_fmap_seq (l : list Z) : l = (fun r => l !!! r) <$> seq 0 (length l).
Proof.
  apply list_eq. intros i. rewrite list_lookup_fmap.
  destruct (decide (i < length l)%nat) as [Hi|Hi].
  - rewrite lookup_seq_lt by done. simpl.
    destruct (lookup_lt_is_Some_2 l i Hi) as [x Hx].
    by rewrite Hx, (list_lookup_total_correct _ _ _ Hx).
  - rewrite lookup_seq_ge by lia. simpl. apply lookup_ge_None. lia.
Qed.

Lemma NoDup_concat_elem {X} (ls : list (list X)) l :
  NoDup (concat ls) -> l ∈ ls -> NoDup l.
Proof.
  induction ls as [|l' ls IH]; intros Hnd Hl; [inversion Hl|].
  simpl in Hnd. apply NoDup_app in Hnd as (H1 & _ & H2).
  apply elem_of_cons in Hl as [->|Hl]; [done|by apply IH].
Qed.

(** The rows that hold [k] are counted by listing them. *)
Lemma count_rows_perm (k : Z) (ids : list Z) (rows : list nat) :
  NoDup rows ->
  (forall r, r ∈ rows <-> ids !! r = Some k) ->
  count_rows k ids = length rows.
Proof.
  intros Hnd Hrows. unfold count_rows.
  rewrite (list_as_fmap_seq ids) at 1. rewrite filter_fmap_length.
  apply Permutation_length, NoDup_Permutation; [|done|].
  - apply NoDup_filter, NoDup_seq.
  - intros r. rewrite list_elem_of_filter, elem_of_seq, Hrows. split.
    + intros [Hk Hr]. rewrite <- Hk. apply list_lookup_lookup_total_lt. lia.
    + intros Hk. split; [by apply list_lookup_total_correct|].
      apply lookup_lt_Some in Hk. lia.
Qed.

Variable members : list Z.
Hypothesis Hlen : Z.of_nat (length members) < 2 ^ 31.

Local Abbreviation gs := (groups_of Z.leb Z.eqb members).

(** When a row is missing and no value is below the missing value, the
    first group is the group of the missing rows. *)
Lemma na_group_first rows r :
  (exists r0, members !! r0 = Some NA_I4) ->
  Forall (fun x => NA_I4 <= x) members ->
  gs !! 0%nat = Some rows -> r ∈ rows -> members !! r = Some NA_I4.
Proof.
  intros [r0 Hr0] Hmin H0 Hr.
  destruct (groups_of_cover Z.leb Z.eqb members r0) as (i0 & rows0 & Hi0 & Hin0).
  { by eapply lookup_lt_Some. }
  destruct i0 as [|i0].
  - assert (rows0 = rows) as -> by congruence.
    destruct (group_i4_same members 0 rows r r0) as (k & H1 & H2); try done. congruence.
  - destruct (group_i4_ordered members 0 (S i0) rows rows0 r r0)
      as (k & k' & H1 & H2 & H3); try done; [lia|].
    rewrite Forall_forall in Hmin.
    pose proof (Hmin k (list_elem_of_lookup_2 _ _ _ H1)). simplify_eq. lia.
Qed.

(** [members_count[k]] is the number of rows whose rewritten
    [exemplar_id] is [k]. *)
Lemma aggregate_exemplars_counts ws k :
  (ws = true ->
     (exists r0, members !! r0 = Some NA_I4) /\ Forall (fun x => NA_I4 <= x) members) ->
  (k < length (d_counts (aggregate_exemplars ws members)))%nat ->
  d_counts (aggregate_exemplars ws members) !! k
  = Some (Z.of_nat (count_rows (Z.of_nat k) (d_members (aggregate_exemplars ws members)))).
Proof.
  intros Hna Hk. rewrite d_counts_length in Hk.
  destruct (lookup_lt_is_Some_2 gs (ws_nat ws + k)%nat ltac:(lia)) as [rows Hrows].
  rewrite (d_counts_lookup members ws k rows Hrows). do 2 f_equal. symmetry.
  apply count_rows_perm.
  - apply (NoDup_concat_elem gs); [apply groups_of_NoDup|by eapply list_elem_of_lookup_2].
  - intros r. split.
    + intros Hr. rewrite (aggregate_exemplars_lookup members Hlen ws _ rows r Hrows Hr).
      rewrite decide_True by lia. do 2 f_equal. lia.
    + intros Hr.
      assert (r < length members)%nat as Hlt.
      { apply lookup_lt_Some in Hr. by rewrite aggregate_exemplars_length in Hr. }
      destruct (groups_of_cover Z.leb Z.eqb members r Hlt) as (i & rows' & Hi & Hin).
      rewrite (aggregate_exemplars_lookup members Hlen ws i rows' r Hi Hin) in Hr.
      destruct (decide (ws_nat ws <= i)%nat) as [Hws|Hws].
      * assert (i = (ws_nat ws + k)%nat) as -> by (simplify_eq; lia).
        congruence.
      * destruct ws; [|simpl in Hws; lia]. simpl in Hws.
        assert (i = 0%nat) as -> by lia.
        destruct (Hna eq_refl) as [Hex Hmin].
        rewrite (na_group_first rows' r Hex Hmin Hi Hin) in Hr.
        unfold NA_I4, INT32_MIN in Hr. simplify_eq. lia.
Qed.

End CountFacts.

(** ** The sampler, continued: what a run of the loop selects *)

(** A group is left while fewer groups than there are have been
    selected. *)
Lemma unselected_exists (sel : list nat) n :
  NoDup sel -> (length sel < n)%nat -> exists i, (i < n)%nat /\ i ∉ sel.
Proof.
  intros Hnd Hlt.
  destruct (decide (Forall (fun i => i ∈ sel) (seq 0 n))) as [Hall|Hex].
  - exfalso. rewrite Forall_forall in Hall.
    assert (seq 0 n ⊆+ sel) as Hsub by (apply NoDup_submseteq; [apply NoDup_seq|done]).
    apply submseteq_length in Hsub. rewrite length_seq in Hsub. lia.
  - apply not_Forall_Exists in Hex; [|apply _].
    apply Exists_exists in Hex as (i & Hi & Hnot).
    exists i. apply elem_of_seq in Hi. split; [lia|done].
Qed.

Section SamplerSpec.
Variable members : list Z.
Hypothesis Hlen : Z.of_nat (length members) < 2 ^ 31.

Local Abbreviation g := (group_i4 members).
Local Abbreviation gs := (groups_of Z.leb Z.eqb members).

(** From any state of the loop, some further results of [rand()] make
    it finish. *)
Lemma sample_loop_finishes max_bins n sel (d : list Z) :
  n = (N.to_nat max_bins - length sel)%nat ->
  (N.to_nat max_bins < length gs)%nat ->
  selected members sel d ->
  exists more, is_Some (sample_loop g max_bins more (length sel) d).
Proof.
  revert sel d. induction n as [|n IH]; intros sel d Hn Hmax Hsel.
  - exists []. rewrite sample_loop_unfold.
    destruct (N.ltb_spec (N.of_nat (length sel)) max_bins); [lia|]. by eexists.
  - pose proof Hsel as (Hnd & _).
    destruct (unselected_exists sel (length gs) Hnd ltac:(lia)) as (i & Hi & Hnot).
    destruct (lookup_lt_is_Some_2 gs i Hi) as [rows Hrows].
    pose proof (ngroups_le members) as Hle. rewrite (ngroups_i4 members) in Hle.
    destruct (IH (sel ++ [i])
                (mark_rows (ri g) (offsets g !!! i) (offsets g !!! S i)
                   (Z.of_nat (length sel)) d)) as [more Hmore].
    + rewrite length_app. simpl. lia.
    + done.
    + by apply (selected_step members sel d i rows).
    + exists (i :: more). rewrite sample_loop_unfold.
      destruct (N.ltb_spec (N.of_nat (length sel)) max_bins); [|lia].
      cbv zeta. rewrite (draw_index members Hlen) by lia.
      rewrite Nat.mod_small by done.
      apply (selected_test members sel d i rows Hsel Hrows) in Hnot.
      rewrite Hnot, to_int32_nat by lia.
      rewrite length_app in Hmore. simpl in Hmore. by rewrite Nat.add_1_r in Hmore.
Qed.

Lemma sample_loop_extends max_bins draws sel (d : list Z) :
  (N.to_nat max_bins < length gs)%nat ->
  selected members sel d -> (length sel <= N.to_nat max_bins)%nat ->
  exists more, is_Some (sample_loop g max_bins (draws ++ more) (length sel) d).
Proof.
  intros Hmax. revert sel d.
  induction draws as [|r draws IH]; intros sel d Hsel Hk.
  - simpl. by eapply sample_loop_finishes.
  - pose proof (selected_length members _ _ Hsel) as Hsl.
    pose proof (ngroups_le members) as Hle. rewrite (ngroups_i4 members) in Hle.
    destruct (N.ltb_spec (N.of_nat (length sel)) max_bins) as [Hlt|Hge].
    + set (i := (r mod length gs)%nat).
      assert (i < length gs)%nat as Hi by (apply Nat.mod_upper_bound; lia).
      destruct (lookup_lt_is_Some_2 gs i Hi) as [rows Hrows].
      destruct (ISNA_I4 (d !!! (ri g !!! (offsets g !!! i)))) eqn:Hna.
      * pose proof Hna as Hnot.
        apply (selected_test members sel d i rows Hsel Hrows) in Hnot.
        destruct (IH (sel ++ [i])
                    (mark_rows (ri g) (offsets g !!! i) (offsets g !!! S i)
                       (Z.of_nat (length sel)) d)) as [more Hmore].
        -- by apply (selected_step members sel d i rows).
        -- rewrite length_app. simpl. lia.
        -- exists more. rewrite <- app_comm_cons, sample_loop_unfold.
           destruct (N.ltb_spec (N.of_nat (length sel)) max_bins); [|lia].
           cbv zeta. rewrite (draw_index members Hlen) by lia. fold i.
           rewrite Hna, to_int32_nat by lia.
           rewrite length_app in Hmore. simpl in Hmore. by rewrite Nat.add_1_r in Hmore.
      * destruct (IH sel d Hsel Hk) as [more Hmore].
        exists more. rewrite <- app_comm_cons, sample_loop_unfold.
        destruct (N.ltb_spec (N.of_nat (length sel)) max_bins); [|lia].
        cbv zeta. rewrite (draw_index members Hlen) by lia. fold i.
        by rewrite Hna.
    + exists []. rewrite sample_loop_unfold.
      destruct (N.ltb_spec (N.of_nat (length sel)) max_bins); [lia|]. by eexists.
Qed.

End SamplerSpec.

Section SamplerTheorem.
Variables prec emax : Z.

Lemma n_na_bins_cases ncols :
  Dispatch.n_na_bins_of ncols = 0%N \/ Dispatch.n_na_bins_of ncols = 1%N
  \/ Dispatch.n_na_bins_of ncols = 3%N.
Proof. destruct ncols as [|[|[|n]]]; simpl; auto. Qed.

Lemma grouping_n_na_bins par env dt members max_bins n_na_bins :
  Dispatch.grouping prec emax par env dt = inr (members, Some (max_bins, n_na_bins)) ->
  n_na_bins = 0%N \/ n_na_bins = 1%N \/ n_na_bins = 3%N.
Proof.
  unfold Dispatch.grouping. intros H.
  destruct (_ <=? _)%N; [|done].
  destruct (length _ + length _)%nat as [|[|[|n]]];
    repeat case_match; simplify_eq; simpl; auto.
Qed.

(** C4.  [sample_exemplars] samples exactly when the number of groups
    exceeds [max_bins + n_na_bins], where [n_na_bins] is 0, 1 or 3 by the
    grouping path.  A run that samples selects [max_bins] distinct
    groups [sel]: the rows of the [k]-th selected group receive the id
    [k], for [k = 0, ..., max_bins - 1], and every row of a group that
    is not selected is left at the missing value.  Whatever [rand()] has
    returned so far, some further results make the loop finish.  The
    row count fits [int32_t] and [max_bins + n_na_bins] does not wrap. *)
Theorem sample_exemplars_selects (draws : list nat) (max_bins n_na_bins : N)
    (members : list Z) :
  Z.of_nat (length members) < 2 ^ 31 ->
  (max_bins + n_na_bins < SIZE_MOD)%N ->
  (forall d ws,
     sample_exemplars draws max_bins n_na_bins members = Some (d, ws) ->
     (ws = true <-> (max_bins + n_na_bins < N.of_nat (ngroups (group_i4 members)))%N) /\
     (ws = false -> d = members) /\
     (ws = true ->
        exists sel : list nat,
          length sel = N.to_nat max_bins /\ NoDup sel /\
          (forall i, i ∈ sel -> (i < ngroups (group_i4 members))%nat) /\
          length d = length members /\
          forall i r, (i < ngroups (group_i4 members))%nat ->
            r ∈ group_rows (group_i4 members) i ->
            (forall k, sel !! k = Some i -> d !! r = Some (Z.of_nat k)) /\
            (i ∉ sel -> d !! r = Some NA_I4))) /\
  (exists more, is_Some (sample_exemplars (draws ++ more) max_bins n_na_bins members)) /\
  (forall par env dt members' max_bins' n_na_bins',
     Dispatch.grouping prec emax par env dt
       = inr (members', Some (max_bins', n_na_bins')) ->
     n_na_bins' = 0%N \/ n_na_bins' = 1%N \/ n_na_bins' = 3%N).
Proof.
  intros Hlen Hsum. split_and!.
  - intros d ws. unfold sample_exemplars. rewrite size_add_small by done.
    destruct (N.ltb_spec (max_bins + n_na_bins) (N.of_nat (ngroups (group_i4 members))))
      as [Hlt|Hge].
    + destruct (sample_loop _ _ _ _ _) as [d'|] eqn:Hloop; simpl; [|done].
      intros [= <- <-]. split_and!; [done|done|]. intros _.
      rewrite ngroups_i4 in Hlt.
      destruct (sample_loop_spec members Hlen max_bins draws []
                  (replicate (length members) NA_I4) d')
        as (sel & (Hnd & Hin & Hd & Hrows) & Hsel).
      * lia.
      * apply selected_init.
      * simpl. lia.
      * exact Hloop.
      * exists sel. rewrite ngroups_i4. split_and!; try done.
        intros i r Hi Hr.
        destruct (lookup_lt_is_Some_2 _ i Hi) as [rows Hi'].
        rewrite (group_rows_i4 members i rows Hi') in Hr.
        by apply (Hrows i rows r).
    + intros [= <- <-]. split_and!; [|done|done]. split; [done|lia].
  - unfold sample_exemplars. rewrite size_add_small by done.
    destruct (N.ltb_spec (max_bins + n_na_bins) (N.of_nat (ngroups (group_i4 members))))
      as [Hlt|Hge].
    + rewrite ngroups_i4 in Hlt.
      destruct (sample_loop_extends members Hlen max_bins draws [] 
                  (replicate (length members) NA_I4)) as [more [d Hd]].
      * lia.
      * apply selected_init.
      * simpl. lia.
      * exists more. simpl in Hd. rewrite Hd. by eexists.
    + exists []. by eexists.
  - intros par env dt m mb nna. apply grouping_n_na_bins.
Qed.

End SamplerTheorem.

Lemma sample_exemplars_selects_witness :
  Z.of_nat (length [5; 3; 5; NA_I4; 3; 7; 9]%Z) < 2 ^ 31 /\
  (2 + 1 < SIZE_MOD)%N /\
  sample_exemplars [0; 0; 5; 2]%nat 2 1 [5; 3; 5; NA_I4; 3; 7; 9]%Z
  = Some ([1; NA_I4; 1; 0; NA_I4; NA_I4; NA_I4]%Z, true) /\
  (2 + 1 < N.of_nat (ngroups (group_i4 [5; 3; 5; NA_I4; 3; 7; 9]%Z)))%N.
Proof.
  assert (Z.of_nat (length [5; 3; 5; NA_I4; 3; 7; 9]%Z) < 2 ^ 31) as H1
    by (vm_compute; reflexivity).
  assert (2 + 1 < SIZE_MOD)%N as H2 by (vm_compute; reflexivity).
  assert (sample_exemplars [0; 0; 5; 2]%nat 2 1 [5; 3; 5; NA_I4; 3; 7; 9]%Z
          = Some ([1; NA_I4; 1; 0; NA_I4; NA_I4; NA_I4]%Z, true)) as H3
    by (vm_compute; reflexivity).
  refine (conj H1 (conj H2 (conj H3 _))).
  destruct (sample_exemplars_selects 53 1024
              [0; 0; 5; 2]%nat 2 1 [5; 3; 5; NA_I4; 3; 7; 9]%Z H1 H2)
    as (Hspec & _ & _).
  destruct (Hspec _ _ H3) as (Hiff & _ & _).
  by apply Hiff.
Defined.

(** ** The column after the sampler *)

Section SampledColumn.
Variable members : list Z.
Hypothesis Hlen : Z.of_nat (length members) < 2 ^ 31.

Local Abbreviation gs := (groups_of Z.leb Z.eqb members).

(** When fewer groups than there are have been selected, a row is left
    at the missing value, and no value is below it. *)
Lemma selected_column sel (d : list Z) :
  selected members sel d -> (length sel < length gs)%nat ->
  (exists r0, d !! r0 = Some NA_I4) /\ Forall (fun x => NA_I4 <= x) d.
Proof.
  intros (Hnd & Hin & Hd & Hrows) Hlt. split.
  - destruct (unselected_exists sel (length gs) Hnd Hlt) as (i & Hi & Hnot).
    destruct (lookup_lt_is_Some_2 gs i Hi) as [rows Hi'].
    pose proof (groups_of_nonempty Z.leb Z.eqb members) as Hne.
    rewrite Forall_forall in Hne. specialize (Hne rows (list_elem_of_lookup_2 _ _ _ Hi')).
    destruct rows as [|r0 rows]; [done|].
    exists r0. apply (Hrows i (r0 :: rows) r0 Hi'); [by left|done].
  - apply Forall_lookup. intros r x Hx.
    assert (r < length members)%nat as Hr by (rewrite <- Hd; by eapply lookup_lt_Some).
    destruct (groups_of_cover Z.leb Z.eqb members r Hr) as (i & rows & Hi & Hin').
    destruct (Hrows i rows r Hi Hin') as [Hsel Hnsel].
    destruct (decide (i ∈ sel)) as [Hi'|Hi'].
    + apply list_elem_of_lookup in Hi' as [j Hj].
      rewrite (Hsel j Hj) in Hx. simplify_eq. unfold NA_I4, INT32_MIN. lia.
    + rewrite (Hnsel Hi') in Hx. by simplify_eq.
Qed.

(** The counts after the sampler and the finalizer. *)
Lemma finalize_counts draws max_bins n_na_bins m' ws k :
  (n_na_bins <= 3)%N ->
  sample_exemplars draws max_bins n_na_bins members = Some (m', ws) ->
  (k < length (d_counts (aggregate_exemplars ws m')))%nat ->
  d_counts (aggregate_exemplars ws m') !! k
  = Some (Z.of_nat (count_rows (Z.of_nat k) (d_members (aggregate_exemplars ws m')))).
Proof.
  intros Hna Hs Hk. unfold sample_exemplars in Hs.
  destruct (N.ltb_spec (size_add max_bins n_na_bins) (N.of_nat (ngroups (group_i4 members))))
    as [Hlt|Hge].
  - destruct (sample_loop _ _ _ _ _) as [d'|] eqn:Hloop; simpl in Hs; [|done].
    injection Hs as <- <-.
    rewrite ngroups_i4 in Hlt.
    pose proof (ngroups_le members) as Hle. rewrite ngroups_i4 in Hle.
    destruct (sample_loop_spec members Hlen max_bins draws []
                (replicate (length members) NA_I4) d')
      as (sel & Hsel & Hsel_len).
    + lia.
    + apply selected_init.
    + simpl. lia.
    + exact Hloop.
    + pose proof (selected_length members _ _ Hsel) as Hsl.
      pose proof Hsel as (_ & _ & Hd & _).
      assert (length sel < length gs)%nat as Hstrict.
      { unfold size_add, SIZE_MOD in Hlt.
        destruct (N.lt_ge_cases (max_bins + n_na_bins) (2 ^ 64)) as [Hsmall|Hbig].
        - rewrite N.mod_small in Hlt by done. lia.
        - assert (2 ^ 31 < 2 ^ 64 - 3)%N by (vm_compute; reflexivity).
          assert (Z.of_nat (length sel) < 2 ^ 31) by lia.
          assert (2 ^ 64 - 3 <= max_bins)%N by lia.
          assert (2 ^ 31 = Z.of_N (2 ^ 31)%N) by (vm_compute; reflexivity).
          lia. }
      apply aggregate_exemplars_counts; [by rewrite Hd| |done].
      intros _. by apply (selected_column sel d').
  - injection Hs as <- <-. by apply aggregate_exemplars_counts.
Qed.

End SampledColumn.

(** ** The grouping paths write the members column in place *)

Section LengthFacts.
Variables prec emax : Z.

Lemma foldl_preserves_length {A} (step : list Z -> A -> list Z) (l : list A) (d : list Z) :
  (forall d x, length (step d x) = length d) ->
  length (foldl step d l) = length d.
Proof.
  intros Hstep. revert d. induction l as [|x l IH]; intros d; simpl; [done|].
  by rewrite IH, Hstep.
Qed.

Lemma sample_loop_length g max_bins draws k (d d' : list Z) :
  sample_loop g max_bins draws k d = Some d' -> length d' = length d.
Proof.
  revert k d. induction draws as [|r draws IH]; intros k d; simpl.
  - destruct (_ <? _)%N; [done|]. by intros [= <-].
  - destruct (_ <? _)%N; [|by intros [= <-]].
    destruct (ISNA_I4 _); intros H; apply IH in H; [|done].
    rewrite H. apply foldl_insert_length.
Qed.

Lemma sample_exemplars_length draws max_bins n_na_bins (members m' : list Z) ws :
  sample_exemplars draws max_bins n_na_bins members = Some (m', ws) ->
  length m' = length members.
Proof.
  unfold sample_exemplars. destruct (_ <? _)%N.
  - destruct (sample_loop _ _ _ _ _) as [d|] eqn:E; simpl; [|done].
    intros [= <- <-]. apply sample_loop_length in E. by rewrite E, length_replicate.
  - by intros [= <- <-].
Qed.

Lemma group_0d_length dt (d : list Z) : length (Dispatch.group_0d dt d) = length d.
Proof.
  unfold Dispatch.group_0d. destruct (Dispatch.columns dt); [done|].
  apply foldl_preserves_length. intros d' i. apply length_insert.
Qed.

Lemma group_1d_continuous_length c0 n_bins (d : list Z) :
  length (Binning.group_1d_continuous prec emax c0 n_bins d) = length d.
Proof.
  unfold Binning.group_1d_continuous. apply foldl_preserves_length.
  intros d' i. cbv zeta. destruct (Real.ISNA _); apply length_insert.
Qed.

Lemma group_2d_continuous_length c0 c1 nx ny (d : list Z) :
  length (Binning.group_2d_continuous prec emax c0 c1 nx ny d) = length d.
Proof.
  unfold Binning.group_2d_continuous. apply foldl_preserves_length.
  intros d' i. cbv zeta. destruct (negb _); apply length_insert.
Qed.

Lemma group_1d_length par dt (d : list Z) :
  length (Dispatch.group_1d prec emax par dt d) = length d.
Proof.
  unfold Dispatch.group_1d. destruct (Dispatch.contconvs _ _ _).
  - unfold Dispatch.group_1d_categorical. apply foldl_preserves_length.
    intros d' i. apply foldl_insert_length.
  - apply group_1d_continuous_length.
Qed.

Lemma group_2d_length par dt (d d' : list Z) :
  Dispatch.group_2d prec emax par dt d = inr d' -> length d' = length d.
Proof.
  unfold Dispatch.group_2d, Dispatch.group_2d_categorical, Dispatch.group_2d_mixed.
  intros H. repeat case_match; simplify_eq.
  - unfold Dispatch.group_2d_categorical_str. apply foldl_preserves_length.
    intros d1 i. apply foldl_preserves_length.
    intros d2 j. cbv zeta. destruct (negb _); apply length_insert.
  - unfold Dispatch.group_2d_mixed_str. apply foldl_preserves_length.
    intros d1 i. apply foldl_preserves_length.
    intros d2 j. cbv zeta. destruct (negb _); apply length_insert.
  - apply group_2d_continuous_length.
Qed.

Lemma grouping_length par env dt members sampler :
  (forall cs (d d' : list Z), Dispatch.nd_loop env cs d = inr d' -> length d' = length d) ->
  Dispatch.grouping prec emax par env dt = inr (members, sampler) ->
  length members = Dispatch.nrows dt.
Proof.
  intros Hnd. unfold Dispatch.grouping.
  assert (length (Dispatch.uninit env <$> seq 0 (Dispatch.nrows dt)) = Dispatch.nrows dt)
    as Hcol by (by rewrite length_fmap, length_seq).
  destruct (_ <=? _)%N.
  - destruct (length _ + length _)%nat as [|[|[|n]]].
    + intros [= <- <-]. by rewrite group_0d_length.
    + intros [= <- <-]. by rewrite group_1d_length.
    + destruct (Dispatch.group_2d _ _ _ _ _) as [e|d] eqn:E; [done|].
      intros [= <- <-]. apply group_2d_length in E. by rewrite E.
    + destruct (Dispatch.nd_loop _ _ _) as [e|d] eqn:E; [done|].
      intros [= <- <-]. apply Hnd in E. by rewrite E.
  - intros [= <- <-]. by rewrite group_0d_length.
Qed.

End LengthFacts.

(** ** Member counts on return from [aggregate] *)

Section AggregateCounts.
Variables prec emax : Z.

(** The sampler as [aggregate] runs it after the grouping. *)
Definition run_sampler (env : Dispatch.Env) (members : list Z) (sampler : option (N * N))
    : option (list Z * bool) :=
  match sampler with
  | Some (max_bins, n_na_bins) =>
      sample_exemplars (Dispatch.rand env) max_bins n_na_bins members
  | None => Some (members, false)
  end.

(** A call that returns has grouped, sampled and finalized. *)
Lemma aggregate_returned par env dt out out' :
  Dispatch.aggregate prec emax par env dt out = (out', Dispatch.Returned) ->
  exists members sampler m' ws,
    Dispatch.grouping prec emax par env dt = inr (members, sampler) /\
    run_sampler env members sampler = Some (m', ws) /\
    out' = {| Dispatch.dt_exemplars_in :=
                Some {| Dispatch.ex_rows := exemplar_indices (aggregate_exemplars ws m');
                        Dispatch.members_count := d_counts (aggregate_exemplars ws m') |};
              Dispatch.dt_members_in := Some (d_members (aggregate_exemplars ws m')) |}.
Proof.
  unfold Dispatch.aggregate. intros H.
  destruct (Dispatch.progress env Real.zero 0); [done|].
  destruct (Dispatch.grouping prec emax par env dt) as [e|[members sampler]]; [done|].
  exists members, sampler. unfold run_sampler.
  destruct sampler as [[max_bins n_na_bins]|].
  - destruct (sample_exemplars _ _ _ _) as [[m' ws]|]; [|done].
    destruct (Dispatch.progress env _ 1); [done|].
    exists m', ws. by simplify_eq.
  - destruct (Dispatch.progress env _ 1); [done|].
    exists members, false. by simplify_eq.
Qed.

(** C1.  On return from [aggregate], for every exemplar index [k] the
    value [members_count[k]] of the exemplars table is the number of
    rows [i] of the members table with [exemplar_id[i] = k].  A row
    whose [exemplar_id] is missing is counted under no [k], and an
    [exemplar_id] is missing only when the sampler has sampled.  The
    row count fits [int32_t], and the parallel loop of the N-D path
    keeps the length of the members column. *)
Theorem aggregate_members_count par env dt out out' ex ids :
  Z.of_nat (Dispatch.nrows dt) < 2 ^ 31 ->
  (forall cs (d d' : list Z), Dispatch.nd_loop env cs d = inr d' -> length d' = length d) ->
  Dispatch.aggregate prec emax par env dt out = (out', Dispatch.Returned) ->
  Dispatch.dt_exemplars_in out' = Some ex ->
  Dispatch.dt_members_in out' = Some ids ->
  length ids = Dispatch.nrows dt /\
  (forall k, (k < length (Dispatch.members_count ex))%nat ->
     Dispatch.members_count ex !! k = Some (Z.of_nat (count_rows (Z.of_nat k) ids))) /\
  (forall r k, ids !! r = Some NA_I4 -> ids !! r <> Some (Z.of_nat k)) /\
  ((exists r, ids !! r = Some NA_I4) ->
   exists members max_bins n_na_bins m',
     Dispatch.grouping prec emax par env dt = inr (members, Some (max_bins, n_na_bins)) /\
     sample_exemplars (Dispatch.rand env) max_bins n_na_bins members = Some (m', true)).
Proof.
  intros Hrows Hnd Hagg Hex Hids.
  apply aggregate_returned in Hagg as (members & sampler & m' & ws & Hg & Hs & Hout).
  rewrite Hout in Hex, Hids.
  cbn [Dispatch.dt_exemplars_in Dispatch.dt_members_in] in Hex, Hids.
  assert (ex = {| Dispatch.ex_rows := exemplar_indices (aggregate_exemplars ws m');
                  Dispatch.members_count := d_counts (aggregate_exemplars ws m') |})
    as -> by congruence.
  assert (ids = d_members (aggregate_exemplars ws m')) as -> by congruence.
  clear Hex Hids Hout.
  pose proof (grouping_length prec emax par env dt members sampler Hnd Hg) as Hlen.
  assert (length m' = length members) as Hlen'.
  { destruct sampler as [[mb nna]|]; simpl in Hs.
    - by eapply sample_exemplars_length.
    - by simplify_eq. }
  split_and!.
  - by rewrite aggregate_exemplars_length, Hlen', Hlen.
  - intros k Hk. cbn [Dispatch.members_count] in *.
    destruct sampler as [[mb nna]|]; simpl in Hs.
    + apply (finalize_counts members ltac:(lia) (Dispatch.rand env) mb nna); [|done|done].
      destruct (grouping_n_na_bins prec emax _ _ _ _ _ _ Hg) as [-> | [-> | ->]]; lia.
    + simplify_eq. apply aggregate_exemplars_counts; [lia|done|done].
  - intros r k Hr. rewrite Hr. unfold NA_I4, INT32_MIN. intros [= H]. lia.
  - intros [r Hr].
    assert (ws = true) as ->.
    { destruct ws; [done|]. exfalso.
      assert (r < length m')%nat as Hlt.
      { apply lookup_lt_Some in Hr. by rewrite aggregate_exemplars_length in Hr. }
      destruct (groups_of_cover Z.leb Z.eqb m' r Hlt) as (i & rows & Hi & Hin).
      rewrite (aggregate_exemplars_lookup m' ltac:(lia) false i rows r Hi Hin) in Hr.
      simpl in Hr. unfold NA_I4, INT32_MIN in Hr. simplify_eq. lia. }
    destruct sampler as [[mb nna]|]; simpl in Hs; [|by simplify_eq].
    by exists members, mb, nna, m'.
Qed.

End AggregateCounts.

(** A table of one string column with four distinct values, binned
    into two bins: the sampler keeps two of the four groups. *)
Definition sampled_table : Dispatch.DataTable :=
  {| Dispatch.columns :=
       [ {| Dispatch.stype := Dispatch.STR32;
            Dispatch.cells :=
              [Dispatch.CellStr "b"; Dispatch.CellStr "a"; Dispatch.CellStr "d";
               Dispatch.CellStr "c"; Dispatch.CellStr "a"] |} ] |}.

Definition sampled_params : Dispatch.Params :=
  {| Dispatch.min_rows := 1; Dispatch.n_bins := 2; Dispatch.nx_bins := 2;
     Dispatch.ny_bins := 2; Dispatch.nd_max_bins := 2; Dispatch.max_dimensions := 5 |}.

Definition sampled_env : Dispatch.Env :=
  {| Dispatch.progress_fn := None;
     Dispatch.rand := [0; 2]%nat;
     Dispatch.uninit := fun _ => 0;
     Dispatch.nd_loop := fun _ d => inr d |}.

Definition no_outputs : Dispatch.Outputs :=
  {| Dispatch.dt_exemplars_in := None; Dispatch.dt_members_in := None |}.

Definition sampled_outputs : Dispatch.Outputs :=
  {| Dispatch.dt_exemplars_in :=
       Some {| Dispatch.ex_rows := [1; 3]; Dispatch.members_count := [2; 1] |};
     Dispatch.dt_members_in := Some [NA_I4; 0; NA_I4; 1; 0] |}.

Lemma aggregate_members_count_witness :
  Z.of_nat (Dispatch.nrows sampled_table) < 2 ^ 31 /\
  Dispatch.aggregate 53 1024 sampled_params sampled_env sampled_table no_outputs
  = (sampled_outputs, Dispatch.Returned) /\
  forall k, (k < 2)%nat ->
    [2; 1] !! k = Some (Z.of_nat (count_rows (Z.of_nat k) [NA_I4; 0; NA_I4; 1; 0])).
Proof.
  assert (Z.of_nat (Dispatch.nrows sampled_table) < 2 ^ 31) as H1
    by (vm_compute; reflexivity).
  assert (forall cs (d d' : list Z),
            Dispatch.nd_loop sampled_env cs d = inr d' -> length d' = length d) as H2
    by (intros cs d d' [= <-]; reflexivity).
  assert (Dispatch.aggregate 53 1024 sampled_params sampled_env sampled_table no_outputs
          = (sampled_outputs, Dispatch.Returned)) as H3
    by (vm_compute; reflexivity).
  refine (conj H1 (conj H3 _)).
  exact (proj1 (proj2 (aggregate_members_count 53 1024 sampled_params sampled_env
                         sampled_table no_outputs sampled_outputs _ _
                         H1 H2 H3 eq_refl eq_refl))).
Defined.

(** ** The finalizer preserves and reflects the groups of retained rows *)

Section FinalIds.
Variable members : list Z.
Hypothesis Hlen : Z.of_nat (length members) < 2 ^ 31.

Local Abbreviation gs := (groups_of Z.leb Z.eqb members).

(** Without sampling, two rows get the same id exactly when they had
    the same value. *)
Lemma unsampled_ids_iff i j :
  (i < length members)%nat -> (j < length members)%nat ->
  d_members (aggregate_exemplars false members) !! i
  = d_members (aggregate_exemplars false members) !! j
  <-> members !! i = members !! j.
Proof.
  intros Hi Hj.
  destruct (groups_of_cover Z.leb Z.eqb members i Hi) as (a & ra & Ha & Hia).
  destruct (groups_of_cover Z.leb Z.eqb members j Hj) as (b & rb & Hb & Hjb).
  rewrite (aggregate_exemplars_lookup members Hlen false a ra i Ha Hia).
  rewrite (aggregate_exemplars_lookup members Hlen false b rb j Hb Hjb).
  simpl. rewrite (group_i4_key_iff members a b ra rb i j Ha Hb Hia Hjb).
  split; [intros [= H]; lia|by intros ->].
Qed.

Lemma unsampled_ids_not_na i :
  (i < length members)%nat ->
  d_members (aggregate_exemplars false members) !! i <> Some NA_I4.
Proof.
  intros Hi.
  destruct (groups_of_cover Z.leb Z.eqb members i Hi) as (a & ra & Ha & Hia).
  rewrite (aggregate_exemplars_lookup members Hlen false a ra i Ha Hia).
  simpl. unfold NA_I4, INT32_MIN. intros [= H]. lia.
Qed.

(** After the sampler, a retained row has the value of another row
    exactly when both rows were in the same group before. *)
Lemma selected_eq_iff sel (d : list Z) i j :
  selected members sel d ->
  (i < length members)%nat -> (j < length members)%nat ->
  d !! i <> Some NA_I4 ->
  (d !! i = d !! j <-> members !! i = members !! j).
Proof.
  intros (Hnd & Hin & Hd & Hrows) Hi Hj Hna.
  destruct (groups_of_cover Z.leb Z.eqb members i Hi) as (a & ra & Ha & Hia).
  destruct (groups_of_cover Z.leb Z.eqb members j Hj) as (b & rb & Hb & Hjb).
  destruct (Hrows a ra i Ha Hia) as [Hsa Hna'].
  destruct (Hrows b rb j Hb Hjb) as [Hsb Hnb].
  destruct (decide (a ∈ sel)) as [Hasel|Hasel]; [|by specialize (Hna' Hasel)].
  apply list_elem_of_lookup in Hasel as [k Hk].
  rewrite (group_i4_key_iff members a b ra rb i j Ha Hb Hia Hjb).
  rewrite (Hsa k Hk). split.
  - intros Heq. destruct (decide (b ∈ sel)) as [Hbsel|Hbsel].
    + apply list_elem_of_lookup in Hbsel as [k' Hk'].
      rewrite (Hsb k' Hk') in Heq. assert (k = k') as -> by (simplify_eq; lia).
      congruence.
    + rewrite (Hnb Hbsel) in Heq. unfold NA_I4, INT32_MIN in Heq. simplify_eq. lia.
  - intros <-. symmetry. by apply Hsb.
Qed.

End FinalIds.

Section FinalIdsSampled.
Variable m : list Z.
Hypothesis Hlen : Z.of_nat (length m) < 2 ^ 31.
Hypothesis Hna : exists r0, m !! r0 = Some NA_I4.
Hypothesis Hmin : Forall (fun x => NA_I4 <= x) m.

Local Abbreviation gs := (groups_of Z.leb Z.eqb m).

(** A missing row is in the first group. *)
Lemma na_row_first a ra r :
  gs !! a = Some ra -> r ∈ ra -> m !! r = Some NA_I4 -> a = 0%nat.
Proof.
  intros Ha Hr Hr'.
  pose proof (groups_of_nonempty Z.leb Z.eqb m) as Hne.
  destruct gs as [|r0s gs'] eqn:E; [done|].
  inversion Hne as [|? ? Hr0 _]; subst.
  destruct r0s as [|r1 r0s]; [done|].
  assert (groups_of Z.leb Z.eqb m !! 0%nat = Some (r1 :: r0s)) as H0 by (by rewrite E).
  rewrite <- E in Ha.
  apply (group_i4_key_iff m a 0 ra (r1 :: r0s) r r1 Ha H0 Hr); [by left|].
  rewrite Hr'. symmetry. apply (na_group_first m (r1 :: r0s) r1 Hna Hmin H0). by left.
Qed.

(** With group [0] skipped, a row that gets an id gets the id of another
    row exactly when both rows had the same value. *)
Lemma sampled_ids_iff i j :
  (i < length m)%nat -> (j < length m)%nat ->
  d_members (aggregate_exemplars true m) !! i <> Some NA_I4 ->
  (d_members (aggregate_exemplars true m) !! i = d_members (aggregate_exemplars true m) !! j
   <-> m !! i = m !! j) /\ m !! i <> Some NA_I4.
Proof.
  intros Hi Hj.
  destruct (groups_of_cover Z.leb Z.eqb m i Hi) as (a & ra & Ha & Hia).
  destruct (groups_of_cover Z.leb Z.eqb m j Hj) as (b & rb & Hb & Hjb).
  rewrite (aggregate_exemplars_lookup m Hlen true a ra i Ha Hia).
  rewrite (aggregate_exemplars_lookup m Hlen true b rb j Hb Hjb).
  simpl. intros Hret.
  destruct (decide (1 <= a)%nat) as [Ha1|Ha1].
  - assert (m !! i <> Some NA_I4) as Hmi.
    { intros Hmi. apply (na_row_first a ra i Ha Hia) in Hmi. lia. }
    split; [|done].
    rewrite (group_i4_key_iff m a b ra rb i j Ha Hb Hia Hjb).
    destruct (decide (1 <= b)%nat) as [Hb1|Hb1].
    + split; [intros [= H]; lia|by intros ->].
    + assert (b = 0%nat) as -> by lia.
      rewrite (na_group_first m rb j Hna Hmin Hb Hjb).
      split; [|lia].
      unfold NA_I4, INT32_MIN. intros [= H]. lia.
  - assert (a = 0%nat) as -> by lia.
    by rewrite (na_group_first m ra i Hna Hmin Ha Hia) in Hret.
Qed.

End FinalIdsSampled.

(** The sampler and the finalizer together. *)
Lemma finalize_ids_iff (members : list Z) draws max_bins n_na_bins m' ws i j :
  Z.of_nat (length members) < 2 ^ 31 ->
  (n_na_bins <= 3)%N ->
  sample_exemplars draws max_bins n_na_bins members = Some (m', ws) ->
  (i < length members)%nat -> (j < length members)%nat ->
  d_members (aggregate_exemplars ws m') !! i <> Some NA_I4 ->
  (d_members (aggregate_exemplars ws m') !! i = d_members (aggregate_exemplars ws m') !! j
   <-> members !! i = members !! j).
Proof.
  intros Hlen Hna Hs Hi Hj Hret. unfold sample_exemplars in Hs.
  destruct (N.ltb_spec (size_add max_bins n_na_bins) (N.of_nat (ngroups (group_i4 members))))
    as [Hlt|Hge].
  - destruct (sample_loop _ _ _ _ _) as [d'|] eqn:Hloop; simpl in Hs; [|done].
    injection Hs as <- <-.
    rewrite ngroups_i4 in Hlt.
    pose proof (ngroups_le members) as Hle. rewrite ngroups_i4 in Hle.
    destruct (sample_loop_spec members Hlen max_bins draws []
                (replicate (length members) NA_I4) d')
      as (sel & Hsel & Hsel_len).
    + lia.
    + apply selected_init.
    + simpl. lia.
    + exact Hloop.
    + pose proof (selected_length members _ _ Hsel) as Hsl.
      pose proof Hsel as (_ & _ & Hd & _).
      assert (length sel < length (groups_of Z.leb Z.eqb members))%nat as Hstrict.
      { unfold size_add, SIZE_MOD in Hlt.
        destruct (N.lt_ge_cases (max_bins + n_na_bins) (2 ^ 64)) as [Hsmall|Hbig].
        - rewrite N.mod_small in Hlt by done. lia.
        - assert (2 ^ 31 < 2 ^ 64 - 3)%N by (vm_compute; reflexivity).
          assert (Z.of_nat (length sel) < 2 ^ 31) by lia.
          assert (2 ^ 64 - 3 <= max_bins)%N by lia.
          assert (2 ^ 31 = Z.of_N (2 ^ 31)%N) by (vm_compute; reflexivity).
          lia. }
      destruct (selected_column members sel d' Hsel Hstrict) as [Hex Hmin].
      destruct (sampled_ids_iff d' ltac:(by rewrite Hd) Hex Hmin i j
                  ltac:(by rewrite Hd) ltac:(by rewrite Hd) Hret) as [Hiff Hdi].
      rewrite Hiff. by apply (selected_eq_iff members sel d').
  - injection Hs as <- <-. by apply unsampled_ids_iff.
Qed.

(** ** The 1-D continuous path *)

Section OneDim.
Variables prec emax : Z.

(** A loop that writes cell [k] at step [k]. *)
Lemma foldl_cells_lookup (step : list Z -> nat -> list Z) (v : nat -> Z) n (d : list Z) i :
  (forall d k, step d k = <[k := v k]> d) ->
  (i < n)%nat -> (n <= length d)%nat ->
  foldl step d (seq 0 n) !! i = Some (v i).
Proof.
  intros Hstep. induction n as [|n IH]; intros Hi Hn; [lia|].
  rewrite seq_S, foldl_app. simpl. rewrite Hstep.
  destruct (decide (i = n)) as [->|Hne].
  - apply list_lookup_insert_eq. rewrite foldl_preserves_length; [lia|].
    intros d' k. by rewrite Hstep, length_insert.
  - rewrite list_lookup_insert_ne by done. apply IH; lia.
Qed.

Lemma group_1d_continuous_lookup c0 n_bins (d : list Z) i :
  length d = Binning.get_nrows c0 -> (i < Binning.get_nrows c0)%nat ->
  Binning.group_1d_continuous prec emax c0 n_bins d !! i
  = Some (if Real.ISNA (Binning.get_value c0 i) then NA_I4
          else Binning.bin_id prec emax
                 (Binning.set_norm_coeffs prec emax (Binning.cc_min c0) (Binning.cc_max c0)
                    n_bins)
                 (Binning.get_value c0 i)).
Proof.
  intros Hd Hi. unfold Binning.group_1d_continuous.
  apply (foldl_cells_lookup _
           (fun i => if Real.ISNA (Binning.get_value c0 i) then NA_I4
                     else Binning.bin_id prec emax _ (Binning.get_value c0 i)));
    [|done|lia].
  intros d' k. cbv zeta. by destruct (Real.ISNA _).
Qed.

(** C2, amended.  In the 1-D continuous path, for two rows whose values
    are not missing and at least one of which keeps an [exemplar_id]
    (as both do whenever the sampler does not sample), the final
    [exemplar_id]s are equal exactly when the bin ids
    [static_cast<int32_t>(norm_factor * x + norm_shift)] are equal.  The
    row count fits [int32_t]. *)
Theorem bins_reflected c0 n_bins (col0 : list Z) draws m' ws i j :
  length col0 = Binning.get_nrows c0 ->
  Z.of_nat (Binning.get_nrows c0) < 2 ^ 31 ->
  sample_exemplars draws n_bins 1
    (Binning.group_1d_continuous prec emax c0 n_bins col0) = Some (m', ws) ->
  (i < Binning.get_nrows c0)%nat -> (j < Binning.get_nrows c0)%nat ->
  Real.ISNA (Binning.get_value c0 i) = false ->
  Real.ISNA (Binning.get_value c0 j) = false ->
  (ws = false \/
   d_members (aggregate_exemplars ws m') !! i <> Some NA_I4 \/
   d_members (aggregate_exemplars ws m') !! j <> Some NA_I4) ->
  (d_members (aggregate_exemplars ws m') !! i = d_members (aggregate_exemplars ws m') !! j
   <->
   Binning.bin_id prec emax
     (Binning.set_norm_coeffs prec emax (Binning.cc_min c0) (Binning.cc_max c0) n_bins)
     (Binning.get_value c0 i)
   = Binning.bin_id prec emax
       (Binning.set_norm_coeffs prec emax (Binning.cc_min c0) (Binning.cc_max c0) n_bins)
       (Binning.get_value c0 j)).
Proof.
  intros Hcol Hrows Hs Hi Hj Hxi Hxj Hret.
  set (members := Binning.group_1d_continuous prec emax c0 n_bins col0) in *.
  assert (length members = Binning.get_nrows c0) as Hlen.
  { unfold members. by rewrite group_1d_continuous_length. }
  assert (members !! i = members !! j <->
          Binning.bin_id prec emax
            (Binning.set_norm_coeffs prec emax (Binning.cc_min c0) (Binning.cc_max c0) n_bins)
            (Binning.get_value c0 i)
          = Binning.bin_id prec emax
              (Binning.set_norm_coeffs prec emax (Binning.cc_min c0) (Binning.cc_max c0)
                 n_bins)
              (Binning.get_value c0 j)) as Hbins.
  { unfold members. rewrite !group_1d_continuous_lookup by done.
    rewrite Hxi, Hxj. split; [by intros [= ->]|by intros ->]. }
  rewrite <- Hbins.
  assert (forall a b,
            (a < length members)%nat -> (b < length members)%nat ->
            d_members (aggregate_exemplars ws m') !! a <> Some NA_I4 ->
            (d_members (aggregate_exemplars ws m') !! a
             = d_members (aggregate_exemplars ws m') !! b
             <-> members !! a = members !! b)) as Hfin.
  { intros a b Ha Hb Hra.
    apply (finalize_ids_iff members draws n_bins 1 m' ws a b); try done; lia. }
  destruct Hret as [-> | [Hri | Hrj]].
  - apply Hfin; [lia|lia|].
    assert (m' = members) as ->.
    { unfold sample_exemplars in Hs. destruct (_ <? _)%N.
      - destruct (sample_loop _ _ _ _ _); simpl in Hs; congruence.
      - congruence. }
    apply unsampled_ids_not_na; lia.
  - apply Hfin; [lia|lia|done].
  - split; intros H; symmetry; apply (Hfin j i); try done; lia.
Qed.

End OneDim.

(** The column [0, 1, ..., 9] in five bins: the scenario of the
    specification. *)
Definition ten_rows : Binning.ColumnConvertor :=
  Dispatch.make_convertor 53 1024
    {| Dispatch.stype := Dispatch.INT32;
       Dispatch.cells := Dispatch.CellInt <$> [0; 1; 2; 3; 4; 5; 6; 7; 8; 9] |}.

Lemma bins_reflected_witness :
  sample_exemplars [] 5 1 (Binning.group_1d_continuous 53 1024 ten_rows 5 (replicate 10 0))
  = Some ([0; 0; 1; 1; 2; 2; 3; 3; 4; 4], false) /\
  (d_members (aggregate_exemplars false [0; 0; 1; 1; 2; 2; 3; 3; 4; 4]) !! 0%nat
   = d_members (aggregate_exemplars false [0; 0; 1; 1; 2; 2; 3; 3; 4; 4]) !! 1%nat
   <->
   Binning.bin_id 53 1024
     (Binning.set_norm_coeffs 53 1024 (Binning.cc_min ten_rows) (Binning.cc_max ten_rows) 5)
     (Binning.get_value ten_rows 0)
   = Binning.bin_id 53 1024
       (Binning.set_norm_coeffs 53 1024 (Binning.cc_min ten_rows) (Binning.cc_max ten_rows) 5)
       (Binning.get_value ten_rows 1)).
Proof.
  assert (sample_exemplars [] 5 1
            (Binning.group_1d_continuous 53 1024 ten_rows 5 (replicate 10 0))
          = Some ([0; 0; 1; 1; 2; 2; 3; 3; 4; 4], false)) as Hs
    by (vm_compute; reflexivity).
  split; [exact Hs|].
  apply (bins_reflected 53 1024 ten_rows 5 (replicate 10 0) []
           [0; 0; 1; 1; 2; 2; 3; 3; 4; 4] false 0 1).
  - vm_compute; reflexivity.
  - vm_compute; reflexivity.
  - exact Hs.
  - vm_compute; lia.
  - vm_compute; lia.
  - vm_compute; reflexivity.
  - vm_compute; reflexivity.
  - left; reflexivity.
Defined.

(** Three rows [10^16], [10^16 + 2] and a missing value, in one bin.
    The rounding of [norm_factor * x] puts the second row in bin [1], so
    that there are three groups and the sampler keeps one of them. *)
Definition wide_table : Dispatch.DataTable :=
  {| Dispatch.columns :=
       [ {| Dispatch.stype := Dispatch.FLOAT64;
            Dispatch.cells :=
              [Dispatch.CellReal (Real.of_Z 53 1024 10000000000000000);
               Dispatch.CellReal (Real.of_Z 53 1024 10000000000000002);
               Dispatch.CellNA] |} ] |}.

Definition wide_column : Binning.ColumnConvertor :=
  Dispatch.make_convertor 53 1024
    {| Dispatch.stype := Dispatch.FLOAT64;
       Dispatch.cells :=
         [Dispatch.CellReal (Real.of_Z 53 1024 10000000000000000);
          Dispatch.CellReal (Real.of_Z 53 1024 10000000000000002);
          Dispatch.CellNA] |}.

Definition one_bin : Dispatch.Params :=
  {| Dispatch.min_rows := 1; Dispatch.n_bins := 1; Dispatch.nx_bins := 1;
     Dispatch.ny_bins := 1; Dispatch.nd_max_bins := 1; Dispatch.max_dimensions := 5 |}.

Definition first_draw_zero : Dispatch.Env :=
  {| Dispatch.progress_fn := None;
     Dispatch.rand := [0]%nat;
     Dispatch.uninit := fun _ => 0;
     Dispatch.nd_loop := fun _ d => inr d |}.

(** The claim C2 as it is stated fails on [wide_table]: the rows [0] and
    [1] have values that are not missing and different bin ids, [0] and
    [1]; the sampler selects the group of the missing row, and both rows
    are left with the same, missing, [exemplar_id]. *)
Lemma bins_reflected_counterexample :
  Dispatch.aggregate 53 1024 one_bin first_draw_zero wide_table no_outputs
  = ({| Dispatch.dt_exemplars_in :=
          Some {| Dispatch.ex_rows := [2]; Dispatch.members_count := [1] |};
        Dispatch.dt_members_in := Some [NA_I4; NA_I4; 0] |}, Dispatch.Returned) /\
  Binning.group_1d_continuous 53 1024 wide_column 1 [0; 0; 0] = [0; 1; NA_I4] /\
  sample_exemplars [0]%nat 1 1 [0; 1; NA_I4] = Some ([NA_I4; NA_I4; 0], true) /\
  Real.ISNA (Binning.get_value wide_column 0) = false /\
  Real.ISNA (Binning.get_value wide_column 1) = false /\
  ~ (d_members (aggregate_exemplars true [NA_I4; NA_I4; 0]) !! 0%nat
     = d_members (aggregate_exemplars true [NA_I4; NA_I4; 0]) !! 1%nat
     <->
     Binning.bin_id 53 1024
       (Binning.set_norm_coeffs 53 1024 (Binning.cc_min wide_column)
          (Binning.cc_max wide_column) 1)
       (Binning.get_value wide_column 0)
     = Binning.bin_id 53 1024
         (Binning.set_norm_coeffs 53 1024 (Binning.cc_min wide_column)
            (Binning.cc_max wide_column) 1)
         (Binning.get_value wide_column 1)).
Proof.
  split_and!; try (vm_compute; reflexivity).
  assert (d_members (aggregate_exemplars true [NA_I4; NA_I4; 0]) !! 0%nat
          = d_members (aggregate_exemplars true [NA_I4; NA_I4; 0]) !! 1%nat) as Hids
    by (vm_compute; reflexivity).
  assert (Binning.bin_id 53 1024
            (Binning.set_norm_coeffs 53 1024 (Binning.cc_min wide_column)
               (Binning.cc_max wide_column) 1)
            (Binning.get_value wide_column 0) = 0) as H0 by (vm_compute; reflexivity).
  assert (Binning.bin_id 53 1024
            (Binning.set_norm_coeffs 53 1024 (Binning.cc_min wide_column)
               (Binning.cc_max wide_column) 1)
            (Binning.get_value wide_column 1) = 1) as H1 by (vm_compute; reflexivity).
  rewrite H0, H1. intros [Hiff _]. specialize (Hiff Hids). discriminate Hiff.
Qed.

(** ** The 2-D continuous path *)

Section TwoDim.
Variables prec emax : Z.

(** What the loop of [group_2d_continuous] writes for a row with a
    missing value: [-1] when only the first value is missing, [-2] when
    only the second is, [-3] when both are. *)
Lemma group_2d_continuous_na_case c0 c1 nx ny (d : list Z) i :
  length d = Binning.get_nrows c0 -> (i < Binning.get_nrows c0)%nat ->
  Real.ISNA (Binning.get_value c0 i) || Real.ISNA (Binning.get_value c1 i) = true ->
  Binning.group_2d_continuous prec emax c0 c1 nx ny d !! i
  = Some (- (Z.b2z (Real.ISNA (Binning.get_value c0 i))
             + 2 * Z.b2z (Real.ISNA (Binning.get_value c1 i)))).
Proof.
  intros Hd Hi Hna. unfold Binning.group_2d_continuous.
  set (v := fun i =>
         let na_case := Z.b2z (Real.ISNA (Binning.get_value c0 i))
                        + 2 * Z.b2z (Real.ISNA (Binning.get_value c1 i)) in
         if negb (na_case =? 0) then - na_case
         else to_int32
                (Binning.bin_id prec emax
                   (Binning.set_norm_coeffs prec emax (Binning.cc_min c1) (Binning.cc_max c1) ny)
                   (Binning.get_value c1 i) * to_int32 (Z.of_N nx)
                 + Binning.bin_id prec emax
                     (Binning.set_norm_coeffs prec emax (Binning.cc_min c0)
                        (Binning.cc_max c0) nx)
                     (Binning.get_value c0 i))).
  rewrite (foldl_cells_lookup _ v); [|by intros d' k; unfold v; cbv zeta; destruct (negb _)
                                     |done|lia].
  unfold v. cbv zeta.
  destruct (Real.ISNA (Binning.get_value c0 i)), (Real.ISNA (Binning.get_value c1 i));
    simpl in *; done.
Qed.

End TwoDim.

(** The scenario of the specification: the rows [(1, 1)], [(NA, 2)],
    [(3, NA)] and [(NA, NA)] in two by two bins. *)
Definition four_rows : Dispatch.DataTable :=
  {| Dispatch.columns :=
       [ {| Dispatch.stype := Dispatch.FLOAT64;
            Dispatch.cells :=
              [Dispatch.CellReal (Real.of_Z 53 1024 1); Dispatch.CellNA;
               Dispatch.CellReal (Real.of_Z 53 1024 3); Dispatch.CellNA] |};
         {| Dispatch.stype := Dispatch.FLOAT64;
            Dispatch.cells :=
              [Dispatch.CellReal (Real.of_Z 53 1024 1);
               Dispatch.CellReal (Real.of_Z 53 1024 2);
               Dispatch.CellNA; Dispatch.CellNA] |} ] |}.

(** C3.  The members column of the 2-D continuous path before the
    finalizer, on [four_rows]: the row [(3, NA)], a value and a missing
    value, is written [-2], and the row [(NA, 2)] is written [-1]; the
    claim and the comment above [group_2d] have [-1] and [-2]. *)
Theorem group_2d_continuous_sentinels :
  Dispatch.grouping 53 1024 sampled_params sampled_env four_rows
  = inr ([0; -1; -2; -3], Some (4%N, 3%N)) /\
  Binning.group_2d_continuous 53 1024
    (Dispatch.make_convertor 53 1024 (Dispatch.columns four_rows !!! 0%nat))
    (Dispatch.make_convertor 53 1024 (Dispatch.columns four_rows !!! 1%nat))
    2 2 [0; 0; 0; 0] !! 2%nat = Some (-2).
Proof. split; vm_compute; reflexivity. Qed.

(** ** Floating-point arithmetic *)

Section FloatFacts.
Variables prec emax : Z.

Lemma SFcompare_antisym x y :
  SFcompare y x = CompOpp <$> SFcompare x y.
Proof.
  destruct x as [sx|sx| |sx mx ex], y as [sy|sy| |sy my ey]; simpl;
    try destruct sx; try destruct sy; simpl; try reflexivity;
    rewrite (Z.compare_antisym ey ex); destruct (ey ?= ex); simpl; try reflexivity;
    rewrite (Pos.compare_cont_antisym mx my Eq); reflexivity.
Qed.

Lemma SFleb_not_gt x y : SFleb x y = true -> SFltb y x = false.
Proof.
  unfold SFleb, SFltb. rewrite (SFcompare_antisym x y).
  destruct (SFcompare x y) as [[]|]; simpl; done.
Qed.

Lemma SFltb_asym x y : SFltb x y = true -> SFltb y x = false.
Proof.
  unfold SFltb. rewrite (SFcompare_antisym x y).
  destruct (SFcompare x y) as [[]|]; simpl; done.
Qed.

(** The sign of a rounded result is the sign that was asked for. *)
Lemma binary_round_aux_opp s m e l :
  binary_round_aux prec emax (negb s) m e l = SFopp (binary_round_aux prec emax s m e l).
Proof.
  unfold binary_round_aux.
  destruct (shr_fexp prec emax m e l) as [mrs' e'].
  destruct (shr_fexp prec emax _ e' loc_Exact) as [mrs'' e''].
  destruct (shr_m mrs''); simpl; try reflexivity.
  by destruct (e'' <=? emax - prec).
Qed.

Lemma binary_round_opp s m e :
  binary_round prec emax (negb s) m e = SFopp (binary_round prec emax s m e).
Proof.
  unfold binary_round. destruct (shl_align _ _ _). apply binary_round_aux_opp.
Qed.

Lemma binary_normalize_opp z e :
  z <> 0 ->
  binary_normalize prec emax (- z) e false = SFopp (binary_normalize prec emax z e false).
Proof.
  destruct z as [|p|p]; intros Hz; [done| |]; simpl.
  - apply (binary_round_opp false).
  - apply (binary_round_opp true).
Qed.

Lemma SFsub_swap a b :
  SFsub prec emax b a = SFopp (SFsub prec emax a b)
  \/ SFsub prec emax b a = SFsub prec emax a b.
Proof.
  destruct a as [sa|sa| |sa ma ea], b as [sb|sb| |sb mb eb];
    try (destruct sa, sb; simpl; auto; fail);
    try (destruct sa; simpl; auto; fail);
    try (destruct sb; simpl; auto; fail); simpl; auto.
  rewrite (Z.min_comm eb ea).
  set (za := cond_Zopp sa (Z.pos (shl_align ma ea (Z.min ea eb)).1)).
  set (zb := cond_Zopp sb (Z.pos (shl_align mb eb (Z.min ea eb)).1)).
  destruct (decide (za - zb = 0)) as [Hz|Hz].
  - right. replace (zb - za) with 0 by lia. by rewrite Hz.
  - left. replace (zb - za) with (- (za - zb)) by lia. by apply binary_normalize_opp.
Qed.

Lemma SFmul_opp x : SFmul prec emax (SFopp x) (SFopp x) = SFmul prec emax x x.
Proof. destruct x as [s|s| |s m e]; simpl; try reflexivity; by destruct s. Qed.

Lemma square_sym a b :
  SFmul prec emax (SFsub prec emax a b) (SFsub prec emax a b)
  = SFmul prec emax (SFsub prec emax b a) (SFsub prec emax b a).
Proof.
  destruct (SFsub_swap a b) as [-> | ->]; [|done]. by rewrite SFmul_opp.
Qed.

(** *** Results that are not NaN *)

Lemma shr_1_nonneg mrs : 0 <= shr_m mrs -> 0 <= shr_m (shr_1 mrs).
Proof. destruct mrs as [[|[p|p|]|p] r s]; simpl; lia. Qed.

Lemma iter_shr_1_nonneg p mrs : 0 <= shr_m mrs -> 0 <= shr_m (SpecFloat.iter_pos shr_1 p mrs).
Proof.
  revert mrs. induction p as [p IH|p IH|]; intros mrs H; simpl.
  - by apply IH, IH, shr_1_nonneg.
  - by apply IH, IH.
  - by apply shr_1_nonneg.
Qed.

Lemma shr_fexp_nonneg m e l : 0 <= m -> 0 <= shr_m (shr_fexp prec emax m e l).1.
Proof.
  intros H. unfold shr_fexp, shr.
  assert (0 <= shr_m (shr_record_of_loc m l)) as H' by (by destruct l as [|[]]).
  destruct (fexp prec emax (Zdigits2 m + e) - e); simpl; [done| |done].
  by apply iter_shr_1_nonneg.
Qed.

Lemma round_nearest_even_nonneg m l : 0 <= m -> 0 <= round_nearest_even m l.
Proof. intros H. destruct l as [|[]]; simpl; try lia. destruct (Z.even m); lia. Qed.

Lemma binary_round_aux_signed s m e l :
  0 <= m -> signed s (binary_round_aux prec emax s m e l) = true.
Proof.
  intros H. unfold binary_round_aux.
  pose proof (shr_fexp_nonneg m e l H) as H1.
  destruct (shr_fexp prec emax m e l) as [mrs' e']. simpl in H1.
  pose proof (shr_fexp_nonneg _ e' loc_Exact
                (round_nearest_even_nonneg _ (loc_of_shr_record mrs') H1)) as H2.
  destruct (shr_fexp prec emax _ e' loc_Exact) as [mrs'' e'']. simpl in H2.
  destruct (shr_m mrs''); simpl; [by destruct s| |lia].
  destruct (e'' <=? emax - prec); simpl; by destruct s.
Qed.

Lemma binary_round_signed s m e : signed s (binary_round prec emax s m e) = true.
Proof.
  unfold binary_round. destruct (shl_align _ _ _). by apply binary_round_aux_signed.
Qed.

Lemma signed_nonneg x : signed false x = true -> nonneg x = true.
Proof. by destruct x as [[]|[]| |[] m e]. Qed.

Lemma binary_normalize_nonneg z e : 0 <= z -> nonneg (binary_normalize prec emax z e false) = true.
Proof.
  destruct z as [|p|p]; intros Hz; simpl; [done| |lia].
  apply signed_nonneg, binary_round_signed.
Qed.

Lemma binary_normalize_number z e :
  binary_normalize prec emax z e false <> S754_nan.
Proof.
  destruct z as [|p|p]; simpl; [done| |].
  - pose proof (binary_round_signed false p e). by destruct (binary_round _ _ _ _ _).
  - pose proof (binary_round_signed true p e). by destruct (binary_round _ _ _ _ _).
Qed.

(** The square of a difference of two finite numbers. *)
Lemma square_nonneg a b :
  finite a = true -> finite b = true ->
  nonneg (SFmul prec emax (SFsub prec emax a b) (SFsub prec emax a b)) = true.
Proof.
  intros Ha Hb.
  assert (SFsub prec emax a b <> S754_nan) as Hn.
  { destruct a as [sa|sa| |sa ma ea], b as [sb|sb| |sb mb eb]; try done; simpl.
    - by destruct sa, sb.
    - apply binary_normalize_number. }
  destruct (SFsub prec emax a b) as [s|s| |s m e]; simpl; try done.
  - by destruct s.
  - by destruct s.
  - apply signed_nonneg. replace (xorb s s) with false by (by destruct s).
    by apply (binary_round_aux_signed false).
Qed.

Lemma add_nonneg x y :
  nonneg x = true -> nonneg y = true -> nonneg (SFadd prec emax x y) = true.
Proof.
  destruct x as [[]|[]| |[] mx ex], y as [[]|[]| |[] my ey]; simpl; try done.
  intros _ _. apply signed_nonneg, binary_round_signed.
Qed.

Lemma mul_nonneg x y :
  nonneg x = true -> positive_finite y = true -> nonneg (SFmul prec emax x y) = true.
Proof.
  destruct x as [[]|[]| |[] mx ex], y as [[]|[]| |[] my ey]; simpl; try done.
  intros _ _. apply signed_nonneg. by apply (binary_round_aux_signed false).
Qed.

Lemma div_nonneg x y :
  nonneg x = true -> positive_finite y = true -> nonneg (SFdiv prec emax x y) = true.
Proof.
  destruct x as [[]|[]| |[] mx ex], y as [[]|[]| |[] my ey]; simpl; try done.
  intros _ _. unfold SFdiv_core_binary.
  set (m' := match _ - _ - _ with Z0 => _ | Z.pos _ => _ | Z.neg _ => _ end).
  assert (0 <= m') as Hm'.
  { unfold m'. destruct (_ - _ - _); try lia. apply Z.shiftl_nonneg. lia. }
  pose proof (Z_div_mod m' (Z.pos my) ltac:(lia)) as Hdiv.
  destruct (Z.div_eucl m' (Z.pos my)) as [q r].
  apply signed_nonneg, (binary_round_aux_signed false). nia.
Qed.

Lemma nonneg_eqb x : nonneg x = true -> SFeqb x x = true.
Proof.
  destruct x as [[]|[]| |[] m e]; simpl; try done. intros _.
  unfold SFeqb. simpl. by rewrite Z.compare_refl, Pos.compare_cont_refl.
Qed.

(** *** The conversion of a positive integer *)

Lemma digits2_pos_size p : digits2_pos p = Pos.size p.
Proof. induction p as [p IH|p IH|]; simpl; by rewrite ?IH. Qed.

Lemma Zdigits2_log2 p : Zdigits2 (Z.pos p) = Z.log2 (Z.pos p) + 1.
Proof.
  simpl. rewrite digits2_pos_size. destruct p as [p|p|]; simpl; try reflexivity; lia.
Qed.

Lemma shr_1_div2 mrs : 0 <= shr_m mrs -> shr_m (shr_1 mrs) = Z.div2 (shr_m mrs).
Proof. destruct mrs as [[|[p|p|]|p] r s]; simpl; intros H; try reflexivity; lia. Qed.

Lemma iter_shr_1_shiftr p mrs :
  0 <= shr_m mrs ->
  shr_m (SpecFloat.iter_pos shr_1 p mrs) = Z.shiftr (shr_m mrs) (Z.pos p).
Proof.
  revert mrs. induction p as [p IH|p IH|]; intros mrs H; simpl SpecFloat.iter_pos.
  - rewrite IH, IH, shr_1_div2, Z.div2_spec by auto using iter_shr_1_nonneg, shr_1_nonneg.
    rewrite !Z.shiftr_shiftr by lia. f_equal. lia.
  - rewrite IH, IH by auto using iter_shr_1_nonneg.
    rewrite !Z.shiftr_shiftr by lia. f_equal. lia.
  - rewrite shr_1_div2, Z.div2_spec by done. done.
Qed.

Lemma shr_fexp_exact m e :
  0 < m ->
  let n := fexp prec emax (Zdigits2 m + e) - e in
  shr_m (shr_fexp prec emax m e loc_Exact).1 = Z.shiftr m (Z.max 0 n) /\
  (shr_fexp prec emax m e loc_Exact).2 = e + Z.max 0 n.
Proof.
  intros Hm n. unfold shr_fexp, shr. fold n.
  destruct n as [|p|p] eqn:E; simpl.
  - split; [done|lia].
  - rewrite iter_shr_1_shiftr by (simpl; lia). simpl. split; [done|lia].
  - split; [done|lia].
Qed.

Lemma iter_xO_shiftl p k : Z.pos (Pos.iter xO p k) = Z.shiftl (Z.pos p) (Z.pos k).
Proof.
  simpl. by apply (Pos.iter_swap_gen _ _ Z.pos xO (Z.mul 2)).
Qed.

(** A mantissa of at least [prec] digits, far from the ends of the
    exponent range, rounds to a finite number. *)
Lemma binary_round_aux_finite m e :
  0 < prec -> 0 < m ->
  prec <= Zdigits2 m ->
  emin prec emax <= Zdigits2 m + e - prec ->
  Zdigits2 m + e + 1 <= emax ->
  positive_finite (binary_round_aux prec emax false m e loc_Exact) = true.
Proof.
  intros Hprec Hm Hd Hmin Hmax. unfold binary_round_aux.
  destruct (shr_fexp_exact m e Hm) as [Hm1 He1].
  destruct (shr_fexp prec emax m e loc_Exact) as [mrs' e']. simpl in Hm1, He1.
  assert (fexp prec emax (Zdigits2 m + e) = Zdigits2 m + e - prec) as Hfexp
    by (unfold fexp; lia).
  rewrite Hfexp in Hm1, He1.
  replace (Z.max 0 (Zdigits2 m + e - prec - e)) with (Zdigits2 m - prec) in * by lia.
  destruct m as [|p|p]; try lia.
  rewrite Zdigits2_log2 in *.
  assert (Z.log2 (shr_m mrs') = prec - 1) as Hlog1.
  { rewrite Hm1, Z.log2_shiftr by lia. lia. }
  assert (0 < shr_m mrs') as Hpos1.
  { assert (0 <= shr_m mrs') by (rewrite Hm1; apply Z.shiftr_nonneg; lia).
    assert (shr_m mrs' <> 0); [|lia].
    rewrite Hm1. intros H0. apply Z.shiftr_eq_0_iff in H0 as [H0|[_ H0]]; lia. }
  set (m2 := round_nearest_even (shr_m mrs') (loc_of_shr_record mrs')).
  assert (shr_m mrs' <= m2 <= shr_m mrs' + 1) as Hm2.
  { unfold m2. destruct (loc_of_shr_record mrs') as [|[]]; simpl; try lia.
    destruct (Z.even _); lia. }
  assert (0 < m2) as Hpos2 by lia.
  destruct (shr_fexp_exact m2 e' Hpos2) as [Hm3 He3].
  destruct (shr_fexp prec emax m2 e' loc_Exact) as [mrs'' e'']. simpl in Hm3, He3.
  destruct m2 as [|p2|p2] eqn:Em2; try lia.
  rewrite Zdigits2_log2 in *.
  assert (prec - 1 <= Z.log2 (Z.pos p2) <= prec) as Hlog2.
  { split.
    - rewrite <- Hlog1. apply Z.log2_le_mono. lia.
    - destruct (Z.log2_spec (shr_m mrs') Hpos1) as [_ Hup].
      rewrite Hlog1 in Hup. replace (Z.succ (prec - 1)) with prec in Hup by lia.
      destruct (Z.log2_spec (Z.pos p2) ltac:(lia)) as [Hlo _].
      apply Z.nlt_ge. intros Hgt.
      assert (2 ^ (prec + 1) <= 2 ^ Z.log2 (Z.pos p2)) by (apply Z.pow_le_mono_r; lia).
      assert (2 ^ (prec + 1) = 2 * 2 ^ prec) by (rewrite Z.pow_add_r by lia; lia).
      lia. }
  assert (fexp prec emax (Z.log2 (Z.pos p2) + 1 + e') = Z.log2 (Z.pos p2) + 1 + e' - prec)
    as Hfexp2 by (unfold fexp; lia).
  rewrite Hfexp2 in Hm3, He3.
  replace (Z.max 0 (Z.log2 (Z.pos p2) + 1 + e' - prec - e'))
    with (Z.log2 (Z.pos p2) + 1 - prec) in * by lia.
  assert (0 < shr_m mrs'') as Hpos3.
  { assert (0 <= shr_m mrs'') by (rewrite Hm3; apply Z.shiftr_nonneg; lia).
    assert (shr_m mrs'' <> 0); [|lia].
    rewrite Hm3. intros H0. apply Z.shiftr_eq_0_iff in H0 as [H0|[_ H0]]; lia. }
  destruct (shr_m mrs''); try lia.
  destruct (Z.leb_spec e'' (emax - prec)); [done|lia].
Qed.

Lemma of_Z_positive_finite z :
  0 < prec < emax -> 65 <= emax ->
  0 < z < 2 ^ 64 ->
  positive_finite (binary_normalize prec emax z 0 false) = true.
Proof.
  intros Hprec Hemax Hz. destruct z as [|p|p]; try lia. simpl.
  unfold binary_round.
  assert (Zdigits2 (Z.pos p) <= 64) as Hd.
  { rewrite Zdigits2_log2. 
    assert (Z.log2 (Z.pos p) < 64) by (apply Z.log2_lt_pow2; lia). lia. }
  assert (1 <= Zdigits2 (Z.pos p)) as Hd1.
  { rewrite Zdigits2_log2. pose proof (Z.log2_nonneg (Z.pos p)). lia. }
  change (Z.pos (digits2_pos p)) with (Zdigits2 (Z.pos p)).
  assert (fexp prec emax (Zdigits2 (Z.pos p) + 0) = Zdigits2 (Z.pos p) - prec) as ->
    by (unfold fexp, emin; lia).
  unfold shl_align.
  destruct (Zdigits2 (Z.pos p) - prec - 0) as [|k|k] eqn:Ek.
  - apply binary_round_aux_finite; unfold emin; lia.
  - apply binary_round_aux_finite; unfold emin; lia.
  - assert (Zdigits2 (Z.pos (Pos.iter xO p k)) = prec) as Hdz.
    { rewrite Zdigits2_log2, iter_xO_shiftl, Z.log2_shiftl by lia.
      rewrite Zdigits2_log2 in Ek. lia. }
    apply binary_round_aux_finite; rewrite ?Hdz; unfold emin; lia.
Qed.

End FloatFacts.

(** ** The distance kernel *)

Section DistanceFacts.
Variables prec emax : Z.

Lemma distance_loop_sym early_exit delta e1 e2 dims sum n :
  Distance.distance_loop prec emax early_exit delta e1 e2 dims sum n
  = Distance.distance_loop prec emax early_exit delta e2 e1 dims sum n.
Proof.
  revert sum n. induction dims as [|i dims IH]; intros sum n; simpl; [done|].
  rewrite (orb_comm (Real.ISNA (e2 !!! i))).
  destruct (Real.ISNA (e1 !!! i) || Real.ISNA (e2 !!! i)); [done|].
  unfold Real.mul, Real.sub. rewrite (square_sym prec emax (e2 !!! i) (e1 !!! i)).
  destruct (early_exit && _); [done|]. apply IH.
Qed.

(** The kernel is symmetric, bit for bit. *)
Lemma calculate_distance_sym e1 e2 ndims delta early_exit :
  Distance.calculate_distance prec emax e1 e2 ndims delta early_exit
  = Distance.calculate_distance prec emax e2 e1 ndims delta early_exit.
Proof. unfold Distance.calculate_distance. by rewrite distance_loop_sym. Qed.

Lemma used_finite x : Real.ISNA x = false -> coordinate x = true -> finite x = true.
Proof. by destruct x. Qed.

Lemma distance_loop_inv early_exit delta e1 e2 dims sum n :
  nonneg sum = true -> 0 <= n -> n + Z.of_nat (length dims) < 2 ^ 31 ->
  (forall i, i ∈ dims -> coordinate (e1 !!! i) = true /\ coordinate (e2 !!! i) = true) ->
  match Distance.distance_loop prec emax early_exit delta e1 e2 dims sum n with
  | inl s => nonneg s = true
  | inr (s, n') =>
      nonneg s = true /\ n <= n' <= n + Z.of_nat (length dims) /\
      ((exists i, i ∈ dims /\ Real.ISNA (e1 !!! i) = false /\ Real.ISNA (e2 !!! i) = false)
       -> n < n')
  end.
Proof.
  revert sum n. induction dims as [|i dims IH]; intros sum n Hsum Hn Hlen Hc; simpl.
  - split_and!; [done|lia|lia|]. intros (i & Hi & _). inversion Hi.
  - simpl in Hlen.
    destruct (Hc i ltac:(by left)) as [Hc1 Hc2].
    assert (forall j, j ∈ dims ->
              coordinate (e1 !!! j) = true /\ coordinate (e2 !!! j) = true) as Hc'.
    { intros j Hj. apply Hc. by right. }
    destruct (Real.ISNA (e1 !!! i)) eqn:E1; simpl.
    { specialize (IH sum n Hsum Hn ltac:(lia) Hc').
      destruct (Distance.distance_loop _ _ _ _ _ _ _ _ _) as [s|[s n']]; [done|].
      destruct IH as (H1 & H2 & H3). split_and!; [done|lia|lia|].
      intros (j & Hj & Hj1 & Hj2). apply H3.
      apply elem_of_cons in Hj as [->|Hj]; [congruence|]. by exists j. }
    destruct (Real.ISNA (e2 !!! i)) eqn:E2; simpl.
    { specialize (IH sum n Hsum Hn ltac:(lia) Hc').
      destruct (Distance.distance_loop _ _ _ _ _ _ _ _ _) as [s|[s n']]; [done|].
      destruct IH as (H1 & H2 & H3). split_and!; [done|lia|lia|].
      intros (j & Hj & Hj1 & Hj2). apply H3.
      apply elem_of_cons in Hj as [->|Hj]; [congruence|]. by exists j. }
    rewrite to_int32_small by (unfold INT32_MIN, INT32_MAX; lia).
    set (sum' := Real.add prec emax sum _).
    assert (nonneg sum' = true) as Hsum'.
    { apply add_nonneg; [done|]. apply square_nonneg; by apply used_finite. }
    destruct (early_exit && Real.gtb sum' delta); [done|].
    specialize (IH sum' (n + 1) Hsum' ltac:(lia) ltac:(lia) Hc').
    destruct (Distance.distance_loop _ _ _ _ _ _ _ _ _) as [s|[s n']]; [done|].
    destruct IH as (H1 & H2 & H3). split_and!; [done|lia|lia|]. intros _. lia.
Qed.

Lemma sub_diag x : finite x = true -> SFsub prec emax x x = S754_zero false.
Proof.
  destruct x as [[]| | |s m e]; simpl; try done. intros _.
  by rewrite Z.sub_diag.
Qed.

Lemma distance_loop_self early_exit delta x dims n :
  (forall i, i ∈ dims -> coordinate (x !!! i) = true) ->
  match Distance.distance_loop prec emax early_exit delta x x dims Real.zero n with
  | inl s => s = Real.zero
  | inr (s, _) => s = Real.zero
  end.
Proof.
  revert n. induction dims as [|i dims IH]; intros n Hc; simpl; [done|].
  assert (forall j, j ∈ dims -> coordinate (x !!! j) = true) as Hc'.
  { intros j Hj. apply Hc. by right. }
  rewrite orb_diag. destruct (Real.ISNA (x !!! i)) eqn:E; [by apply IH|].
  unfold Real.sub. rewrite sub_diag by (apply used_finite; [done|apply Hc; by left]).
  change (Real.add prec emax Real.zero
            (Real.mul prec emax (S754_zero false) (S754_zero false))) with Real.zero.
  destruct (early_exit && _); [done|]. by apply IH.
Qed.

Lemma ieee_format_bounds : ieee_format prec emax -> 0 < prec < emax /\ 65 <= emax.
Proof. intros [[-> ->]|[-> ->]]; lia. Qed.

Lemma calculate_distance_nonneg e1 e2 ndims delta early_exit :
  ieee_format prec emax ->
  Z.of_nat ndims < 2 ^ 31 ->
  Forall (fun x => coordinate x = true) e1 -> Forall (fun x => coordinate x = true) e2 ->
  (exists i, (i < ndims)%nat /\ Real.ISNA (e1 !!! i) = false /\ Real.ISNA (e2 !!! i) = false) ->
  nonneg (Distance.calculate_distance prec emax e1 e2 ndims delta early_exit) = true.
Proof.
  intros Hf Hnd H1 H2 (i & Hi & Hi1 & Hi2).
  destruct (ieee_format_bounds Hf) as [Hprec Hemax].
  unfold Distance.calculate_distance.
  assert (forall l (j : nat), Forall (fun x => coordinate x = true) l ->
            coordinate (l !!! j) = true) as Hlk.
  { intros l j Hl. destruct (decide (j < length l)%nat) as [Hj|Hj].
    - by apply (Forall_lookup_total_1 (fun x => coordinate x = true)).
    - by rewrite list_lookup_total_alt, lookup_ge_None_2 by lia. }
  pose proof (distance_loop_inv early_exit delta e1 e2 (seq 0 ndims) Real.zero 0
                eq_refl ltac:(lia) ltac:(rewrite length_seq; lia)
                ltac:(intros j _; split; by apply Hlk)) as Hinv.
  destruct (Distance.distance_loop _ _ _ _ _ _ _ _ _) as [s|[s n']]; [done|].
  destruct Hinv as (Hs & Hn & Hpos). rewrite length_seq in Hn.
  specialize (Hpos ltac:(exists i; split; [apply elem_of_seq; lia|done])).
  assert (2 ^ 31 < 2 ^ 64) by (vm_compute; reflexivity).
  apply div_nonneg; [apply mul_nonneg; [done|]|].
  - apply of_Z_positive_finite; lia.
  - apply of_Z_positive_finite; lia.
Qed.

Lemma calculate_distance_self x ndims delta early_exit :
  ieee_format prec emax ->
  Z.of_nat ndims < 2 ^ 31 ->
  Forall (fun x => coordinate x = true) x ->
  (exists i, (i < ndims)%nat /\ Real.ISNA (x !!! i) = false) ->
  Distance.calculate_distance prec emax x x ndims delta early_exit = Real.zero.
Proof.
  intros Hf Hnd Hx (i & Hi & Hi1).
  destruct (ieee_format_bounds Hf) as [Hprec Hemax].
  unfold Distance.calculate_distance.
  assert (forall (j : nat), coordinate (x !!! j) = true) as Hlk.
  { intros j. destruct (decide (j < length x)%nat) as [Hj|Hj].
    - by apply (Forall_lookup_total_1 (fun x => coordinate x = true)).
    - by rewrite list_lookup_total_alt, lookup_ge_None_2 by lia. }
  pose proof (distance_loop_inv early_exit delta x x (seq 0 ndims) Real.zero 0
                eq_refl ltac:(lia) ltac:(rewrite length_seq; lia)
                ltac:(intros j _; split; by apply Hlk)) as Hinv.
  pose proof (distance_loop_self early_exit delta x (seq 0 ndims) 0
                ltac:(intros j _; apply Hlk)) as Hself.
  destruct (Distance.distance_loop _ _ _ _ _ _ _ _ _) as [s|[s n']]; [done|].
  destruct Hinv as (Hs & Hn & Hpos). rewrite length_seq in Hn. subst s.
  specialize (Hpos ltac:(exists i; split; [apply elem_of_seq; lia|done])).
  assert (2 ^ 31 < 2 ^ 64) by (vm_compute; reflexivity).
  pose proof (of_Z_positive_finite prec emax (Z.of_nat ndims) Hprec Hemax ltac:(lia)) as HD.
  pose proof (of_Z_positive_finite prec emax n' Hprec Hemax ltac:(lia)) as HN.
  unfold Real.of_Z, Real.div, Real.mul.
  destruct (binary_normalize prec emax (Z.of_nat ndims) 0 false) as [| | |[] mD eD]; try done.
  destruct (binary_normalize prec emax n' 0 false) as [| | |[] mN eN]; try done.
Qed.

End DistanceFacts.

(** C8, amended.  For [T] float or double, for all coordinate vectors
    [x], [y] of length [ndims] whose components are numbers or missing,
    none infinite, with an index at which both are not missing, and for
    every [delta], with and without early exit: [distance(x, y) ==
    distance(y, x)] and [distance(x, x) == 0].  The two distances are
    the same value bit for bit.  [ndims] fits [int32_t], the type of the
    counter [n]. *)
Theorem calculate_distance_round_trip prec emax (x y : list spec_float) ndims delta
    early_exit :
  ieee_format prec emax ->
  length x = ndims -> length y = ndims -> Z.of_nat ndims < 2 ^ 31 ->
  Forall (fun c => coordinate c = true) x ->
  Forall (fun c => coordinate c = true) y ->
  (exists i, (i < ndims)%nat /\ Real.ISNA (x !!! i) = false /\ Real.ISNA (y !!! i) = false) ->
  Distance.calculate_distance prec emax x y ndims delta early_exit
  = Distance.calculate_distance prec emax y x ndims delta early_exit /\
  Real.eqb (Distance.calculate_distance prec emax x y ndims delta early_exit)
           (Distance.calculate_distance prec emax y x ndims delta early_exit) = true /\
  Real.eqb (Distance.calculate_distance prec emax x x ndims delta early_exit)
           Real.zero = true.
Proof.
  intros Hf Hx Hy Hnd Hcx Hcy Hex. split_and!.
  - apply calculate_distance_sym.
  - rewrite (calculate_distance_sym prec emax y x). apply nonneg_eqb.
    by apply calculate_distance_nonneg.
  - rewrite calculate_distance_self; try done.
    destruct Hex as (i & Hi & Hxi & _). by exists i.
Qed.

Lemma calculate_distance_round_trip_witness :
  Real.eqb
    (Distance.calculate_distance 53 1024
       [Real.of_Z 53 1024 1; S754_nan; Real.of_Z 53 1024 3]
       [Real.of_Z 53 1024 2; Real.of_Z 53 1024 5; S754_nan] 3 (Real.epsilon 53 1024) true)
    (Distance.calculate_distance 53 1024
       [Real.of_Z 53 1024 2; Real.of_Z 53 1024 5; S754_nan]
       [Real.of_Z 53 1024 1; S754_nan; Real.of_Z 53 1024 3] 3 (Real.epsilon 53 1024) true)
  = true.
Proof.
  apply (calculate_distance_round_trip 53 1024
           [Real.of_Z 53 1024 1; S754_nan; Real.of_Z 53 1024 3]
           [Real.of_Z 53 1024 2; Real.of_Z 53 1024 5; S754_nan] 3
           (Real.epsilon 53 1024) true).
  - right. split; reflexivity.
  - reflexivity.
  - reflexivity.
  - vm_compute; reflexivity.
  - repeat constructor.
  - repeat constructor.
  - exists 0%nat. split; [lia|]. split; reflexivity.
Defined.

(** The claim C8 as it is stated fails at an infinite coordinate: the
    difference of the infinity with itself is a NaN, and so is the
    distance, which is equal to nothing. *)
Lemma calculate_distance_round_trip_counterexample :
  (exists i, (i < 1)%nat /\ Real.ISNA ([S754_infinity false] !!! i) = false) /\
  Real.eqb
    (Distance.calculate_distance 53 1024 [S754_infinity false] [S754_infinity false] 1
       (Real.epsilon 53 1024) false)
    Real.zero = false /\
  Real.eqb
    (Distance.calculate_distance 53 1024 [S754_infinity false] [S754_infinity false] 1
       (Real.epsilon 53 1024) true)
    Real.zero = false /\
  Real.eqb
    (Distance.calculate_distance 53 1024 [S754_infinity false] [S754_infinity false] 1
       (Real.epsilon 53 1024) true)
    (Distance.calculate_distance 53 1024 [S754_infinity false] [S754_infinity false] 1
       (Real.epsilon 53 1024) true) = false.
Proof.
  split_and!; try (vm_compute; reflexivity).
  exists 0%nat. split; [lia|reflexivity].
Qed.

(** ** The normalizer on a constant column *)

Section Normalizer.
Variables prec emax : Z.

Lemma mul_positive_nonneg x y :
  positive_finite x = true -> nonneg y = true -> nonneg (SFmul prec emax x y) = true.
Proof.
  destruct x as [[]|[]| |[] mx ex], y as [[]|[]| |[] my ey]; simpl; try done.
  intros _ _. apply signed_nonneg. by apply (binary_round_aux_signed prec emax false).
Qed.

Lemma add_zero_nonneg s x :
  nonneg x = true -> SFadd prec emax (S754_zero s) x = x.
Proof. by destruct s, x as [[]|[]| |[] m e]. Qed.

(** With [|c_max - c_min| <= epsilon], both bounds and every value
    between them are finite. *)
Lemma constant_column_finite c_min c_max v :
  ieee_format prec emax ->
  SFleb (Real.fabs (Real.sub prec emax c_max c_min)) (Real.epsilon prec emax) = true ->
  SFleb c_min v = true -> SFleb v c_max = true ->
  finite v = true.
Proof.
  intros Hf Hle Hmin Hmax.
  assert (positive_finite (Real.epsilon prec emax) = true) as Heps
    by (destruct Hf as [[-> ->]|[-> ->]]; reflexivity).
  assert (finite c_min = true /\ finite c_max = true) as [Hfmin Hfmax].
  { unfold Real.fabs, Real.sub in Hle.
    destruct (Real.epsilon prec emax) as [| | |[] me ee]; try done.
    destruct c_min as [[]|[]| |[] mm em], c_max as [[]|[]| |[] mM eM]; try done. }
  destruct c_min as [sm|sm| |sm mm em]; try done;
    destruct c_max as [sM|sM| |sM mM eM]; try done;
    destruct v as [sv|[]| |sv mv ev]; try done; by destruct sm, sM.
Qed.

(** C6.  For [T] float or double, for every column with
    [|c_max - c_min| <= epsilon] and every bin count [c_bins],
    [set_norm_coeffs] gives [norm_factor = 0] and
    [norm_shift = 0.5 * c_bins]; every value of the column that is not
    missing, that is every number between [c_min] and [c_max],
    normalizes to [0.5 * c_bins] exactly. *)
Theorem set_norm_coeffs_constant c_min c_max (c_bins : N) :
  ieee_format prec emax ->
  SFleb (Real.fabs (Real.sub prec emax c_max c_min)) (Real.epsilon prec emax) = true ->
  Binning.set_norm_coeffs prec emax c_min c_max c_bins
  = (Real.zero, Real.mul prec emax (Real.half prec emax) (Real.of_Z prec emax (Z.of_N c_bins)))
  /\
  forall v, Real.ISNA v = false -> SFleb c_min v = true -> SFleb v c_max = true ->
    Binning.normalize prec emax (Binning.set_norm_coeffs prec emax c_min c_max c_bins) v
    = Real.mul prec emax (Real.half prec emax) (Real.of_Z prec emax (Z.of_N c_bins)).
Proof.
  intros Hf Hle.
  assert (Binning.set_norm_coeffs prec emax c_min c_max c_bins
          = (Real.zero,
             Real.mul prec emax (Real.half prec emax) (Real.of_Z prec emax (Z.of_N c_bins))))
    as Hcoeffs.
  { unfold Binning.set_norm_coeffs, Real.gtb. by rewrite (SFleb_not_gt _ _ Hle). }
  split; [done|].
  intros v Hv Hmin Hmax. rewrite Hcoeffs. unfold Binning.normalize. cbn [fst snd].
  pose proof (constant_column_finite c_min c_max v Hf Hle Hmin Hmax) as Hfin.
  assert (nonneg (Real.mul prec emax (Real.half prec emax)
                    (Real.of_Z prec emax (Z.of_N c_bins))) = true) as Hs.
  { apply mul_positive_nonneg.
    - destruct Hf as [[-> ->]|[-> ->]]; reflexivity.
    - apply binary_normalize_nonneg. lia. }
  unfold Real.add. unfold Real.mul at 1, Real.zero.
  destruct v as [sv| | |sv mv ev]; try done; simpl SFmul; by apply add_zero_nonneg.
Qed.

End Normalizer.

Lemma set_norm_coeffs_constant_witness :
  Binning.normalize 53 1024
    (Binning.set_norm_coeffs 53 1024 (Real.of_Z 53 1024 7) (Real.of_Z 53 1024 7) 10)
    (Real.of_Z 53 1024 7)
  = Real.of_Z 53 1024 5.
Proof.
  assert (Real.mul 53 1024 (Real.half 53 1024) (Real.of_Z 53 1024 (Z.of_N 10))
          = Real.of_Z 53 1024 5) as <- by (vm_compute; reflexivity).
  apply (set_norm_coeffs_constant 53 1024 (Real.of_Z 53 1024 7) (Real.of_Z 53 1024 7) 10).
  - right. split; reflexivity.
  - vm_compute; reflexivity.
  - reflexivity.
  - vm_compute; reflexivity.
  - vm_compute; reflexivity.
Defined.

(** ** The modular path over the exemplars *)

Section PathFacts.

Lemma N2Z_gcd (a b : N) : Z.of_N (N.gcd a b) = Z.gcd (Z.of_N a) (Z.of_N b).
Proof. destruct a as [|p], b as [|q]; simpl; try reflexivity. Qed.

Lemma modular_injective (n c e0 : N) (k1 k2 : nat) :
  N.gcd c n = 1%N -> (N.of_nat k1 < n)%N -> (N.of_nat k2 < n)%N ->
  ((N.of_nat k1 * c + e0) mod n = (N.of_nat k2 * c + e0) mod n)%N ->
  k1 = k2.
Proof.
  intros Hgcd H1 H2 Heq.
  assert (0 < Z.of_N n) as Hn by lia.
  apply (f_equal Z.of_N) in Heq. rewrite !N2Z.inj_mod in Heq.
  rewrite !N2Z.inj_add, !N2Z.inj_mul, !nat_N_Z in Heq.
  set (a := Z.of_nat k1 * Z.of_N c + Z.of_N e0) in *.
  set (b := Z.of_nat k2 * Z.of_N c + Z.of_N e0) in *.
  assert ((Z.of_N n | (Z.of_nat k1 - Z.of_nat k2) * Z.of_N c)) as Hdiv.
  { exists (a / Z.of_N n - b / Z.of_N n).
    pose proof (Z.div_mod a (Z.of_N n) ltac:(lia)).
    pose proof (Z.div_mod b (Z.of_N n) ltac:(lia)).
    unfold a, b in *. nia. }
  assert (Z.gcd (Z.of_N n) (Z.of_N c) = 1) as Hg.
  { rewrite Z.gcd_comm, <- N2Z_gcd, Hgcd. done. }
  rewrite Z.mul_comm in Hdiv.
  apply Z.gauss in Hdiv; [|done].
  destruct Hdiv as [q Hq].
  assert (q = 0) by nia. lia.
Qed.

Lemma modular_sequence_perm (n c e0 : N) :
  (1 <= n)%N -> N.gcd c n = 1%N ->
  NDim.modular_sequence n c e0 ≡ₚ N.of_nat <$> seq 0 (N.to_nat n).
Proof.
  intros Hn Hgcd. unfold NDim.modular_sequence.
  apply submseteq_length_Permutation.
  - apply NoDup_submseteq.
    + apply NoDup_fmap_2_strong; [|apply NoDup_seq].
      intros k1 k2 Hk1 Hk2 Heq. apply elem_of_seq in Hk1, Hk2.
      apply (modular_injective n c e0 k1 k2); try done; lia.
    + intros j Hj. apply list_elem_of_fmap in Hj as (k & -> & Hk).
      apply list_elem_of_fmap. 
      exists (N.to_nat ((N.of_nat k * c + e0) mod n)%N). split; [by rewrite N2Nat.id|].
      apply elem_of_seq.
      pose proof (N.mod_upper_bound (N.of_nat k * c + e0) n ltac:(lia)) as Hup.
      revert Hup. generalize ((N.of_nat k * c + e0) mod n)%N. intros j Hj. lia.
  - by rewrite !length_fmap.
Qed.

Lemma path_modular (n c e0 : N) :
  (n <= 2 ^ 32)%N -> (c <= n)%N -> (e0 < n)%N ->
  NDim.path n c e0 = NDim.modular_sequence n c e0.
Proof.
  intros Hn Hc He. unfold NDim.path, NDim.modular_sequence.
  apply list_fmap_ext. intros i k Hk. apply lookup_seq in Hk as [-> Hk]. simpl in *.
  unfold NDim.probe, size_add, size_mul, SIZE_MOD.
  assert (2 ^ 32 * 2 ^ 32 = 2 ^ 64)%N as H64 by (vm_compute; reflexivity).
  assert (N.of_nat i * c + e0 < 2 ^ 64)%N as Hsum by nia.
  rewrite (N.mod_small (N.of_nat i * c)) by nia.
  by rewrite (N.mod_small _ _ Hsum).
Qed.

Lemma calculate_coprimes_spec n c :
  (1 <= n)%N -> c ∈ NDim.calculate_coprimes n -> N.gcd c n = 1%N /\ (c <= n)%N.
Proof.
  intros Hn. unfold NDim.calculate_coprimes.
  destruct (N.eqb_spec n 1) as [->|Hne].
  - intros Hc. apply list_elem_of_singleton in Hc as ->. done.
  - intros Hc. apply list_elem_of_filter in Hc as [Hg Hc]. split; [done|].
    apply list_elem_of_fmap in Hc as (k & -> & Hk). apply elem_of_seq in Hk. lia.
Qed.

End PathFacts.

(** C7.  For every [n >= 1], every stride [c] with [gcd(c, n) = 1] and
    every offset [e0] in [[0, n)], the sequence
    [j_k = (k * c + e0) mod n], [k = 0, ..., n - 1], visits every
    element of [[0, n)] exactly once.  The path of [group_nd] over the
    exemplars, computed in [size_t], is this sequence when the products
    do not wrap ([n <= 2^32]; a stride of the coprime list is at most
    [n]), hence a permutation of the exemplar indices.  The strides of
    [calculate_coprimes] are coprime with [n]. *)
Theorem modular_path_complete (n c e0 : N) :
  (1 <= n)%N -> N.gcd c n = 1%N -> (e0 < n)%N ->
  NDim.modular_sequence n c e0 ≡ₚ N.of_nat <$> seq 0 (N.to_nat n) /\
  ((n <= 2 ^ 32)%N -> (c <= n)%N ->
   NDim.path n c e0 = NDim.modular_sequence n c e0 /\
   NDim.path n c e0 ≡ₚ N.of_nat <$> seq 0 (N.to_nat n)) /\
  (forall c', c' ∈ NDim.calculate_coprimes n -> N.gcd c' n = 1%N /\ (c' <= n)%N).
Proof.
  intros Hn Hgcd He. split_and!.
  - by apply modular_sequence_perm.
  - intros Hn' Hc. rewrite path_modular by done. split; [done|].
    by apply modular_sequence_perm.
  - intros c'. by apply calculate_coprimes_spec.
Qed.

Lemma modular_path_complete_witness :
  NDim.path 10 3 7 = [7; 0; 3; 6; 9; 2; 5; 8; 1; 4]%N /\
  NDim.path 10 3 7 ≡ₚ N.of_nat <$> seq 0 (N.to_nat 10).
Proof.
  split; [vm_compute; reflexivity|].
  apply (modular_path_complete 10 3 7); try (vm_compute; reflexivity).
  - vm_compute. discriminate.
  - vm_compute. discriminate.
  - vm_compute. discriminate.
Defined.

(** ** Exceptions of [aggregate] *)

Section AggregateRaises.
Variables prec emax : Z.

(** The two tables that [aggregate] assigns to the references of the
    caller. *)
Definition assigned (ws : bool) (m' : list Z) : Dispatch.Outputs :=
  {| Dispatch.dt_exemplars_in :=
       Some {| Dispatch.ex_rows := exemplar_indices (aggregate_exemplars ws m');
               Dispatch.members_count := d_counts (aggregate_exemplars ws m') |};
     Dispatch.dt_members_in := Some (d_members (aggregate_exemplars ws m')) |}.

(** C9, amended.  If [aggregate] exits by raising an exception before
    its last progress report, that is an exception of the first call of
    the progress callback, a schema error in a 2-D path or an exception
    captured in a worker and rethrown after the parallel N-D loop, the
    references [dt_exemplars_in] and [dt_members_in] of the caller are
    left as they were.  An exception raised by the last call of the
    progress callback, [progress(1.0, 1)], leaves both references
    assigned, to the complete tables. *)
Theorem aggregate_raises par env dt out out' e :
  Dispatch.aggregate prec emax par env dt out = (out', Dispatch.Raised e) ->
  (out' = out /\
   (Dispatch.progress env Real.zero 0 = Some e \/
    Dispatch.grouping prec emax par env dt = inl e))
  \/
  (Dispatch.progress env (Real.one 24 128) 1 = Some e /\
   exists members sampler m' ws,
     Dispatch.grouping prec emax par env dt = inr (members, sampler) /\
     run_sampler env members sampler = Some (m', ws) /\
     out' = assigned ws m').
Proof.
  unfold Dispatch.aggregate. intros H.
  destruct (Dispatch.progress env Real.zero 0) as [e0|] eqn:E0.
  { left. simplify_eq. auto. }
  destruct (Dispatch.grouping prec emax par env dt) as [e1|[members sampler]] eqn:E1.
  { left. simplify_eq. auto. }
  right.
  assert (match sampler with
          | Some (max_bins, n_na_bins) =>
              sample_exemplars (Dispatch.rand env) max_bins n_na_bins members
          | None => Some (members, false)
          end = run_sampler env members sampler) as Hrun by (by destruct sampler as [[]|]).
  rewrite Hrun in H.
  destruct (run_sampler env members sampler) as [[m' ws]|] eqn:E2; [|done].
  destruct (Dispatch.progress env (Real.one 24 128) 1) as [e2|] eqn:E3; [|done].
  injection H as <- <-. split; [done|]. by exists members, sampler, m', ws.
Qed.

(** The errors of the grouping step: a schema error of a 2-D path and
    the exception rethrown after the parallel loop. *)
Lemma grouping_raises par env dt e :
  Dispatch.grouping prec emax par env dt = inl e ->
  (exists d, Dispatch.group_2d prec emax par dt d = inl e) \/
  (exists cs d, Dispatch.nd_loop env cs d = inl e).
Proof.
  unfold Dispatch.grouping. destruct (_ <=? _)%N; [|done].
  destruct (length _ + length _)%nat as [|[|[|n]]]; try done.
  - destruct (Dispatch.group_2d _ _ _ _ _) eqn:E; [|done].
    intros [= <-]. left. by eexists.
  - destruct (Dispatch.nd_loop _ _ _) eqn:E; [|done].
    intros [= <-]. right. by do 2 eexists.
Qed.

End AggregateRaises.

(** A progress callback that raises when it is told that the work is
    done. *)
Definition raise_when_done : Dispatch.Env :=
  {| Dispatch.progress_fn :=
       Some (fun _ status_code => if status_code =? 1 then Some Dispatch.CallbackError
                                  else None);
     Dispatch.rand := [];
     Dispatch.uninit := fun _ => 0;
     Dispatch.nd_loop := fun _ d => inr d |}.

(** A table of a number column and a column of objects: the 2-D mixed
    path raises its schema error. *)
Definition mixed_table : Dispatch.DataTable :=
  {| Dispatch.columns :=
       [ {| Dispatch.stype := Dispatch.INT32;
            Dispatch.cells := [Dispatch.CellInt 1; Dispatch.CellInt 2] |};
         {| Dispatch.stype := Dispatch.OBJ;
            Dispatch.cells := [Dispatch.CellNA; Dispatch.CellNA] |} ] |}.

Lemma aggregate_raises_witness :
  Dispatch.aggregate 53 1024 sampled_params sampled_env mixed_table no_outputs
  = (no_outputs,
     Dispatch.Raised (Dispatch.ValueError
       "For 2D mixed aggretation, the categorical column type should be either STR32 or STR64"))
  /\
  (no_outputs = no_outputs /\
   (Dispatch.progress sampled_env Real.zero 0
    = Some (Dispatch.ValueError
       "For 2D mixed aggretation, the categorical column type should be either STR32 or STR64")
    \/
    Dispatch.grouping 53 1024 sampled_params sampled_env mixed_table
    = inl (Dispatch.ValueError
       "For 2D mixed aggretation, the categorical column type should be either STR32 or STR64"))
   \/
   (Dispatch.progress sampled_env (Real.one 24 128) 1
    = Some (Dispatch.ValueError
       "For 2D mixed aggretation, the categorical column type should be either STR32 or STR64")
    /\
    exists members sampler m' ws,
      Dispatch.grouping 53 1024 sampled_params sampled_env mixed_table
      = inr (members, sampler) /\
      run_sampler sampled_env members sampler = Some (m', ws) /\
      no_outputs = assigned ws m')).
Proof.
  assert (Dispatch.aggregate 53 1024 sampled_params sampled_env mixed_table no_outputs
          = (no_outputs,
             Dispatch.Raised (Dispatch.ValueError
               "For 2D mixed aggretation, the categorical column type should be either STR32 or STR64")))
    as H by (vm_compute; reflexivity).
  split; [exact H|].
  exact (aggregate_raises 53 1024 sampled_params sampled_env mixed_table no_outputs
           no_outputs _ H).
Defined.

(** The claim C9 as it is stated fails when the progress callback raises
    in the last call, [progress(1.0, 1)]: [aggregate] exits by the
    exception, and both references of the caller are assigned. *)
Lemma aggregate_raises_counterexample :
  Dispatch.aggregate 53 1024 sampled_params raise_when_done four_rows no_outputs
  = ({| Dispatch.dt_exemplars_in :=
          Some {| Dispatch.ex_rows := [3; 2; 1; 0];
                  Dispatch.members_count := [1; 1; 1; 1] |};
        Dispatch.dt_members_in := Some [3; 2; 1; 0] |},
     Dispatch.Raised Dispatch.CallbackError).
Proof. vm_compute; reflexivity. Qed.

(** ** The 0-D path *)

Section Ranks.
Variable m : list Z.
Hypothesis Hlen : Z.of_nat (length m) < 2 ^ 31.
Hypothesis Hperm : m ≡ₚ Z.of_nat <$> seq 0 (length m).

Local Abbreviation gs := (groups_of Z.leb Z.eqb m).










End Ranks.

Section ZeroDim.
Variables prec emax : Z.

(** A loop that writes cell [f j] at step [j], for distinct cells. *)
Lemma foldl_insert_distinct (f : nat -> nat) (v : nat -> Z) js (d : list Z) j :
  NoDup (f <$> js) -> j ∈ js -> (f j < length d)%nat ->
  foldl (fun d j => <[f j := v j]> d) d js !! f j = Some (v j).
Proof.
  revert d. induction js as [|j' js IH] using rev_ind; intros d Hnd Hj Hlt.
  - inversion Hj.
  - rewrite foldl_app. simpl.
    rewrite fmap_app in Hnd. apply NoDup_app in Hnd as (Hnd & Hdisj & _).
    apply elem_of_app in Hj as [Hj|Hj].
    + rewrite list_lookup_insert_ne.
      * by apply IH.
      * intros Heq. apply (Hdisj (f j)).
        -- apply list_elem_of_fmap. by exists j.
        -- rewrite <- Heq. simpl. by left.
    + apply list_elem_of_singleton in Hj as ->.
      apply list_lookup_insert_eq.
      rewrite foldl_preserves_length; [done|]. intros d' x. apply length_insert.
Qed.

Lemma list_as_lookups (l : list nat) : l = (fun p => l !!! p) <$> seq 0 (length l).
Proof.
  apply list_eq. intros i. rewrite list_lookup_fmap.
  destruct (decide (i < length l)%nat) as [Hi|Hi].
  - rewrite lookup_seq_lt by done. simpl.
    destruct (lookup_lt_is_Some_2 l i Hi) as [x Hx].
    by rewrite Hx, (list_lookup_total_correct _ _ _ Hx).
  - rewrite lookup_seq_ge by lia. simpl. apply lookup_ge_None. lia.
Qed.

(** [group_0d] writes its rank to every row. *)
Lemma group_0d_rank c0 rest (col0 : list Z) p r :
  length col0 = length (Dispatch.cells c0) ->
  Z.of_nat (length col0) < 2 ^ 31 ->
  ri (group (Dispatch.cell_leb true) Dispatch.cell_eqb (Dispatch.cells c0)) !! p = Some r ->
  Dispatch.group_0d {| Dispatch.columns := c0 :: rest |} col0 !! r = Some (Z.of_nat p).
Proof.
  intros Hcol Hlen Hp. unfold Dispatch.group_0d, Dispatch.nrows. simpl.
  set (g := group (Dispatch.cell_leb true) Dispatch.cell_eqb (Dispatch.cells c0)) in *.
  pose proof (group_ri_perm (Dispatch.cell_leb true) Dispatch.cell_eqb (Dispatch.cells c0))
    as Hperm. fold g in Hperm.
  pose proof (group_ri_length (Dispatch.cell_leb true) Dispatch.cell_eqb (Dispatch.cells c0))
    as Hrl. fold g in Hrl.
  pose proof (lookup_lt_Some _ _ _ Hp) as Hplt.
  rewrite <- (list_lookup_total_correct _ _ _ Hp).
  rewrite <- (to_int32_nat p) by lia.
  apply (foldl_insert_distinct (fun i => ri g !!! i) (fun i => to_int32 (Z.of_nat i))).
  - rewrite <- Hrl, <- list_as_lookups, Hperm. apply NoDup_seq.
  - apply elem_of_seq. lia.
  - rewrite (list_lookup_total_correct _ _ _ Hp).
    assert (r ∈ seq 0 (length (Dispatch.cells c0))) as Hr.
    { rewrite <- Hperm. by eapply list_elem_of_lookup_2. }
    apply elem_of_seq in Hr. lia.
Qed.


End ZeroDim.

Section ZeroDimTheorem.
Variables prec emax : Z.



End ZeroDimTheorem.






(** ** More on the distance kernel *)

Section DistanceEdges.
Variables prec emax : Z.

(** Without early exit the loop never returns early. *)
Lemma distance_loop_full delta e1 e2 dims sum n :
  exists s n', Distance.distance_loop prec emax false delta e1 e2 dims sum n = inr (s, n').
Proof.
  revert sum n. induction dims as [|i dims IH]; intros sum n; simpl; [by eauto|].
  destruct (_ || _); apply IH.
Qed.

(** A run with early exit returns early with a sum above [delta], or
    ends as the run without early exit does. *)
Lemma distance_loop_early delta e1 e2 dims sum n :
  match Distance.distance_loop prec emax true delta e1 e2 dims sum n with
  | inl s => Real.gtb s delta = true
  | inr r => Distance.distance_loop prec emax false delta e1 e2 dims sum n = inr r
  end.
Proof.
  revert sum n. induction dims as [|i dims IH]; intros sum n; simpl; [done|].
  destruct (_ || _); [apply IH|].
  destruct (Real.gtb _ delta) eqn:E; simpl; [done|apply IH].
Qed.

(** When no dimension is used the loop leaves the sum and the count. *)
Lemma distance_loop_skip early_exit delta e1 e2 dims sum n :
  (forall i, i ∈ dims -> Real.ISNA (e1 !!! i) || Real.ISNA (e2 !!! i) = true) ->
  Distance.distance_loop prec emax early_exit delta e1 e2 dims sum n = inr (sum, n).
Proof.
  revert sum n. induction dims as [|i dims IH]; intros sum n H; simpl; [done|].
  rewrite H by (by left). apply IH. intros j Hj. apply H. by right.
Qed.

(** X1.  [calculate_distance] of two vectors that have no dimension at
    which both are present: the loop adds nothing, [n] stays [0] and
    the result [0.0 * ndims / 0] is a NaN, with and without early
    exit; the test [distance < delta] of [group_nd] fails for every
    [delta]. *)
Theorem calculate_distance_no_common e1 e2 ndims delta early_exit :
  (forall i, (i < ndims)%nat -> Real.ISNA (e1 !!! i) || Real.ISNA (e2 !!! i) = true) ->
  Distance.calculate_distance prec emax e1 e2 ndims delta early_exit = S754_nan /\
  Real.ltb (Distance.calculate_distance prec emax e1 e2 ndims delta early_exit) delta
  = false.
Proof.
  intros H.
  assert (Distance.calculate_distance prec emax e1 e2 ndims delta early_exit = S754_nan)
    as ->; [|done].
  unfold Distance.calculate_distance.
  rewrite distance_loop_skip by (intros i Hi; apply H; apply elem_of_seq in Hi; lia).
  unfold Real.div, Real.mul, Real.of_Z, Real.zero. simpl.
  destruct (binary_normalize prec emax (Z.of_nat ndims) 0 false) as [[]|[]| |[] m e];
    reflexivity.
Qed.

(** X2.  The early exit of [calculate_distance] returns a partial sum
    that is above [delta]; a run that does not return early computes
    the value of the run without early exit.  So a result of the early
    exit run that is below [delta], the one [group_nd] acts on, is the
    full normalized distance. *)
Theorem calculate_distance_early_exit e1 e2 ndims delta :
  (Distance.calculate_distance prec emax e1 e2 ndims delta true
   = Distance.calculate_distance prec emax e1 e2 ndims delta false
   \/ Real.gtb (Distance.calculate_distance prec emax e1 e2 ndims delta true) delta = true)
  /\
  (Real.ltb (Distance.calculate_distance prec emax e1 e2 ndims delta true) delta = true ->
   Distance.calculate_distance prec emax e1 e2 ndims delta true
   = Distance.calculate_distance prec emax e1 e2 ndims delta false).
Proof.
  assert (Distance.calculate_distance prec emax e1 e2 ndims delta true
          = Distance.calculate_distance prec emax e1 e2 ndims delta false
          \/ Real.gtb (Distance.calculate_distance prec emax e1 e2 ndims delta true) delta
             = true) as Hcases.
  { unfold Distance.calculate_distance.
    pose proof (distance_loop_early delta e1 e2 (seq 0 ndims) Real.zero 0) as H.
    destruct (Distance.distance_loop prec emax true _ _ _ _ _ _) as [s|[s n]].
    - by right.
    - left. by rewrite H. }
  split; [done|]. intros Hlt. destruct Hcases as [Heq|Hgt]; [done|].
  unfold Real.gtb, Real.ltb in *. apply SFltb_asym in Hlt. congruence.
Qed.

End DistanceEdges.

Lemma calculate_distance_no_common_witness :
  Distance.calculate_distance 53 1024
    [Real.of_Z 53 1024 1; S754_nan] [S754_nan; Real.of_Z 53 1024 2] 2
    (Real.epsilon 53 1024) true = S754_nan /\
  Real.ltb
    (Distance.calculate_distance 53 1024
       [Real.of_Z 53 1024 1; S754_nan] [S754_nan; Real.of_Z 53 1024 2] 2
       (Real.epsilon 53 1024) true)
    (Real.epsilon 53 1024) = false.
Proof.
  apply (calculate_distance_no_common 53 1024
           [Real.of_Z 53 1024 1; S754_nan] [S754_nan; Real.of_Z 53 1024 2] 2%nat).
  intros [|[|i]] Hi; [reflexivity|reflexivity|lia].
Defined.

Lemma calculate_distance_early_exit_witness :
  Real.ltb
    (Distance.calculate_distance 53 1024
       [Real.of_Z 53 1024 1; Real.of_Z 53 1024 1] [Real.of_Z 53 1024 1; Real.of_Z 53 1024 2] 2
       (Real.of_Z 53 1024 4) true)
    (Real.of_Z 53 1024 4) = true /\
  Distance.calculate_distance 53 1024
    [Real.of_Z 53 1024 1; Real.of_Z 53 1024 1] [Real.of_Z 53 1024 1; Real.of_Z 53 1024 2] 2
    (Real.of_Z 53 1024 4) true
  = Distance.calculate_distance 53 1024
      [Real.of_Z 53 1024 1; Real.of_Z 53 1024 1] [Real.of_Z 53 1024 1; Real.of_Z 53 1024 2] 2
      (Real.of_Z 53 1024 4) false.
Proof.
  assert (Real.ltb
            (Distance.calculate_distance 53 1024
               [Real.of_Z 53 1024 1; Real.of_Z 53 1024 1]
               [Real.of_Z 53 1024 1; Real.of_Z 53 1024 2] 2
               (Real.of_Z 53 1024 4) true)
            (Real.of_Z 53 1024 4) = true) as H by (vm_compute; reflexivity).
  split; [exact H|].
  exact (proj2 (calculate_distance_early_exit 53 1024 _ _ _ _) H).
Defined.

(** ** The exemplar scan *)

Section ScanFacts.
Variables prec emax : Z.

Lemma scan_none member exemplars ndims delta js :
  NDim.scan prec emax member exemplars ndims delta js = None <->
  forall j, j ∈ js ->
    Real.ltb (Distance.calculate_distance prec emax member
                (NDim.coords (exemplars !!! N.to_nat j)) ndims delta true) delta = false.
Proof.
  induction js as [|j js IH]; simpl.
  - split; [|done]. intros _ j Hj. inversion Hj.
  - destruct (Real.ltb _ delta) eqn:E.
    + split; [done|]. intros H. specialize (H j ltac:(by left)). congruence.
    + rewrite IH. split.
      * intros H j' Hj'. apply elem_of_cons in Hj' as [->|Hj']; [done|by apply H].
      * intros H j' Hj'. apply H. by right.
Qed.

Lemma scan_some member exemplars ndims delta js z :
  NDim.scan prec emax member exemplars ndims delta js = Some z ->
  exists j, j ∈ js /\
    Real.ltb (Distance.calculate_distance prec emax member
                (NDim.coords (exemplars !!! N.to_nat j)) ndims delta true) delta = true /\
    z = to_int32 (Z.of_N (NDim.id (exemplars !!! N.to_nat j))).
Proof.
  induction js as [|j js IH]; simpl; [done|].
  destruct (Real.ltb _ delta) eqn:E.
  - intros [= <-]. exists j. split; [by left|done].
  - intros H. destruct (IH H) as (j' & Hj' & Hd & Hz). exists j'. split; [by right|done].
Qed.

Lemma path_all (n c e0 : N) :
  (1 <= n <= 2 ^ 32)%N -> (c <= n)%N -> N.gcd c n = 1%N -> (e0 < n)%N ->
  forall j, j ∈ NDim.path n c e0 <-> (j < n)%N.
Proof.
  intros Hn Hc Hg He j.
  rewrite path_modular by lia. rewrite modular_sequence_perm by (done || lia).
  rewrite list_elem_of_fmap. split.
  - intros (k & -> & Hk). apply elem_of_seq in Hk. lia.
  - intros Hj. exists (N.to_nat j). split; [lia|]. apply elem_of_seq. lia.
Qed.

(** X3.  The scan of [group_nd] over the exemplars along a modular
    path, for a stride coprime with the number of exemplars: it finds
    no exemplar exactly when no exemplar at all is at a distance below
    [delta] of the row, and an id that it assigns is the id of an
    exemplar at a distance below [delta].  Without exemplars it finds
    none.  The number of exemplars is at most [2^32], so that the
    products do not wrap. *)
Theorem test_member_complete member exemplars ndims delta (c e0 : N) :
  exemplars = [] \/
  ((N.of_nat (length exemplars) <= 2 ^ 32)%N /\ (c <= N.of_nat (length exemplars))%N /\
   N.gcd c (N.of_nat (length exemplars)) = 1%N /\ (e0 < N.of_nat (length exemplars))%N) ->
  (NDim.test_member prec emax member exemplars ndims delta c e0 = None <->
   Forall (fun e =>
             Real.ltb (Distance.calculate_distance prec emax member (NDim.coords e)
                         ndims delta true) delta = false) exemplars) /\
  (forall z, NDim.test_member prec emax member exemplars ndims delta c e0 = Some z ->
     exists e, e ∈ exemplars /\
       Real.ltb (Distance.calculate_distance prec emax member (NDim.coords e)
                   ndims delta true) delta = true /\
       z = to_int32 (Z.of_N (NDim.id e))).
Proof.
  intros [->|(Hn & Hc & Hg & He)].
  { split; [by split|]. intros z H. by vm_compute in H. }
  assert (forall j, j ∈ NDim.path (N.of_nat (length exemplars)) c e0
                    <-> (j < N.of_nat (length exemplars))%N) as Hpath
    by (apply path_all; (done || lia)).
  unfold NDim.test_member. split.
  - rewrite scan_none, Forall_lookup. split.
    + intros H i e Hi.
      specialize (H (N.of_nat i)). rewrite Nat2N.id in H.
      rewrite (list_lookup_total_correct _ _ _ Hi) in H. apply H, Hpath.
      apply lookup_lt_Some in Hi. lia.
    + intros H j Hj. apply Hpath in Hj.
      destruct (lookup_lt_is_Some_2 exemplars (N.to_nat j) ltac:(lia)) as [e Hi].
      rewrite (list_lookup_total_correct _ _ _ Hi). by apply (H _ _ Hi).
  - intros z H. apply scan_some in H as (j & Hj & Hd & Hz). apply Hpath in Hj.
    destruct (lookup_lt_is_Some_2 exemplars (N.to_nat j) ltac:(lia)) as [e Hi].
    rewrite (list_lookup_total_correct _ _ _ Hi) in Hd, Hz.
    exists e. split; [by eapply list_elem_of_lookup_2|done].
Qed.

End ScanFacts.

(** Three exemplars on a line and a row next to the last of them. *)
Definition line_exemplars : list NDim.exemplar :=
  [ {| NDim.id := 0; NDim.coords := [Real.of_Z 53 1024 0] |};
    {| NDim.id := 1; NDim.coords := [Real.of_Z 53 1024 4] |};
    {| NDim.id := 2; NDim.coords := [Real.of_Z 53 1024 8] |} ].

Lemma test_member_complete_witness :
  NDim.test_member 53 1024 [Real.of_Z 53 1024 8] line_exemplars 1 (Real.of_Z 53 1024 1) 2 1
  = Some 2 /\
  exists e, e ∈ line_exemplars /\
    Real.ltb (Distance.calculate_distance 53 1024 [Real.of_Z 53 1024 8] (NDim.coords e)
                1 (Real.of_Z 53 1024 1) true) (Real.of_Z 53 1024 1) = true /\
    2 = to_int32 (Z.of_N (NDim.id e)).
Proof.
  assert (NDim.test_member 53 1024 [Real.of_Z 53 1024 8] line_exemplars 1
            (Real.of_Z 53 1024 1) 2 1 = Some 2) as H by (vm_compute; reflexivity).
  split; [exact H|].
  refine (proj2 (test_member_complete 53 1024 [Real.of_Z 53 1024 8] line_exemplars 1%nat
                   (Real.of_Z 53 1024 1) 2%N 1%N _) 2 H).
  right. vm_compute. repeat split; intros; discriminate.
Defined.

(** ** The categorical paths *)

Section RowWrites.

(** A loop that writes [w j] to the cell [f j] at step [j]. *)
Lemma foldl_write_length {A} (step : list Z -> A -> list Z) (f : A -> nat) (w : A -> Z)
    js (d : list Z) :
  (forall d j, step d j = <[f j := w j]> d) ->
  length (foldl step d js) = length d.
Proof.
  intros Hstep. apply foldl_preserves_length. intros d' j.
  by rewrite Hstep, length_insert.
Qed.

Lemma foldl_write_notin {A} (step : list Z -> A -> list Z) (f : A -> nat) (w : A -> Z)
    js (d : list Z) r :
  (forall d j, step d j = <[f j := w j]> d) ->
  r ∉ f <$> js -> foldl step d js !! r = d !! r.
Proof.
  intros Hstep. revert d. induction js as [|j js IH]; intros d Hr; simpl; [done|].
  rewrite fmap_cons, not_elem_of_cons in Hr. destruct Hr as [Hne Hr].
  rewrite IH, Hstep by done. by apply list_lookup_insert_ne.
Qed.

Lemma foldl_write_in {A} (step : list Z -> A -> list Z) (f : A -> nat) (w : A -> Z)
    js (d : list Z) r v :
  (forall d j, step d j = <[f j := w j]> d) ->
  (forall j, j ∈ js -> f j = r -> w j = v) ->
  r ∈ f <$> js -> (r < length d)%nat ->
  foldl step d js !! r = Some v.
Proof.
  intros Hstep. revert d. induction js as [|j js IH]; intros d Hw Hr Hlen; simpl.
  { inversion Hr. }
  destruct (decide (r ∈ f <$> js)) as [Hin|Hnotin].
  - apply IH; [|done|].
    + intros j' Hj'. apply Hw. by right.
    + by rewrite Hstep, length_insert.
  - rewrite (foldl_write_notin step f w) by done.
    rewrite fmap_cons in Hr. apply elem_of_cons in Hr as [->|Hr]; [|done].
    rewrite Hstep, (Hw j) by (done || by left).
    by apply list_lookup_insert_eq.
Qed.

End RowWrites.

Section GroupWrites.
Context {K : Type} (leb eqb : K -> K -> bool).
Variable keys : list K.

Local Abbreviation g := (group leb eqb keys).
Local Abbreviation gs := (groups_of leb eqb keys).

(** A loop over the groups whose body is a loop over the rows of the
    group, writing [v i r] to the row [r] of the group [i]: every row
    is written once, with the value of its group. *)
Lemma foldl_groups_rows (step : nat -> list Z -> nat -> list Z) (v : nat -> nat -> Z)
    (d : list Z) i rows r :
  (forall i d j, step i d j = <[ri g !!! j := v i (ri g !!! j)]> d) ->
  length d = length keys ->
  gs !! i = Some rows -> r ∈ rows ->
  foldl (fun d i =>
           foldl (step i) d (seq (offsets g !!! i) (offsets g !!! S i - offsets g !!! i)))
        d (seq 0 (ngroups g)) !! r = Some (v i r).
Proof.
  intros Hstep Hlen Hi Hr.
  assert (r < length keys)%nat as Hrlt.
  { apply (groups_of_elem leb eqb). apply elem_of_concat. exists rows.
    split; [by eapply list_elem_of_lookup_2|done]. }
  apply (foldl_groups_in
           (fun i d =>
              foldl (step i) d (seq (offsets g !!! i) (offsets g !!! S i - offsets g !!! i)))
           (fun i => group_rows g i) (fun i => v i r) _ _ r i).
  - intros i' d' _.
    apply (foldl_write_length _ (fun j => ri g !!! j) (fun j => v i' (ri g !!! j))).
    apply Hstep.
  - intros i' d' _ Hnot.
    apply (foldl_write_notin _ (fun j => ri g !!! j) (fun j => v i' (ri g !!! j)));
      [apply Hstep|done].
  - intros i' d' _ Hin Hlt.
    apply (foldl_write_in _ (fun j => ri g !!! j) (fun j => v i' (ri g !!! j)));
      [apply Hstep| |done|done].
    by intros j _ ->.
  - apply elem_of_seq. rewrite group_ngroups. apply lookup_lt_Some in Hi. lia.
  - by rewrite (group_rows_eq leb eqb keys i rows).
  - intros i' Hi' Hin. apply elem_of_seq in Hi'. rewrite group_ngroups in Hi'.
    destruct (lookup_lt_is_Some_2 gs i' ltac:(lia)) as [rows' Hrows'].
    rewrite (group_rows_eq leb eqb keys i' rows') in Hin by done.
    by apply (groups_of_disjoint leb eqb keys i' i rows' rows r).
  - lia.
Qed.

End GroupWrites.

Section Categorical.
Variables prec emax : Z.

Lemma concat_nonempty_length {X} (ls : list (list X)) :
  Forall (fun l => l <> []) ls -> (length ls <= length (concat ls))%nat.
Proof.
  induction 1 as [|l ls Hl _ IH]; simpl; [done|].
  rewrite length_app. destruct l; [done|]. simpl. lia.
Qed.

Lemma ngroups_le_keys {K} (leb eqb : K -> K -> bool) (keys : list K) :
  (ngroups (group leb eqb keys) <= length keys)%nat.
Proof.
  rewrite group_ngroups, <- (group_ri_length leb eqb keys), group_ri.
  apply concat_nonempty_length, groups_of_nonempty.
Qed.

Lemma group_rows_cover {K} (leb eqb : K -> K -> bool) (keys : list K) r :
  (r < length keys)%nat ->
  exists i, (i < ngroups (group leb eqb keys))%nat /\ r ∈ group_rows (group leb eqb keys) i.
Proof.
  intros Hr. destruct (groups_of_cover leb eqb keys r Hr) as (i & rows & Hi & Hin).
  exists i. split.
  - rewrite group_ngroups. by eapply lookup_lt_Some.
  - by rewrite (group_rows_eq leb eqb keys i rows).
Qed.

Lemma group_rows_lookup {K} (leb eqb : K -> K -> bool) (keys : list K) i r :
  (i < ngroups (group leb eqb keys))%nat -> r ∈ group_rows (group leb eqb keys) i ->
  exists rows, groups_of leb eqb keys !! i = Some rows /\ r ∈ rows.
Proof.
  intros Hi Hr. rewrite group_ngroups in Hi.
  destruct (lookup_lt_is_Some_2 _ i Hi) as [rows Hrows].
  exists rows. split; [done|]. by rewrite (group_rows_eq leb eqb keys i rows) in Hr.
Qed.

(** The value that the categorical paths write to a row of the group
    [i]. *)
Lemma group_1d_categorical_lookup dt_cat (d : list Z) i rows r :
  length (Dispatch.cells (dt_cat !!! 0%nat)) = length d ->
  groups_of (Dispatch.cell_leb false) Dispatch.cell_eqb
    (Dispatch.cells (dt_cat !!! 0%nat)) !! i = Some rows ->
  r ∈ rows ->
  Dispatch.group_1d_categorical dt_cat d !! r = Some (to_int32 (Z.of_nat i)).
Proof.
  intros Hlen Hrows Hin. set (keys := Dispatch.cells (dt_cat !!! 0%nat)) in *.
  unfold Dispatch.group_1d_categorical, mark_rows. fold keys. cbv zeta.
  by rewrite (foldl_groups_rows (Dispatch.cell_leb false) Dispatch.cell_eqb keys
                (fun i d j =>
                   <[ri (group (Dispatch.cell_leb false) Dispatch.cell_eqb keys) !!! j
                     := to_int32 (Z.of_nat i)]> d)
                (fun i _ => to_int32 (Z.of_nat i)) d i rows r).
Qed.

Definition categorical_id (c0 c1 : list Dispatch.cell) (i gi : nat) : Z :=
  if negb (Z.b2z (Dispatch.ISNA_cell (c0 !!! gi))
           + 2 * Z.b2z (Dispatch.ISNA_cell (c1 !!! gi)) =? 0)
  then - (Z.b2z (Dispatch.ISNA_cell (c0 !!! gi))
          + 2 * Z.b2z (Dispatch.ISNA_cell (c1 !!! gi)))
  else to_int32 (Z.of_nat i).

Lemma group_2d_categorical_str_lookup dt_cat (d : list Z) i rows r :
  length (Dispatch.cells (dt_cat !!! 0%nat)) = length d ->
  length (Dispatch.cells (dt_cat !!! 1%nat)) = length d ->
  groups_of Dispatch.pair_leb Dispatch.pair_eqb
    (zip (Dispatch.cells (dt_cat !!! 0%nat)) (Dispatch.cells (dt_cat !!! 1%nat))) !! i
  = Some rows ->
  r ∈ rows ->
  Dispatch.group_2d_categorical_str dt_cat d !! r
  = Some (categorical_id (Dispatch.cells (dt_cat !!! 0%nat))
            (Dispatch.cells (dt_cat !!! 1%nat)) i r).
Proof.
  intros Hlen0 Hlen1 Hrows Hin.
  set (c0 := Dispatch.cells (dt_cat !!! 0%nat)) in *.
  set (c1 := Dispatch.cells (dt_cat !!! 1%nat)) in *.
  set (keys := zip c0 c1) in *.
  assert (length d = length keys) as Hkeys by (unfold keys; rewrite length_zip; lia).
  unfold Dispatch.group_2d_categorical_str. fold c0 c1 keys. cbv zeta.
  rewrite (foldl_groups_rows Dispatch.pair_leb Dispatch.pair_eqb keys _
             (categorical_id c0 c1) d i rows r); try done.
  intros i' d' j. unfold categorical_id. by destruct (negb _).
Qed.

Definition mixed_id (par : Dispatch.Params) (c0 : Binning.ColumnConvertor)
    (d_cat : list Dispatch.cell) (i gi : nat) : Z :=
  if negb (Z.b2z (Real.ISNA (Binning.get_value c0 gi))
           + 2 * Z.b2z (Dispatch.ISNA_cell (d_cat !!! gi)) =? 0)
  then - (Z.b2z (Real.ISNA (Binning.get_value c0 gi))
          + 2 * Z.b2z (Dispatch.ISNA_cell (d_cat !!! gi)))
  else to_int32
         (to_int32 (Z.of_N (size_mul (Dispatch.nx_bins par) (N.of_nat i)))
          + Binning.bin_id prec emax
              (Binning.set_norm_coeffs prec emax (Binning.cc_min c0)
                 (Binning.cc_max c0) (Dispatch.nx_bins par))
              (Binning.get_value c0 gi)).

Lemma group_2d_mixed_str_lookup par c0 dt_cat (d : list Z) i rows r :
  length (Dispatch.cells (dt_cat !!! 0%nat)) = length d ->
  groups_of (Dispatch.cell_leb false) Dispatch.cell_eqb
    (Dispatch.cells (dt_cat !!! 0%nat)) !! i = Some rows ->
  r ∈ rows ->
  Dispatch.group_2d_mixed_str prec emax par c0 dt_cat d !! r
  = Some (mixed_id par c0 (Dispatch.cells (dt_cat !!! 0%nat)) i r).
Proof.
  intros Hlen Hrows Hin. set (keys := Dispatch.cells (dt_cat !!! 0%nat)) in *.
  unfold Dispatch.group_2d_mixed_str. fold keys. cbv zeta.
  rewrite (foldl_groups_rows (Dispatch.cell_leb false) Dispatch.cell_eqb keys _
             (mixed_id par c0 keys) d i rows r); try done.
  intros i' d' j. unfold mixed_id. by destruct (negb _).
Qed.

(** X4.  [group_1d_categorical] writes to every row the index of its
    group in the group-by of the categorical column: every row is in a
    group, and a row of the group [i] gets the id [i], whatever the
    members column held before.  The row count fits [int32_t]. *)
Theorem group_1d_categorical_rows dt_cat (d : list Z) :
  length (Dispatch.cells (dt_cat !!! 0%nat)) = length d ->
  Z.of_nat (length d) < 2 ^ 31 ->
  (forall r, (r < length d)%nat ->
     exists i, (i < ngroups (group (Dispatch.cell_leb false) Dispatch.cell_eqb
                           (Dispatch.cells (dt_cat !!! 0%nat))))%nat /\
       r ∈ group_rows (group (Dispatch.cell_leb false) Dispatch.cell_eqb
                         (Dispatch.cells (dt_cat !!! 0%nat))) i) /\
  (forall i r,
     (i < ngroups (group (Dispatch.cell_leb false) Dispatch.cell_eqb
                     (Dispatch.cells (dt_cat !!! 0%nat))))%nat ->
     r ∈ group_rows (group (Dispatch.cell_leb false) Dispatch.cell_eqb
                       (Dispatch.cells (dt_cat !!! 0%nat))) i ->
     Dispatch.group_1d_categorical dt_cat d !! r = Some (Z.of_nat i)).
Proof.
  intros Hlen Hrows. set (keys := Dispatch.cells (dt_cat !!! 0%nat)) in *. split.
  - intros r Hr. apply group_rows_cover. lia.
  - intros i r Hi Hr.
    pose proof (ngroups_le_keys (Dispatch.cell_leb false) Dispatch.cell_eqb keys) as Hle.
    destruct (group_rows_lookup _ _ keys i r Hi Hr) as (rows & Hrows' & Hin).
    rewrite (group_1d_categorical_lookup dt_cat d i rows r) by done.
    by rewrite to_int32_nat by lia.
Qed.

(** X5.  [group_2d_categorical_str] groups the rows by the two string
    columns.  A row with a missing string gets a negative id by its
    case, [-1] when only the first string is missing, [-2] when only
    the second is, [-3] when both are; any other row of the group [i]
    gets the id [i].  Every row is written.  The row count fits
    [int32_t]. *)
Theorem group_2d_categorical_str_rows dt_cat (d : list Z) :
  length (Dispatch.cells (dt_cat !!! 0%nat)) = length d ->
  length (Dispatch.cells (dt_cat !!! 1%nat)) = length d ->
  Z.of_nat (length d) < 2 ^ 31 ->
  (forall r, (r < length d)%nat ->
     exists i,
       (i < ngroups (group Dispatch.pair_leb Dispatch.pair_eqb
                       (zip (Dispatch.cells (dt_cat !!! 0%nat))
                            (Dispatch.cells (dt_cat !!! 1%nat)))))%nat /\
       r ∈ group_rows (group Dispatch.pair_leb Dispatch.pair_eqb
                         (zip (Dispatch.cells (dt_cat !!! 0%nat))
                              (Dispatch.cells (dt_cat !!! 1%nat)))) i) /\
  (forall i r,
     (i < ngroups (group Dispatch.pair_leb Dispatch.pair_eqb
                     (zip (Dispatch.cells (dt_cat !!! 0%nat))
                          (Dispatch.cells (dt_cat !!! 1%nat)))))%nat ->
     r ∈ group_rows (group Dispatch.pair_leb Dispatch.pair_eqb
                       (zip (Dispatch.cells (dt_cat !!! 0%nat))
                            (Dispatch.cells (dt_cat !!! 1%nat)))) i ->
     Dispatch.group_2d_categorical_str dt_cat d !! r
     = Some (match Dispatch.ISNA_cell (Dispatch.cells (dt_cat !!! 0%nat) !!! r),
                   Dispatch.ISNA_cell (Dispatch.cells (dt_cat !!! 1%nat) !!! r) with
             | false, false => Z.of_nat i
             | true, false => -1
             | false, true => -2
             | true, true => -3
             end)).
Proof.
  intros Hlen0 Hlen1 Hrows.
  set (c0 := Dispatch.cells (dt_cat !!! 0%nat)) in *.
  set (c1 := Dispatch.cells (dt_cat !!! 1%nat)) in *.
  set (keys := zip c0 c1).
  assert (length keys = length d) as Hkeys by (unfold keys; rewrite length_zip; lia).
  split.
  - intros r Hr. apply group_rows_cover. lia.
  - intros i r Hi Hr.
    pose proof (ngroups_le_keys Dispatch.pair_leb Dispatch.pair_eqb keys) as Hle.
    destruct (group_rows_lookup _ _ keys i r Hi Hr) as (rows & Hrows' & Hin).
    rewrite (group_2d_categorical_str_lookup dt_cat d i rows r) by done.
    fold c0 c1. unfold categorical_id. rewrite to_int32_nat by lia.
    by destruct (Dispatch.ISNA_cell (c0 !!! r)), (Dispatch.ISNA_cell (c1 !!! r)).
Qed.

(** X6.  [group_2d_mixed_str] groups the rows by the string column and
    bins them by the continuous one.  A row with a missing cell gets a
    negative id by its case, [-1] when only the number is missing, [-2]
    when only the string is, [-3] when both are, whichever of the two
    columns comes first in the table; any other row of the group [i]
    gets [nx_bins * i] plus the bin of its number.  Every row is
    written.  The row count fits [int32_t]. *)
Theorem group_2d_mixed_str_rows par c0 dt_cat (d : list Z) :
  length (Dispatch.cells (dt_cat !!! 0%nat)) = length d ->
  Z.of_nat (length d) < 2 ^ 31 ->
  (forall r, (r < length d)%nat ->
     exists i,
       (i < ngroups (group (Dispatch.cell_leb false) Dispatch.cell_eqb
                       (Dispatch.cells (dt_cat !!! 0%nat))))%nat /\
       r ∈ group_rows (group (Dispatch.cell_leb false) Dispatch.cell_eqb
                         (Dispatch.cells (dt_cat !!! 0%nat))) i) /\
  (forall i r,
     (i < ngroups (group (Dispatch.cell_leb false) Dispatch.cell_eqb
                     (Dispatch.cells (dt_cat !!! 0%nat))))%nat ->
     r ∈ group_rows (group (Dispatch.cell_leb false) Dispatch.cell_eqb
                       (Dispatch.cells (dt_cat !!! 0%nat))) i ->
     Dispatch.group_2d_mixed_str prec emax par c0 dt_cat d !! r
     = Some (match Real.ISNA (Binning.get_value c0 r),
                   Dispatch.ISNA_cell (Dispatch.cells (dt_cat !!! 0%nat) !!! r) with
             | false, false =>
                 to_int32
                   (to_int32 (Z.of_N (size_mul (Dispatch.nx_bins par) (N.of_nat i)))
                    + Binning.bin_id prec emax
                        (Binning.set_norm_coeffs prec emax (Binning.cc_min c0)
                           (Binning.cc_max c0) (Dispatch.nx_bins par))
                        (Binning.get_value c0 r))
             | true, false => -1
             | false, true => -2
             | true, true => -3
             end)).
Proof.
  intros Hlen Hrows.
  set (keys := Dispatch.cells (dt_cat !!! 0%nat)) in *.
  split.
  - intros r Hr. apply group_rows_cover. lia.
  - intros i r Hi Hr.
    destruct (group_rows_lookup _ _ keys i r Hi Hr) as (rows & Hrows' & Hin).
    rewrite (group_2d_mixed_str_lookup par c0 dt_cat d i rows r) by done.
    fold keys. unfold mixed_id.
    by destruct (Real.ISNA (Binning.get_value c0 r)), (Dispatch.ISNA_cell (keys !!! r)).
Qed.

Definition continuous_id (c0 c1 : Binning.ColumnConvertor) (nx ny : N) (i : nat) : Z :=
  if negb (Z.b2z (Real.ISNA (Binning.get_value c0 i))
           + 2 * Z.b2z (Real.ISNA (Binning.get_value c1 i)) =? 0)
  then - (Z.b2z (Real.ISNA (Binning.get_value c0 i))
          + 2 * Z.b2z (Real.ISNA (Binning.get_value c1 i)))
  else to_int32
         (Binning.bin_id prec emax
            (Binning.set_norm_coeffs prec emax (Binning.cc_min c1) (Binning.cc_max c1) ny)
            (Binning.get_value c1 i) * to_int32 (Z.of_N nx)
          + Binning.bin_id prec emax
              (Binning.set_norm_coeffs prec emax (Binning.cc_min c0) (Binning.cc_max c0) nx)
              (Binning.get_value c0 i)).

Lemma group_2d_continuous_lookup c0 c1 (nx ny : N) (d : list Z) r :
  length d = Binning.get_nrows c0 -> (r < Binning.get_nrows c0)%nat ->
  Binning.group_2d_continuous prec emax c0 c1 nx ny d !! r
  = Some (continuous_id c0 c1 nx ny r).
Proof.
  intros Hd Hr. unfold Binning.group_2d_continuous.
  rewrite (foldl_cells_lookup _ (continuous_id c0 c1 nx ny)); [done| |done|lia].
  intros d' k. unfold continuous_id. cbv zeta. by destruct (negb _).
Qed.

(** X7.  [group_2d_continuous] writes every row: a row with a missing
    value gets a negative id by its case, [-1] when only the value of
    the first column is missing, [-2] when only the value of the second
    is, [-3] when both are; any other row gets
    [bin_y * nx_bins + bin_x]. *)
Theorem group_2d_continuous_rows c0 c1 (nx ny : N) (d : list Z) r :
  length d = Binning.get_nrows c0 -> (r < Binning.get_nrows c0)%nat ->
  Binning.group_2d_continuous prec emax c0 c1 nx ny d !! r
  = Some (match Real.ISNA (Binning.get_value c0 r), Real.ISNA (Binning.get_value c1 r) with
          | false, false =>
              to_int32
                (Binning.bin_id prec emax
                   (Binning.set_norm_coeffs prec emax (Binning.cc_min c1) (Binning.cc_max c1) ny)
                   (Binning.get_value c1 r) * to_int32 (Z.of_N nx)
                 + Binning.bin_id prec emax
                     (Binning.set_norm_coeffs prec emax (Binning.cc_min c0)
                        (Binning.cc_max c0) nx)
                     (Binning.get_value c0 r))
          | true, false => -1
          | false, true => -2
          | true, true => -3
          end).
Proof.
  intros Hd Hr. rewrite group_2d_continuous_lookup by done. unfold continuous_id.
  by destruct (Real.ISNA (Binning.get_value c0 r)), (Real.ISNA (Binning.get_value c1 r)).
Qed.

End Categorical.

(** A string column with a repeated value and a missing one. *)
Definition letters : Dispatch.Column :=
  {| Dispatch.stype := Dispatch.STR32;
     Dispatch.cells :=
       [Dispatch.CellStr "b"; Dispatch.CellStr "a"; Dispatch.CellNA; Dispatch.CellStr "b"] |}.

Definition marks : Dispatch.Column :=
  {| Dispatch.stype := Dispatch.STR32;
     Dispatch.cells :=
       [Dispatch.CellStr "x"; Dispatch.CellNA; Dispatch.CellNA; Dispatch.CellStr "x"] |}.

(** The convertor of the numbers [1, NA, 3, 2]. *)
Definition numbers : Binning.ColumnConvertor :=
  Dispatch.make_convertor 53 1024
    {| Dispatch.stype := Dispatch.INT32;
       Dispatch.cells :=
         [Dispatch.CellInt 1; Dispatch.CellNA; Dispatch.CellInt 3; Dispatch.CellInt 2] |}.

Lemma group_1d_categorical_rows_witness :
  Dispatch.group_1d_categorical [letters] [7; 7; 7; 7] !! 3%nat = Some 2.
Proof.
  apply (proj2 (group_1d_categorical_rows [letters] [7; 7; 7; 7] eq_refl eq_refl) 2%nat 3%nat).
  - vm_compute. lia.
  - vm_compute. repeat constructor.
Defined.

Lemma group_2d_categorical_str_rows_witness :
  Dispatch.group_2d_categorical_str [letters; marks] [7; 7; 7; 7] !! 1%nat = Some (-2).
Proof.
  apply (proj2 (group_2d_categorical_str_rows [letters; marks] [7; 7; 7; 7]
                  eq_refl eq_refl eq_refl) 1%nat 1%nat).
  - vm_compute. lia.
  - vm_compute. repeat constructor.
Defined.

Lemma group_2d_mixed_str_rows_witness :
  Dispatch.group_2d_mixed_str 53 1024 sampled_params numbers [letters] [7; 7; 7; 7] !! 1%nat
  = Some (-1).
Proof.
  apply (proj2 (group_2d_mixed_str_rows 53 1024 sampled_params numbers [letters]
                  [7; 7; 7; 7] eq_refl eq_refl) 1%nat 1%nat).
  - vm_compute. lia.
  - vm_compute. repeat constructor.
Defined.

Lemma group_2d_continuous_rows_witness :
  Binning.group_2d_continuous 53 1024 numbers numbers 2 2 [7; 7; 7; 7] !! 1%nat = Some (-3).
Proof.
  apply (group_2d_continuous_rows 53 1024 numbers numbers 2 2 [7; 7; 7; 7] 1).
  - reflexivity.
  - vm_compute. lia.
Defined.

(** ** The new members column *)

Section Uninitialised.
Variables prec emax : Z.

Lemma same_lookups (d d' : list Z) n :
  length d = n -> length d' = n ->
  (forall r, (r < n)%nat -> d !! r = d' !! r) -> d = d'.
Proof.
  intros Hd Hd' H. apply list_eq. intros r.
  destruct (decide (r < n)%nat) as [Hr|Hr]; [by apply H|].
  by rewrite !lookup_ge_None_2 by lia.
Qed.

(** A table whose columns all have the number of rows of the table. *)
Definition well_formed (dt : Dispatch.DataTable) : Prop :=
  Forall (fun c => length (Dispatch.cells c) = Dispatch.nrows dt) (Dispatch.columns dt).

Lemma contconvs_nrows dt c :
  well_formed dt -> c ∈ Dispatch.contconvs prec emax dt ->
  Binning.get_nrows c = Dispatch.nrows dt.
Proof.
  intros Hwf Hc. unfold Dispatch.contconvs in Hc.
  apply list_elem_of_fmap in Hc as (col & -> & Hcol).
  apply list_elem_of_filter in Hcol as [_ Hcol].
  unfold well_formed in Hwf. rewrite Forall_forall in Hwf.
  unfold Binning.get_nrows, Dispatch.make_convertor. simpl.
  rewrite length_fmap. by apply Hwf.
Qed.

Lemma catcols_nrows dt c :
  well_formed dt -> c ∈ Dispatch.catcols dt ->
  length (Dispatch.cells c) = Dispatch.nrows dt.
Proof.
  intros Hwf Hc. unfold Dispatch.catcols in Hc.
  destruct (_ <? _)%nat; [|by inversion Hc].
  apply list_elem_of_filter in Hc as [_ Hcol].
  unfold well_formed in Hwf. rewrite Forall_forall in Hwf. by apply Hwf.
Qed.

Lemma group_0d_ignores dt (d d' : list Z) :
  length d = Dispatch.nrows dt -> length d' = Dispatch.nrows dt ->
  Z.of_nat (Dispatch.nrows dt) < 2 ^ 31 ->
  Dispatch.group_0d dt d = Dispatch.group_0d dt d'.
Proof.
  intros Hd Hd' Hrows. destruct dt as [[|c0 rest]].
  - unfold Dispatch.nrows in *. simpl in *.
    destruct d, d'; simpl in *; try lia. done.
  - apply (same_lookups _ _ (length (Dispatch.cells c0)));
      [by rewrite group_0d_length|by rewrite group_0d_length|].
    intros r Hr. unfold Dispatch.nrows in *. simpl in *.
    assert (r ∈ ri (group (Dispatch.cell_leb true) Dispatch.cell_eqb (Dispatch.cells c0)))
      as Hin by (rewrite group_ri_perm; apply elem_of_seq; lia).
    apply list_elem_of_lookup in Hin as [p Hp].
    rewrite !(group_0d_rank c0 rest _ p r) by (done || lia). done.
Qed.

Lemma group_1d_ignores par dt (d d' : list Z) :
  well_formed dt ->
  (length (Dispatch.contconvs prec emax dt) + length (Dispatch.catcols dt) = 1)%nat ->
  length d = Dispatch.nrows dt -> length d' = Dispatch.nrows dt ->
  Dispatch.group_1d prec emax par dt d = Dispatch.group_1d prec emax par dt d'.
Proof.
  intros Hwf Hcols Hd Hd'.
  apply (same_lookups _ _ (Dispatch.nrows dt)); [by rewrite group_1d_length..|].
  intros r Hr. unfold Dispatch.group_1d.
  destruct (Dispatch.contconvs prec emax dt) as [|c0 cs] eqn:Ec.
  - destruct (Dispatch.catcols dt) as [|k0 ks] eqn:Ek; [simpl in Hcols; lia|].
    assert (length (Dispatch.cells ((k0 :: ks) !!! 0%nat)) = Dispatch.nrows dt) as Hk.
    { apply catcols_nrows; [done|]. rewrite Ek. by left. }
    destruct (groups_of_cover (Dispatch.cell_leb false) Dispatch.cell_eqb
                (Dispatch.cells ((k0 :: ks) !!! 0%nat)) r ltac:(lia))
      as (i & rows & Hi & Hin).
    rewrite !(group_1d_categorical_lookup _ _ i rows r) by (done || lia). done.
  - assert (Binning.get_nrows c0 = Dispatch.nrows dt) as Hc.
    { apply contconvs_nrows; [done|]. rewrite Ec. by left. }
    rewrite !(group_1d_continuous_lookup prec emax) by lia. done.
Qed.

Lemma group_2d_categorical_str_length dt_cat (d : list Z) :
  length (Dispatch.group_2d_categorical_str dt_cat d) = length d.
Proof.
  unfold Dispatch.group_2d_categorical_str. apply foldl_preserves_length.
  intros d1 i. apply foldl_preserves_length. intros d2 j. cbv zeta.
  destruct (negb _); by rewrite length_insert.
Qed.

Lemma group_2d_mixed_str_length par c0 dt_cat (d : list Z) :
  length (Dispatch.group_2d_mixed_str prec emax par c0 dt_cat d) = length d.
Proof.
  unfold Dispatch.group_2d_mixed_str. apply foldl_preserves_length.
  intros d1 i. apply foldl_preserves_length. intros d2 j. cbv zeta.
  destruct (negb _); by rewrite length_insert.
Qed.

Lemma group_2d_ignores par dt (d d' : list Z) :
  well_formed dt ->
  (length (Dispatch.contconvs prec emax dt) + length (Dispatch.catcols dt) = 2)%nat ->
  length d = Dispatch.nrows dt -> length d' = Dispatch.nrows dt ->
  Dispatch.group_2d prec emax par dt d = Dispatch.group_2d prec emax par dt d'.
Proof.
  intros Hwf Hcols Hd Hd'. unfold Dispatch.group_2d.
  destruct (Dispatch.contconvs prec emax dt) as [|c0 [|c1 [|c2 cs]]] eqn:Ec;
    simpl in Hcols; try lia.
  - destruct (Dispatch.catcols dt) as [|k0 [|k1 ks]] eqn:Ek; simpl in Hcols; try lia.
    assert (length (Dispatch.cells ((k0 :: k1 :: ks) !!! 0%nat)) = Dispatch.nrows dt) as Hk0.
    { apply catcols_nrows; [done|]. rewrite Ek. by left. }
    assert (length (Dispatch.cells ((k0 :: k1 :: ks) !!! 1%nat)) = Dispatch.nrows dt) as Hk1.
    { apply catcols_nrows; [done|]. rewrite Ek. right. by left. }
    unfold Dispatch.group_2d_categorical.
    destruct (Dispatch.is_str _); [|done]. destruct (Dispatch.is_str _); [|done].
    f_equal. apply (same_lookups _ _ (Dispatch.nrows dt));
      [by rewrite group_2d_categorical_str_length..|].
    intros r Hr.
    destruct (groups_of_cover Dispatch.pair_leb Dispatch.pair_eqb
                (zip (Dispatch.cells ((k0 :: k1 :: ks) !!! 0%nat))
                     (Dispatch.cells ((k0 :: k1 :: ks) !!! 1%nat))) r)
      as (i & rows & Hi & Hin); [rewrite length_zip; lia|].
    rewrite !(group_2d_categorical_str_lookup _ _ i rows r) by (done || lia). done.
  - destruct (Dispatch.catcols dt) as [|k0 ks] eqn:Ek; simpl in Hcols; try lia.
    assert (length (Dispatch.cells ((k0 :: ks) !!! 0%nat)) = Dispatch.nrows dt) as Hk0.
    { apply catcols_nrows; [done|]. rewrite Ek. by left. }
    unfold Dispatch.group_2d_mixed.
    destruct (Dispatch.is_str _); [|done].
    f_equal. apply (same_lookups _ _ (Dispatch.nrows dt));
      [by rewrite group_2d_mixed_str_length..|].
    intros r Hr.
    destruct (groups_of_cover (Dispatch.cell_leb false) Dispatch.cell_eqb
                (Dispatch.cells ((k0 :: ks) !!! 0%nat)) r ltac:(lia))
      as (i & rows & Hi & Hin).
    rewrite !(group_2d_mixed_str_lookup _ _ _ _ _ _ i rows r) by (done || lia). done.
  - assert (Binning.get_nrows c0 = Dispatch.nrows dt) as Hc.
    { apply contconvs_nrows; [done|]. rewrite Ec. by left. }
    f_equal. apply (same_lookups _ _ (Dispatch.nrows dt));
      [by rewrite group_2d_continuous_length..|].
    intros r Hr. rewrite !group_2d_continuous_lookup by lia. done.
Qed.

(** X8.  The members column of [aggregate] is created without being
    initialised, and the 0-D, 1-D and 2-D paths write every row of it
    before anything reads it: whatever the new column holds, and
    whatever the N-D loop would do, [aggregate] ends the same way and
    with the same tables.  The columns of the table all have its number
    of rows, which fits [int32_t]. *)
Theorem aggregate_ignores_uninit par env env' dt out :
  well_formed dt -> Z.of_nat (Dispatch.nrows dt) < 2 ^ 31 ->
  (N.of_nat (Dispatch.nrows dt) < Dispatch.min_rows par)%N \/
  (length (Dispatch.contconvs prec emax dt) + length (Dispatch.catcols dt) <= 2)%nat ->
  Dispatch.progress_fn env = Dispatch.progress_fn env' ->
  Dispatch.rand env = Dispatch.rand env' ->
  Dispatch.aggregate prec emax par env dt out = Dispatch.aggregate prec emax par env' dt out.
Proof.
  intros Hwf Hrows Hpath Hp Hr.
  assert (Dispatch.grouping prec emax par env dt = Dispatch.grouping prec emax par env' dt)
    as Hg.
  { unfold Dispatch.grouping.
    set (col0 := Dispatch.uninit env <$> seq 0 (Dispatch.nrows dt)).
    set (col0' := Dispatch.uninit env' <$> seq 0 (Dispatch.nrows dt)).
    assert (length col0 = Dispatch.nrows dt) as Hc
      by (unfold col0; by rewrite length_fmap, length_seq).
    assert (length col0' = Dispatch.nrows dt) as Hc'
      by (unfold col0'; by rewrite length_fmap, length_seq).
    destruct (N.leb_spec (Dispatch.min_rows par) (N.of_nat (Dispatch.nrows dt)))
      as [Hmin|Hmin].
    - destruct Hpath as [Hlt|Hle]; [lia|].
      destruct (length (Dispatch.contconvs prec emax dt) + length (Dispatch.catcols dt))%nat
        as [|[|[|n]]] eqn:En; try lia.
      + by rewrite (group_0d_ignores dt col0 col0').
      + by rewrite (group_1d_ignores par dt col0 col0').
      + by rewrite (group_2d_ignores par dt col0 col0').
    - by rewrite (group_0d_ignores dt col0 col0'). }
  unfold Dispatch.aggregate, Dispatch.progress. by rewrite Hg, Hp, Hr.
Qed.

End Uninitialised.

Definition garbage_env : Dispatch.Env :=
  {| Dispatch.progress_fn := None;
     Dispatch.rand := [0; 2]%nat;
     Dispatch.uninit := fun i => Z.of_nat i - 7;
     Dispatch.nd_loop := fun _ _ => inl Dispatch.WorkerError |}.

Lemma aggregate_ignores_uninit_witness :
  Dispatch.aggregate 53 1024 sampled_params sampled_env sampled_table no_outputs
  = Dispatch.aggregate 53 1024 sampled_params garbage_env sampled_table no_outputs.
Proof.
  apply aggregate_ignores_uninit.
  - unfold well_formed. vm_compute. repeat constructor.
  - vm_compute. reflexivity.
  - right. vm_compute. lia.
  - reflexivity.
  - reflexivity.
Defined.

(** ** The schema errors of the 2-D paths *)

Section SchemaErrors.
Variables prec emax : Z.

(** X9.  With two columns to aggregate by, [group_2d] raises exactly
    when one of the categorical columns is not a string column, and
    what it raises is a [ValueError]; two numeric columns never raise. *)
Theorem group_2d_schema_error par dt (d : list Z) :
  (length (Dispatch.contconvs prec emax dt) + length (Dispatch.catcols dt) = 2)%nat ->
  ((exists e, Dispatch.group_2d prec emax par dt d = inl e) <->
   Exists (fun c => Dispatch.is_str (Dispatch.stype c) = false) (Dispatch.catcols dt)) /\
  (forall e, Dispatch.group_2d prec emax par dt d = inl e ->
     exists msg, e = Dispatch.ValueError msg) /\
  (Dispatch.catcols dt = [] -> exists m, Dispatch.group_2d prec emax par dt d = inr m).
Proof.
  intros Hcols. unfold Dispatch.group_2d.
  destruct (Dispatch.contconvs prec emax dt) as [|c0 [|c1 [|c2 cs]]] eqn:Ec;
    simpl in Hcols; try lia.
  - destruct (Dispatch.catcols dt) as [|k0 [|k1 [|k2 ks]]] eqn:Ek; simpl in Hcols; try lia.
    unfold Dispatch.group_2d_categorical.
    change ([k0; k1] !!! 0%nat) with k0. change ([k0; k1] !!! 1%nat) with k1.
    rewrite Exists_cons, Exists_cons, Exists_nil.
    destruct (Dispatch.is_str (Dispatch.stype k0)), (Dispatch.is_str (Dispatch.stype k1));
      (split_and!; [split| |done]);
      try (intros [e He]; done); try (intros [H|[H|[]]]; done);
      try (intros _; by eexists); try (intros e [= <-]; by eexists); try done;
      intros _; tauto.
  - destruct (Dispatch.catcols dt) as [|k0 [|k1 ks]] eqn:Ek; simpl in Hcols; try lia.
    unfold Dispatch.group_2d_mixed. change ([k0] !!! 0%nat) with k0.
    rewrite Exists_cons, Exists_nil.
    destruct (Dispatch.is_str (Dispatch.stype k0));
      (split_and!; [split| |done]);
      try (intros [e He]; done); try (intros [H|[]]; done);
      try (intros _; by eexists); try (intros e [= <-]; by eexists); try done;
      intros _; tauto.
  - destruct (Dispatch.catcols dt) as [|k0 ks] eqn:Ek; simpl in Hcols; try lia.
    rewrite Exists_nil. split_and!; [split| |].
    + intros [e He]. done.
    + done.
    + done.
    + intros _. by eexists.
Qed.

End SchemaErrors.

(** A table of a number column and a column of objects. *)
Definition number_and_objects : Dispatch.DataTable :=
  {| Dispatch.columns :=
       [ {| Dispatch.stype := Dispatch.INT32;
            Dispatch.cells := [Dispatch.CellInt 1; Dispatch.CellInt 2] |};
         {| Dispatch.stype := Dispatch.OBJ;
            Dispatch.cells := [Dispatch.CellNA; Dispatch.CellNA] |} ] |}.

Lemma group_2d_schema_error_witness :
  exists e, Dispatch.group_2d 53 1024 sampled_params number_and_objects [0; 0] = inl e.
Proof.
  apply (proj1 (group_2d_schema_error 53 1024 sampled_params number_and_objects [0; 0]
                  eq_refl)).
  vm_compute. repeat constructor.
Defined.

(** ** The exemplars table *)

Section ExemplarRows.

(** After the sampler has sampled, a row is left at the missing value,
    and no value is below it. *)
Lemma sampled_column_na (members : list Z) draws max_bins n_na_bins m' :
  Z.of_nat (length members) < 2 ^ 31 -> (n_na_bins <= 3)%N ->
  sample_exemplars draws max_bins n_na_bins members = Some (m', true) ->
  length m' = length members /\
  (exists r0, m' !! r0 = Some NA_I4) /\ Forall (fun x => NA_I4 <= x) m'.
Proof.
  intros Hlen Hna Hs. unfold sample_exemplars in Hs.
  destruct (N.ltb_spec (size_add max_bins n_na_bins) (N.of_nat (ngroups (group_i4 members))))
    as [Hlt|Hge]; [|done].
  destruct (sample_loop _ _ _ _ _) as [d'|] eqn:Hloop; simpl in Hs; [|done].
  injection Hs as <-.
  rewrite ngroups_i4 in Hlt.
  pose proof (ngroups_le members) as Hle. rewrite ngroups_i4 in Hle.
  destruct (sample_loop_spec members Hlen max_bins draws []
              (replicate (length members) NA_I4) d')
    as (sel & Hsel & Hsel_len).
  - lia.
  - apply selected_init.
  - simpl. lia.
  - exact Hloop.
  - pose proof (selected_length members _ _ Hsel) as Hsl.
    pose proof Hsel as (_ & _ & Hd & _).
    assert (length sel < length (groups_of Z.leb Z.eqb members))%nat as Hstrict.
    { unfold size_add, SIZE_MOD in Hlt.
      destruct (N.lt_ge_cases (max_bins + n_na_bins) (2 ^ 64)) as [Hsmall|Hbig].
      - rewrite N.mod_small in Hlt by done. lia.
      - assert (2 ^ 31 < 2 ^ 64 - 3)%N by (vm_compute; reflexivity).
        assert (Z.of_nat (length sel) < 2 ^ 31) by lia.
        assert (2 ^ 64 - 3 <= max_bins)%N by lia.
        assert (2 ^ 31 = Z.of_N (2 ^ 31)%N) by (vm_compute; reflexivity).
        lia. }
    split; [done|]. by apply (selected_column members sel d').
Qed.

(** The exemplar [k] is the first row of its group, and the finalizer
    gives that row the id [k]. *)
Lemma exemplar_row (m : list Z) ws k :
  Z.of_nat (length m) < 2 ^ 31 ->
  (k < length (exemplar_indices (aggregate_exemplars ws m)))%nat ->
  exists r, (r < length m)%nat /\
    exemplar_indices (aggregate_exemplars ws m) !! k = Some (Z.of_nat r) /\
    d_members (aggregate_exemplars ws m) !! r = Some (Z.of_nat k).
Proof.
  intros Hlen Hk. rewrite exemplar_indices_eq, length_fmap, length_seq in Hk.
  rewrite ngroups_i4 in Hk.
  destruct (lookup_lt_is_Some_2 (groups_of Z.leb Z.eqb m) (ws_nat ws + k)%nat ltac:(lia))
    as [rows Hrows].
  pose proof (first_row m (ws_nat ws + k) rows Hrows) as Hfirst.
  set (r := ri (group_i4 m) !!! (offsets (group_i4 m) !!! (ws_nat ws + k)%nat)) in *.
  pose proof (rows_lt m _ _ _ Hrows Hfirst) as Hr.
  exists r. split_and!; [done| |].
  - rewrite exemplar_indices_eq, list_lookup_fmap, lookup_seq_lt by (rewrite ngroups_i4; lia).
    cbn [fmap option_fmap option_map]. fold r. by rewrite to_int32_nat by lia.
  - rewrite (aggregate_exemplars_lookup m Hlen ws _ rows r Hrows Hfirst).
    rewrite decide_True by lia. do 2 f_equal. lia.
Qed.

(** An id of the finalizer is the index of an exemplar, or the missing
    value of a row that the sampler left out. *)
Lemma final_id_range (m : list Z) ws r :
  Z.of_nat (length m) < 2 ^ 31 ->
  (ws = true -> (exists r0, m !! r0 = Some NA_I4) /\ Forall (fun x => NA_I4 <= x) m) ->
  (r < length m)%nat ->
  d_members (aggregate_exemplars ws m) !! r = Some NA_I4 \/
  exists k, (k < length (exemplar_indices (aggregate_exemplars ws m)))%nat /\
    d_members (aggregate_exemplars ws m) !! r = Some (Z.of_nat k).
Proof.
  intros Hlen Hna Hr.
  destruct (groups_of_cover Z.leb Z.eqb m r Hr) as (i & rows & Hi & Hin).
  rewrite (aggregate_exemplars_lookup m Hlen ws i rows r Hi Hin).
  destruct (decide (ws_nat ws <= i)%nat) as [Hws|Hws].
  - right. exists (i - ws_nat ws)%nat. split; [|done].
    rewrite exemplar_indices_eq, length_fmap, length_seq, ngroups_i4.
    apply lookup_lt_Some in Hi. lia.
  - left. destruct ws; [|simpl in Hws; lia]. simpl in Hws.
    assert (i = 0%nat) as -> by lia.
    destruct (Hna eq_refl) as [Hex Hmin].
    by apply (na_group_first m rows r).
Qed.

End ExemplarRows.

Section AggregateExemplars.
Variables prec emax : Z.

(** What [aggregate] hands to the finalizer when it returns. *)
Lemma aggregate_finalized par env dt out out' ex ids :
  Z.of_nat (Dispatch.nrows dt) < 2 ^ 31 ->
  (forall cs (d d' : list Z), Dispatch.nd_loop env cs d = inr d' -> length d' = length d) ->
  Dispatch.aggregate prec emax par env dt out = (out', Dispatch.Returned) ->
  Dispatch.dt_exemplars_in out' = Some ex ->
  Dispatch.dt_members_in out' = Some ids ->
  exists m' ws,
    length m' = Dispatch.nrows dt /\
    (ws = true -> (exists r0, m' !! r0 = Some NA_I4) /\ Forall (fun x => NA_I4 <= x) m') /\
    Dispatch.ex_rows ex = exemplar_indices (aggregate_exemplars ws m') /\
    Dispatch.members_count ex = d_counts (aggregate_exemplars ws m') /\
    ids = d_members (aggregate_exemplars ws m').
Proof.
  intros Hrows Hnd Hagg Hex Hids.
  apply aggregate_returned in Hagg as (members & sampler & m' & ws & Hg & Hs & Hout).
  rewrite Hout in Hex, Hids.
  cbn [Dispatch.dt_exemplars_in Dispatch.dt_members_in] in Hex, Hids.
  assert (ex = {| Dispatch.ex_rows := exemplar_indices (aggregate_exemplars ws m');
                  Dispatch.members_count := d_counts (aggregate_exemplars ws m') |})
    as -> by congruence.
  assert (ids = d_members (aggregate_exemplars ws m')) as -> by congruence.
  pose proof (grouping_length prec emax par env dt members sampler Hnd Hg) as Hlen.
  exists m', ws.
  destruct sampler as [[mb nna]|]; simpl in Hs.
  - assert (nna <= 3)%N as Hnna
      by (destruct (grouping_n_na_bins prec emax _ _ _ _ _ _ Hg) as [-> | [-> | ->]]; lia).
    split_and!; try done.
    + rewrite <- Hlen. by eapply sample_exemplars_length.
    + intros ->.
      by apply (sampled_column_na members (Dispatch.rand env) mb nna m' ltac:(lia) Hnna).
  - simplify_eq. split_and!; done.
Qed.

(** X10.  On return from [aggregate] the exemplars table has one row
    for every [members_count]; the exemplar [k] is a row [r] of the
    input table whose [exemplar_id] in the members table is [k], so
    that an exemplar is a member of its own group, and two exemplars
    are different rows.  The row count fits [int32_t], and the parallel
    loop of the N-D path keeps the length of the members column. *)
Theorem aggregate_exemplar_rows par env dt out out' ex ids :
  Z.of_nat (Dispatch.nrows dt) < 2 ^ 31 ->
  (forall cs (d d' : list Z), Dispatch.nd_loop env cs d = inr d' -> length d' = length d) ->
  Dispatch.aggregate prec emax par env dt out = (out', Dispatch.Returned) ->
  Dispatch.dt_exemplars_in out' = Some ex ->
  Dispatch.dt_members_in out' = Some ids ->
  length (Dispatch.ex_rows ex) = length (Dispatch.members_count ex) /\
  (forall k, (k < length (Dispatch.ex_rows ex))%nat ->
     exists r, (r < Dispatch.nrows dt)%nat /\
       Dispatch.ex_rows ex !! k = Some (Z.of_nat r) /\ ids !! r = Some (Z.of_nat k)) /\
  NoDup (Dispatch.ex_rows ex).
Proof.
  intros Hrows Hnd Hagg Hex Hids.
  destruct (aggregate_finalized par env dt out out' ex ids Hrows Hnd Hagg Hex Hids)
    as (m' & ws & Hlen & Hna & -> & -> & ->).
  assert (forall k, (k < length (exemplar_indices (aggregate_exemplars ws m')))%nat ->
            exists r, (r < Dispatch.nrows dt)%nat /\
              exemplar_indices (aggregate_exemplars ws m') !! k = Some (Z.of_nat r) /\
              d_members (aggregate_exemplars ws m') !! r = Some (Z.of_nat k)) as Hrow.
  { intros k Hk. destruct (exemplar_row m' ws k ltac:(lia) Hk) as (r & Hr & H1 & H2).
    exists r. split; [lia|done]. }
  split_and!.
  - by rewrite exemplar_indices_eq, d_counts_eq, !length_fmap.
  - done.
  - apply NoDup_alt. intros k1 k2 x H1 H2.
    destruct (Hrow k1 ltac:(by eapply lookup_lt_Some)) as (r1 & _ & Hr1 & Hid1).
    destruct (Hrow k2 ltac:(by eapply lookup_lt_Some)) as (r2 & _ & Hr2 & Hid2).
    assert (r1 = r2) as -> by (rewrite H1 in Hr1; rewrite H2 in Hr2; simplify_eq; lia).
    rewrite Hid1 in Hid2. simplify_eq. lia.
Qed.

(** X11.  On return from [aggregate] every [exemplar_id] of the members
    table is the index of a row of the exemplars table, or it is
    missing; no id points outside the exemplars table.  The row count
    fits [int32_t], and the parallel loop of the N-D path keeps the
    length of the members column. *)
Theorem aggregate_ids_in_range par env dt out out' ex ids :
  Z.of_nat (Dispatch.nrows dt) < 2 ^ 31 ->
  (forall cs (d d' : list Z), Dispatch.nd_loop env cs d = inr d' -> length d' = length d) ->
  Dispatch.aggregate prec emax par env dt out = (out', Dispatch.Returned) ->
  Dispatch.dt_exemplars_in out' = Some ex ->
  Dispatch.dt_members_in out' = Some ids ->
  forall r, (r < Dispatch.nrows dt)%nat ->
    ids !! r = Some NA_I4 \/
    exists k, (k < length (Dispatch.ex_rows ex))%nat /\ ids !! r = Some (Z.of_nat k).
Proof.
  intros Hrows Hnd Hagg Hex Hids r Hr.
  destruct (aggregate_finalized par env dt out out' ex ids Hrows Hnd Hagg Hex Hids)
    as (m' & ws & Hlen & Hna & -> & _ & ->).
  apply final_id_range; [lia|done|lia].
Qed.

End AggregateExemplars.

Lemma aggregate_exemplar_rows_witness :
  Dispatch.aggregate 53 1024 sampled_params sampled_env sampled_table no_outputs
  = (sampled_outputs, Dispatch.Returned) /\
  NoDup (Dispatch.ex_rows {| Dispatch.ex_rows := [1; 3]; Dispatch.members_count := [2; 1] |}).
Proof.
  assert (Dispatch.aggregate 53 1024 sampled_params sampled_env sampled_table no_outputs
          = (sampled_outputs, Dispatch.Returned)) as H by (vm_compute; reflexivity).
  split; [exact H|].
  refine (proj2 (proj2 (aggregate_exemplar_rows 53 1024 sampled_params sampled_env
                          sampled_table no_outputs sampled_outputs _ _ _ _ H eq_refl eq_refl))).
  - vm_compute. reflexivity.
  - intros cs d d' [= <-]. reflexivity.
Defined.

Lemma aggregate_ids_in_range_witness :
  Dispatch.aggregate 53 1024 sampled_params sampled_env sampled_table no_outputs
  = (sampled_outputs, Dispatch.Returned) /\
  ([NA_I4; 0; NA_I4; 1; 0] !! 3%nat = Some NA_I4 \/
   exists k, (k < length [1; 3])%nat /\ [NA_I4; 0; NA_I4; 1; 0] !! 3%nat = Some (Z.of_nat k)).
Proof.
  assert (Dispatch.aggregate 53 1024 sampled_params sampled_env sampled_table no_outputs
          = (sampled_outputs, Dispatch.Returned)) as H by (vm_compute; reflexivity).
  split; [exact H|].
  refine (aggregate_ids_in_range 53 1024 sampled_params sampled_env
            sampled_table no_outputs sampled_outputs _ _ _ _ H eq_refl eq_refl 3%nat _).
  - vm_compute. reflexivity.
  - intros cs d d' [= <-]. reflexivity.
  - vm_compute. lia.
Defined.

(** ** Rows of missing values *)

Section RowFacts.
Variables prec emax : Z.

Lemma normalize_missing coeffs v :
  Real.ISNA v = true -> Binning.normalize prec emax coeffs v = S754_nan.
Proof.
  destruct v; try done. intros _. unfold Binning.normalize, Real.mul, Real.add.
  by destruct coeffs.1.
Qed.

Lemma foldl_update_length {A} (f : list A -> nat -> A) l (r : list A) :
  length (foldl (fun r j => <[j := f r j]> r) r l) = length r.
Proof.
  revert r. induction l as [|j l IH]; intros r; simpl; [done|].
  by rewrite IH, length_insert.
Qed.

Lemma normalize_row_length cs row (r : list spec_float) :
  length (Rows.normalize_row prec emax cs row r) = length r.
Proof. apply (foldl_update_length (fun _ i => Rows.norm_value prec emax (cs !!! i) row)). Qed.

Lemma foldl_set_lookup {A} (v : nat -> A) n (r : list A) i :
  (i < n)%nat -> (n <= length r)%nat ->
  foldl (fun r j => <[j := v j]> r) r (seq 0 n) !! i = Some (v i).
Proof.
  induction n as [|n IH]; intros Hi Hn; [lia|].
  rewrite seq_S, foldl_app. simpl.
  pose proof (foldl_update_length (fun _ j => v j) (seq 0 n) r) as Hlen.
  destruct (decide (i = n)) as [->|Hne].
  - apply list_lookup_insert_eq. lia.
  - rewrite list_lookup_insert_ne by done. apply IH; lia.
Qed.

Lemma normalize_row_lookup cs row (r : list spec_float) i :
  (length cs <= length r)%nat -> (i < length cs)%nat ->
  Rows.normalize_row prec emax cs row r !! i
  = Some (Rows.norm_value prec emax (cs !!! i) row).
Proof.
  intros Hlen Hi. unfold Rows.normalize_row.
  by apply (foldl_set_lookup (fun i => Rows.norm_value prec emax (cs !!! i) row)).
Qed.

(** When every value of the row is missing, [project_row] divides the
    zeroes by [n = 0]. *)
Lemma project_row_missing maxd cs row pmatrix (r : list spec_float) j :
  (forall i, (i < length cs)%nat -> Real.ISNA (Binning.get_value (cs !!! i) row) = true) ->
  (maxd <= length r)%nat -> (j < maxd)%nat ->
  Rows.project_row prec emax maxd cs row pmatrix r !! j = Some S754_nan.
Proof.
  intros Hna Hlen Hj. unfold Rows.project_row.
  set (r0 := foldl (fun r j => <[j := Real.zero]> r) r (seq 0 maxd)).
  assert (forall l (rn : list spec_float * Z),
            (forall i, i ∈ l -> (i < length cs)%nat) ->
            foldl (fun (rn : list spec_float * Z) i =>
                     let value := Binning.get_value (cs !!! i) row in
                     if Real.ISNA value then rn
                     else
                       let norm_row := Rows.norm_value prec emax (cs !!! i) row in
                       (foldl (fun r j =>
                                 <[j := Real.add prec emax (r !!! j)
                                          (Real.mul prec emax
                                             (pmatrix !!! (i * maxd + j)%nat) norm_row)]> r)
                              rn.1 (seq 0 maxd),
                        to_int32 (rn.2 + 1))) rn l = rn) as Hskip.
  { induction l as [|i l IH]; intros rn Hl; simpl; [done|].
    rewrite Hna by (apply Hl; by left). apply IH. intros i' Hi'. apply Hl. by right. }
  rewrite Hskip by (intros i Hi; apply elem_of_seq in Hi; lia).
  cbn [fst snd].
  assert (length r0 = length r) as Hr0
    by apply (foldl_update_length (fun _ _ => Real.zero)).
  assert (forall j, (j < maxd)%nat -> r0 !!! j = Real.zero) as Hz.
  { intros j' Hj'. apply list_lookup_total_correct.
    unfold r0. by apply (foldl_set_lookup (fun _ => Real.zero)). }
  assert (forall n (r1 : list spec_float),
            (n <= maxd)%nat -> length r1 = length r ->
            (forall j, (j < maxd)%nat -> r1 !!! j = Real.zero) ->
            (forall j, (j < n)%nat ->
               foldl (fun r j =>
                        <[j := Real.div prec emax (r !!! j) (Real.of_Z prec emax 0)]> r)
                     r1 (seq 0 n) !! j = Some S754_nan) /\
            (forall j, (n <= j < maxd)%nat ->
               foldl (fun r j =>
                        <[j := Real.div prec emax (r !!! j) (Real.of_Z prec emax 0)]> r)
                     r1 (seq 0 n) !!! j = Real.zero) /\
            length (foldl (fun r j =>
                        <[j := Real.div prec emax (r !!! j) (Real.of_Z prec emax 0)]> r)
                     r1 (seq 0 n)) = length r) as Hdiv.
  { induction n as [|n IH]; intros r1 Hn Hl1 Hz1.
    - simpl. split_and!; [lia| |done]. intros j' Hj'. apply Hz1. lia.
    - rewrite seq_S, foldl_app. cbn [foldl Nat.add].
      destruct (IH r1 ltac:(lia) Hl1 Hz1) as (IH1 & IH2 & IH3).
      split_and!.
      + intros j' Hj'. destruct (decide (j' = n)) as [->|Hne].
        * rewrite list_lookup_insert_eq by lia. by rewrite IH2 by lia.
        * rewrite list_lookup_insert_ne by done. apply IH1. lia.
      + intros j' Hj'. rewrite list_lookup_total_insert_ne by lia. apply IH2. lia.
      + by rewrite length_insert. }
  by apply (Hdiv maxd r0 ltac:(lia) Hr0 Hz).
Qed.

(** A row, as an array of coordinates that are all missing, is at no
    distance of anything. *)
Lemma scan_missing (member : list spec_float) exemplars ndims delta js :
  (forall i, (i < ndims)%nat -> Real.ISNA (member !!! i) = true) ->
  NDim.scan prec emax member exemplars ndims delta js = None.
Proof.
  intros Hna. apply scan_none. intros j _.
  unfold Distance.calculate_distance.
  rewrite distance_loop_skip.
  - unfold Real.div, Real.mul, Real.of_Z, Real.zero. simpl.
    by destruct (binary_normalize prec emax (Z.of_nat ndims) 0 false) as [[]|[]| |[] m e].
  - intros i Hi. apply elem_of_seq in Hi. rewrite Hna by lia. done.
Qed.

(** X12.  A row of [group_nd] whose values are all missing matches no
    exemplar.  [normalize_row] turns every missing value into a
    missing coordinate, and [project_row] divides its zeroes by
    [n = 0]: either way all coordinates of the row are NaN, every
    distance to an exemplar is a NaN, and the scan finds no exemplar
    within [delta], so that [group_nd] makes the row an exemplar of its
    own. *)
Theorem missing_row_matches_nothing cs row pmatrix (r : list spec_float) exemplars
    delta (c e0 : N) :
  (forall i, (i < length cs)%nat -> Real.ISNA (Binning.get_value (cs !!! i) row) = true) ->
  (length r = length cs ->
   NDim.test_member prec emax (Rows.normalize_row prec emax cs row r) exemplars
     (length cs) delta c e0 = None) /\
  (NDim.test_member prec emax (Rows.project_row prec emax (length r) cs row pmatrix r)
     exemplars (length r) delta c e0 = None).
Proof.
  intros Hna. split.
  - intros Hlen. apply scan_missing. intros i Hi.
    pose proof (normalize_row_lookup cs row r i ltac:(lia) Hi) as Hl.
    apply list_lookup_total_correct in Hl. rewrite Hl.
    unfold Rows.norm_value. rewrite normalize_missing; [done|by apply Hna].
  - apply scan_missing. intros i Hi.
    pose proof (project_row_missing (length r) cs row pmatrix r i Hna ltac:(lia) Hi) as Hl.
    apply list_lookup_total_correct in Hl. by rewrite Hl.
Qed.

End RowFacts.

(** Two columns whose second row is missing. *)
Definition holes : list Binning.ColumnConvertor :=
  [ Dispatch.make_convertor 53 1024
      {| Dispatch.stype := Dispatch.INT32;
         Dispatch.cells := [Dispatch.CellInt 1; Dispatch.CellNA; Dispatch.CellInt 3] |};
    Dispatch.make_convertor 53 1024
      {| Dispatch.stype := Dispatch.INT32;
         Dispatch.cells := [Dispatch.CellInt 5; Dispatch.CellNA; Dispatch.CellInt 4] |} ].

Definition origin : list NDim.exemplar :=
  [ {| NDim.id := 0; NDim.coords := [Real.zero; Real.zero] |} ].

Lemma missing_row_matches_nothing_witness :
  NDim.test_member 53 1024
    (Rows.project_row 53 1024 (length [Real.zero; Real.zero]) holes 1
       [Real.one 53 1024; Real.one 53 1024; Real.one 53 1024; Real.one 53 1024]
       [Real.zero; Real.zero])
    origin (length [Real.zero; Real.zero]) (Real.one 53 1024) 1 0 = None.
Proof.
  apply (proj2 (missing_row_matches_nothing 53 1024 holes 1%nat
                  [Real.one 53 1024; Real.one 53 1024; Real.one 53 1024; Real.one 53 1024]
                  [Real.zero; Real.zero] origin (Real.one 53 1024) 1%N 0%N
                  ltac:(intros [|[|i]] Hi; [reflexivity|reflexivity|simpl in Hi; lia]))).
Defined.

(** ** The normalization coefficients *)

Section Coefficients.
Variables prec emax : Z.

Lemma SFmul_opp_l a b : SFmul prec emax (SFopp a) b = SFopp (SFmul prec emax a b).
Proof.
  destruct a as [sa|sa| |sa ma ea], b as [sb|sb| |sb mb eb]; simpl; try reflexivity;
    try (by destruct sa, sb).
  rewrite <- binary_round_aux_opp. by destruct sa, sb.
Qed.

Lemma SFadd_opp_diag p :
  finite p = true -> SFadd prec emax p (SFopp p) = S754_zero false.
Proof.
  destruct p as [[]| | |s m e]; simpl; try done. intros _.
  set (z := Z.pos (shl_align m e (Z.min e e)).1).
  replace (cond_Zopp s z + cond_Zopp (negb s) z) with 0 by (destruct s; simpl; lia).
  done.
Qed.

(** X13.  For a column that is not constant, [|c_max - c_min| >
    epsilon], the shift of [set_norm_coeffs] is the negated product
    [norm_factor * c_min], so that the minimum of the column normalizes
    to [+0] exactly and falls into the bin [0], for every number of
    bins, as long as that product is finite; when it overflows the
    result is a NaN. *)
Theorem minimum_normalizes_to_zero c_min c_max (c_bins : N) :
  Real.gtb (Real.fabs (Real.sub prec emax c_max c_min)) (Real.epsilon prec emax) = true ->
  (finite (Real.mul prec emax
             (Binning.set_norm_coeffs prec emax c_min c_max c_bins).1 c_min) = true ->
   Binning.normalize prec emax (Binning.set_norm_coeffs prec emax c_min c_max c_bins) c_min
   = Real.zero /\
   Binning.bin_id prec emax (Binning.set_norm_coeffs prec emax c_min c_max c_bins) c_min = 0)
  /\
  (finite (Real.mul prec emax
             (Binning.set_norm_coeffs prec emax c_min c_max c_bins).1 c_min) = false ->
   Binning.normalize prec emax (Binning.set_norm_coeffs prec emax c_min c_max c_bins) c_min
   = S754_nan).
Proof.
  intros Hgt. unfold Binning.set_norm_coeffs. rewrite Hgt. cbn [fst snd].
  set (nf := Real.div prec emax _ _).
  unfold Binning.bin_id, Binning.normalize. cbn [fst snd].
  unfold Real.mul, Real.opp, Real.add. rewrite SFmul_opp_l.
  split.
  - intros Hfin. rewrite SFadd_opp_diag by done. done.
  - intros Hinf. by destruct (SFmul prec emax nf c_min) as [[]|[]| |[] m e].
Qed.

End Coefficients.

Lemma minimum_normalizes_to_zero_witness :
  Binning.bin_id 53 1024
    (Binning.set_norm_coeffs 53 1024 (Real.of_Z 53 1024 3) (Real.of_Z 53 1024 10) 4)
    (Real.of_Z 53 1024 3) = 0.
Proof.
  refine (proj2 (proj1 (minimum_normalizes_to_zero 53 1024 (Real.of_Z 53 1024 3)
                          (Real.of_Z 53 1024 10) 4 _) _)).
  - vm_compute. reflexivity.
  - vm_compute. reflexivity.
Defined.

(** ** Merged exemplars *)

(** *** The recursion of [calculate_map] *)

Section MapFacts.

(** Every merged exemplar points to an exemplar of a smaller id. *)
Definition descending (ids : list N) : Prop :=
  forall x y, ids !! x = Some y -> (y <= N.of_nat x)%N.

Lemma calculate_map_fixed fuel ids id r :
  Merge.calculate_map fuel ids id = Some r -> ids !!! N.to_nat r = r.
Proof.
  revert id. induction fuel as [|fuel IH]; intros id; simpl; [done|].
  destruct (N.eqb_spec id (ids !!! N.to_nat id)) as [Heq|Hne].
  - intros [= <-]. done.
  - apply IH.
Qed.

Lemma calculate_map_descends ids (n : nat) : forall fuel id,
  descending ids -> (N.to_nat id < length ids)%nat ->
  (N.to_nat id <= n)%nat -> (n < fuel)%nat ->
  exists r, Merge.calculate_map fuel ids id = Some r /\ (r <= id)%N /\
    ids !! N.to_nat r = Some r.
Proof.
  induction n as [n IH] using lt_wf_ind. intros fuel id Hd Hid Hn Hfuel.
  destruct fuel as [|fuel]; [lia|]. simpl.
  destruct (lookup_lt_is_Some_2 ids (N.to_nat id) Hid) as [y Hy].
  rewrite (list_lookup_total_correct _ _ _ Hy).
  pose proof (Hd _ _ Hy) as Hle.
  destruct (N.eqb_spec id y) as [Heq|Hne].
  - exists id. split_and!; [done|lia|congruence].
  - destruct (IH (N.to_nat y) ltac:(lia) fuel y Hd ltac:(lia) ltac:(lia) ltac:(lia))
      as (r & Hr & Hry & Hfix).
    exists r. split_and!; [done|lia|done].
Qed.



End MapFacts.


(** *** The members after the merges *)

Section MembersFacts.

Lemma members_map_spec ids fuel :
  descending ids -> (length ids <= fuel)%nat ->
  exists map, Merge.members_map fuel ids = Some map /\ length map = length ids /\
    forall i, (i < length ids)%nat ->
      exists r, map !! i = Some r /\ (r <= N.of_nat i)%N /\ ids !! N.to_nat r = Some r /\
        (ids !! i = Some (N.of_nat i) -> r = N.of_nat i).
Proof.
  intros Hd Hfuel. unfold Merge.members_map.
  set (f := fun i => if (ids !!! i =? N.of_nat i)%N then Some (N.of_nat i)
                     else Merge.calculate_map fuel ids (N.of_nat i)).
  assert (forall i, (i < length ids)%nat ->
            exists r, f i = Some r /\ (r <= N.of_nat i)%N /\ ids !! N.to_nat r = Some r /\
              (ids !! i = Some (N.of_nat i) -> r = N.of_nat i)) as Hf.
  { intros i Hi. unfold f.
    destruct (lookup_lt_is_Some_2 ids i Hi) as [y Hy].
    rewrite (list_lookup_total_correct _ _ _ Hy).
    destruct (N.eqb_spec y (N.of_nat i)) as [->|Hne].
    - exists (N.of_nat i). rewrite Nat2N.id. split_and!; [done|lia|done|done].
    - destruct (calculate_map_descends ids i fuel (N.of_nat i) Hd
                  ltac:(rewrite Nat2N.id; lia) ltac:(rewrite Nat2N.id; lia) ltac:(lia))
        as (r & Hr & Hle & Hfix).
      exists r. split_and!; [done|done|done|]. intros Hy'. congruence. }
  destruct (mapM_is_Some_2 f (seq 0 (length ids))) as [map Hmap].
  { apply Forall_forall. intros i Hi. apply elem_of_seq in Hi.
    destruct (Hf i ltac:(lia)) as (r & Hr & _). simpl. rewrite Hr. by eexists. }
  exists map. split; [done|].
  pose proof (length_mapM _ _ _ Hmap) as Hlen. rewrite length_seq in Hlen.
  split; [done|]. intros i Hi.
  apply mapM_Some_1 in Hmap.
  destruct (lookup_lt_is_Some_2 map i ltac:(lia)) as [r Hr].
  pose proof (Forall2_lookup_lr _ _ _ i i r Hmap (lookup_seq_lt 0 (length ids) i Hi) Hr)
    as Hfi.
  simpl in Hfi. destruct (Hf i Hi) as (r' & Hr' & Hprops).
  assert (r' = r) as -> by congruence. by exists r.
Qed.

Lemma to_size_nat (z : Z) : 0 <= z < 2 ^ 31 -> N.to_nat (Merge.to_size z) = Z.to_nat z.
Proof.
  intros Hz. unfold Merge.to_size. rewrite Z.mod_small; [|lia]. by rewrite Z_N_nat.
Qed.

(** What [adjust_members] does to the members column. *)
Lemma adjust_members_spec fuel ids (d : list Z) :
  descending ids -> (length ids <= fuel)%nat -> Z.of_nat (length ids) < 2 ^ 31 ->
  (forall r z, d !! r = Some z -> 0 <= z < Z.of_nat (length ids)) ->
  exists d', Merge.adjust_members fuel ids d = Some d' /\ length d' = length d /\
    (forall r z, d !! r = Some z ->
       exists z', d' !! r = Some z' /\ 0 <= z' <= z /\
         ids !! Z.to_nat z' = Some (Z.to_N z') /\
         (ids !! Z.to_nat z = Some (Z.to_N z) -> z' = z)) /\
    Merge.adjust_members fuel ids d' = Some d'.
Proof.
  intros Hd Hfuel Hlen Hrange.
  destruct (members_map_spec ids fuel Hd Hfuel) as (map & Hmap & Hmlen & Hspec).
  unfold Merge.adjust_members. rewrite Hmap. simpl.
  set (g := fun x => to_int32 (Z.of_N (map !!! N.to_nat (Merge.to_size x)))).
  assert (forall z, 0 <= z < Z.of_nat (length ids) ->
            0 <= g z <= z /\ ids !! Z.to_nat (g z) = Some (Z.to_N (g z)) /\
            (ids !! Z.to_nat z = Some (Z.to_N z) -> g z = z)) as Hg.
  { intros z Hz. unfold g. rewrite to_size_nat by lia.
    destruct (Hspec (Z.to_nat z) ltac:(lia)) as (r & Hr & Hle & Hfix & Hroot).
    rewrite (list_lookup_total_correct _ _ _ Hr).
    rewrite to_int32_small by (unfold INT32_MIN, INT32_MAX; lia).
    split_and!; try lia.
    - rewrite N2Z.id, <- Z_N_nat, N2Z.id. done.
    - assert (N.of_nat (Z.to_nat z) = Z.to_N z) as Hzn by lia.
      rewrite Hzn in Hroot. intros Hz'. rewrite (Hroot Hz'). lia. }
  eexists. split; [done|]. split; [by rewrite length_fmap|]. split.
  - intros r z Hr. exists (g z). rewrite list_lookup_fmap, Hr. simpl.
    destruct (Hg z (Hrange r z Hr)) as (H1 & H2 & H3). done.
  - f_equal. rewrite <- list_fmap_compose. apply list_eq. intros r.
    rewrite !list_lookup_fmap. destruct (d !! r) as [z|] eqn:Hr; [|done]. simpl.
    pose proof (Hrange r z Hr) as Hz.
    destruct (Hg z Hz) as (H1 & H2 & H3).
    destruct (Hg (g z) ltac:(lia)) as (_ & _ & H4). by rewrite (H4 H2).
Qed.

(** X15.  [adjust_members] rewrites every [exemplar_id] of the members
    column to the exemplar at the end of its chain of merge links.
    With links that point to smaller ids, and ids that fit [int32_t],
    the call returns; a new id is not above the old one and is the id
    of an exemplar that was not merged, the id of such an exemplar is
    left as it is, and a second call would change nothing. *)
Theorem adjust_members_roots fuel ids (d : list Z) :
  descending ids -> (length ids <= fuel)%nat -> Z.of_nat (length ids) < 2 ^ 31 ->
  (forall r z, d !! r = Some z -> 0 <= z < Z.of_nat (length ids)) ->
  exists d', Merge.adjust_members fuel ids d = Some d' /\ length d' = length d /\
    (forall r z, d !! r = Some z ->
       exists z', d' !! r = Some z' /\ 0 <= z' <= z /\
         ids !! Z.to_nat z' = Some (Z.to_N z') /\
         (ids !! Z.to_nat z = Some (Z.to_N z) -> z' = z)) /\
    Merge.adjust_members fuel ids d' = Some d'.
Proof. apply adjust_members_spec. Qed.

End MembersFacts.

Lemma adjust_members_roots_witness :
  Merge.adjust_members 4 [0; 0; 1; 3]%N [2; 3; 1; 0; 2] = Some [0; 3; 0; 0; 0].
Proof.
  destruct (adjust_members_roots 4 [0; 0; 1; 3]%N [2; 3; 1; 0; 2]) as (d' & Hd' & _).
  - intros [|[|[|[|x]]]] y [= <-]; vm_compute; by intros.
  - vm_compute. lia.
  - vm_compute. reflexivity.
  - intros [|[|[|[|[|r]]]]] z [= <-]; vm_compute; split; by intros.
  - rewrite Hd'. vm_compute in Hd'. symmetry. exact Hd'.
Defined.

(** *** The merge of [adjust_delta] *)

Section MergeFacts.

(** The exemplars are in the order of their ids. *)
Fixpoint ascending (l : list NDim.exemplar) : Prop :=
  match l with
  | [] => True
  | e :: l' => Forall (fun e' => (NDim.id e < NDim.id e')%N) l' /\ ascending l'
  end.

(** The exemplars of the vector are the exemplars that were not
    merged: each is its own link, and every id that is its own link is
    the id of an exemplar of the vector. *)
Definition linked (exemplars : list NDim.exemplar) (ids : list N) : Prop :=
  ascending exemplars /\
  (forall e, e ∈ exemplars -> ids !! N.to_nat (NDim.id e) = Some (NDim.id e)) /\
  descending ids /\
  (forall x, ids !! x = Some (N.of_nat x) ->
     exists e, e ∈ exemplars /\ NDim.id e = N.of_nat x).

Lemma ascending_lookup l a b ea eb :
  ascending l -> l !! a = Some ea -> l !! b = Some eb -> (a < b)%nat ->
  (NDim.id ea < NDim.id eb)%N.
Proof.
  revert a b. induction l as [|e l IH]; intros a b Hasc Ha Hb Hab; [done|].
  destruct Hasc as [Hall Hasc]. destruct b as [|b]; [lia|]. simpl in Hb.
  destruct a as [|a]; simpl in Ha.
  - simplify_eq. rewrite Forall_forall in Hall. apply Hall.
    by eapply list_elem_of_lookup_2.
  - apply (IH a b); [done..|lia].
Qed.

Lemma ascending_inj l a b ea eb :
  ascending l -> l !! a = Some ea -> l !! b = Some eb -> NDim.id ea = NDim.id eb -> a = b.
Proof.
  intros Hasc Ha Hb Hid.
  destruct (Nat.lt_trichotomy a b) as [Hlt|[Heq|Hgt]]; [|done|].
  - pose proof (ascending_lookup l a b ea eb Hasc Ha Hb Hlt). lia.
  - pose proof (ascending_lookup l b a eb ea Hasc Hb Ha Hgt). lia.
Qed.

(** Dropping exemplars keeps the order. *)
Lemma ascending_omap (os : list (option NDim.exemplar)) l :
  Forall2 (fun o e => o = None \/ o = Some e) os l -> ascending l ->
  ascending (omap id os) /\ forall e, e ∈ omap id os -> e ∈ l.
Proof.
  induction 1 as [|o e os l Ho Hos IH]; intros Hasc; simpl.
  - split; [done|]. intros e He. inversion He.
  - destruct Hasc as [Hall Hasc]. destruct (IH Hasc) as [IH1 IH2].
    destruct Ho as [-> | ->]; simpl.
    + split; [done|]. intros e' He'. right. by apply IH2.
    + split.
      * split; [|done]. apply Forall_forall. intros e' He'.
        rewrite Forall_forall in Hall. by apply Hall, IH2.
      * intros e' He'. apply elem_of_cons in He' as [->|He']; [by left|].
        right. by apply IH2.
Qed.

Lemma elem_of_omap_id (os : list (option NDim.exemplar)) e :
  e ∈ omap id os <-> exists a, os !! a = Some (Some e).
Proof.
  rewrite list_elem_of_omap. split.
  - intros (o & Ho & Hid). simpl in Hid. subst o.
    by apply list_elem_of_lookup in Ho.
  - intros [a Ha]. exists (Some e). split; [by eapply list_elem_of_lookup_2|done].
Qed.

(** The steps of the merge loop come in the order of the first index. *)
Fixpoint steps_ok {X} (n m : nat) (l : list (nat * nat * X)) : Prop :=
  match l with
  | [] => True
  | p :: l' => (m <= p.1.1 /\ p.1.1 < p.1.2 /\ p.1.2 < n)%nat /\ steps_ok n p.1.1 l'
  end.

Lemma steps_ok_mono {X} n m m' (l : list (nat * nat * X)) :
  (m' <= m)%nat -> steps_ok n m l -> steps_ok n m' l.
Proof. destruct l as [|p l]; simpl; [done|]. intros Hm [H1 H2]. split; [lia|done]. Qed.

Fixpoint pairs_ok (n m : nat) (l : list (nat * nat)) : Prop :=
  match l with
  | [] => True
  | p :: l' => (m <= p.1 /\ p.1 < p.2 /\ p.2 < n)%nat /\ pairs_ok n p.1 l'
  end.

Lemma pairs_ok_mono n m m' l : (m' <= m)%nat -> pairs_ok n m l -> pairs_ok n m' l.
Proof. destruct l as [|p l]; simpl; [done|]. intros Hm [H1 H2]. split; [lia|done]. Qed.

Lemma pairs_ok_app n m t l1 l2 :
  pairs_ok n m l1 -> Forall (fun p => (p.1 <= t)%nat) l1 -> (m <= t)%nat ->
  pairs_ok n t l2 -> pairs_ok n m (l1 ++ l2).
Proof.
  revert m. induction l1 as [|p l1 IH]; intros m H1 Hall Hm H2; simpl.
  - by apply (pairs_ok_mono n t).
  - destruct H1 as [Hp H1]. apply Forall_cons in Hall as [Hpt Hall].
    split; [done|]. apply IH; done.
Qed.

Lemma pairs_ok_block n i js :
  Forall (fun j => (i < j < n)%nat) js -> pairs_ok n i ((fun j => (i, j)) <$> js).
Proof.
  induction 1 as [|j js Hj _ IH]; simpl; [done|]. split; [lia|done].
Qed.

Lemma pairs_ok_from n s k :
  (s + k <= n - 1)%nat ->
  pairs_ok n s (i ← seq s k; (fun j => (i, j)) <$> seq (S i) (n - S i)).
Proof.
  revert s. induction k as [|k IH]; intros s Hk; simpl; [done|].
  apply (pairs_ok_app n s (S s)).
  - apply pairs_ok_block. apply Forall_forall. intros j Hj. apply elem_of_seq in Hj. lia.
  - apply Forall_forall. intros p Hp. apply list_elem_of_fmap in Hp as (j & -> & _).
    simpl. lia.
  - lia.
  - apply IH. lia.
Qed.

Lemma steps_ok_zip {X} n m (ps : list (nat * nat)) (ds : list X) :
  pairs_ok n m ps -> steps_ok n m (zip ps ds).
Proof.
  revert m ds. induction ps as [|p ps IH]; intros m ds Hps; simpl; [done|].
  destruct ds as [|d ds]; simpl; [done|]. destruct Hps as [Hp Hps].
  split; [done|]. by apply IH.
Qed.

End MergeFacts.

Section MergeLoop.
Variable dm : spec_float.
Variable exs : list NDim.exemplar.
Variable ids : list N.
Hypothesis Hasc : ascending exs.
Hypothesis Hin : forall e, e ∈ exs -> (N.to_nat (NDim.id e) < length ids)%nat.

(** The pairs of indices whose distance is below [delta_merge]. *)
Variable close : nat -> nat -> Prop.

(** What the merge loop keeps, at the steps whose first index is at
    least [m]: a merged exemplar points to an exemplar of a smaller
    index, at most [m], that is still there; the other links are as
    they were. *)
Definition merging (m : nat) (st : list (option NDim.exemplar) * list N) : Prop :=
  length st.1 = length exs /\ length st.2 = length ids /\
  (forall a o, st.1 !! a = Some o -> o = None \/ o = exs !! a) /\
  (forall a e, exs !! a = Some e -> st.1 !! a = Some None ->
     exists b eb, (b < a)%nat /\ (b <= m)%nat /\ st.1 !! b = Some (Some eb) /\
       st.2 !! N.to_nat (NDim.id e) = Some (NDim.id eb) /\ close b a) /\
  (forall x, (forall a e, exs !! a = Some e -> st.1 !! a = Some None ->
                N.to_nat (NDim.id e) <> x) ->
     st.2 !! x = ids !! x).

Lemma merging_init : merging 0 (Some <$> exs, ids).
Proof.
  split_and!; simpl.
  - by rewrite length_fmap.
  - done.
  - intros a o Ha. right. rewrite list_lookup_fmap in Ha.
    destruct (exs !! a); simpl in Ha; by simplify_eq.
  - intros a e Ha Hdead. rewrite list_lookup_fmap, Ha in Hdead. done.
  - done.
Qed.

Lemma merging_mono m m' st : (m <= m')%nat -> merging m st -> merging m' st.
Proof.
  intros Hm (H1 & H2 & H3 & H4 & H5). split_and!; try done.
  intros a e Ha Hdead.
  destruct (H4 a e Ha Hdead) as (b & eb & Hb1 & Hb2 & Hb3 & Hb4 & Hb5).
  exists b, eb. split_and!; (done || lia).
Qed.

Lemma merging_step (m : nat) st (p : nat * nat * spec_float) :
  merging m st -> (m <= p.1.1 /\ p.1.1 < p.1.2 /\ p.1.2 < length exs)%nat ->
  (Real.ltb p.2 dm = true -> close p.1.1 p.1.2) ->
  merging p.1.1 (Merge.merge_step dm st p).
Proof.
  intros HJ Hp Hclose. destruct p as [[i j] d]. simpl in *.
  unfold Merge.merge_step. simpl.
  destruct (Real.ltb d dm); [|apply (merging_mono m); [lia|done]].
  specialize (Hclose eq_refl).
  destruct (st.1 !!! i) as [ei|] eqn:Ei; [|apply (merging_mono m); [lia|done]].
  destruct (st.1 !!! j) as [ej|] eqn:Ej; [|apply (merging_mono m); [lia|done]].
  destruct HJ as (H1 & H2 & H3 & H4 & H5).
  assert (st.1 !! i = Some (Some ei)) as Hi.
  { rewrite <- Ei. apply list_lookup_lookup_total_lt. lia. }
  assert (st.1 !! j = Some (Some ej)) as Hj.
  { rewrite <- Ej. apply list_lookup_lookup_total_lt. lia. }
  assert (exs !! j = Some ej) as Hj'.
  { destruct (H3 j _ Hj) as [?|Heq]; [done|]. by rewrite <- Heq. }
  assert (exs !! i = Some ei) as Hi'.
  { destruct (H3 i _ Hi) as [?|Heq]; [done|]. by rewrite <- Heq. }
  pose proof (Hin ej (list_elem_of_lookup_2 _ _ _ Hj')) as Hjlt.
  split_and!; simpl.
  - by rewrite length_insert.
  - by rewrite length_insert.
  - intros a o Ha. destruct (decide (a = j)) as [->|Hne].
    + rewrite list_lookup_insert_eq in Ha by lia. left. congruence.
    + rewrite list_lookup_insert_ne in Ha by done. by apply H3.
  - intros a e Ha Hdead. destruct (decide (a = j)) as [->|Hne].
    + assert (e = ej) as -> by congruence.
      exists i, ei. split_and!; [lia|lia| | |done].
      * rewrite list_lookup_insert_ne by lia. done.
      * apply list_lookup_insert_eq. lia.
    + rewrite list_lookup_insert_ne in Hdead by done.
      destruct (H4 a e Ha Hdead) as (b & eb & Hb1 & Hb2 & Hb3 & Hb4 & Hb5).
      exists b, eb. split_and!; [lia|lia| | |done].
      * rewrite list_lookup_insert_ne by lia. done.
      * rewrite list_lookup_insert_ne; [done|].
        intros Heq. apply Hne. symmetry.
        apply (ascending_inj exs j a ej e Hasc Hj' Ha). lia.
  - intros x Hx.
    assert (N.to_nat (NDim.id ej) <> x) as Hxj.
    { apply (Hx j ej Hj'). apply list_lookup_insert_eq. lia. }
    rewrite list_lookup_insert_ne by done. apply H5.
    intros a e Ha Hdead. apply (Hx a e Ha).
    destruct (decide (a = j)) as [->|Hne]; [congruence|].
    by rewrite list_lookup_insert_ne.
Qed.

Lemma merging_fold l m st :
  merging m st -> steps_ok (length exs) m l ->
  Forall (fun p => Real.ltb p.2 dm = true -> close p.1.1 p.1.2) l ->
  exists m', merging m' (foldl (Merge.merge_step dm) st l).
Proof.
  revert m st. induction l as [|p l IH]; intros m st HJ Hl Hc; simpl.
  - by exists m.
  - destruct Hl as [Hp Hl]. apply Forall_cons in Hc as [Hcp Hc].
    apply (IH p.1.1); [|done|done]. by apply (merging_step m).
Qed.

Lemma merge_merging deltas :
  Forall (fun p => Real.ltb p.2 dm = true -> close p.1.1 p.1.2)
         (zip (Merge.pairs (length exs)) deltas) ->
  exists m, merging m (Merge.merge dm deltas exs ids).
Proof.
  intros Hc. unfold Merge.merge. apply (merging_fold _ 0); [apply merging_init| |done].
  apply steps_ok_zip. unfold Merge.pairs. apply (pairs_ok_from (length exs) 0). lia.
Qed.

End MergeLoop.

Section AdjustDelta.
Variables prec emax : Z.
Variable pow : spec_float -> spec_float -> spec_float.

Lemma bounded_search (P : nat -> Prop) n :
  (forall a, P a \/ ~ P a) ->
  (exists a, (a < n)%nat /\ P a) \/ (forall a, (a < n)%nat -> ~ P a).
Proof.
  intros Hdec. induction n as [|n IH].
  - right. intros a Ha. lia.
  - destruct IH as [(a & Ha & HP)|Hnone].
    + left. exists a. split; [lia|done].
    + destruct (Hdec n) as [HP|HnP].
      * left. exists n. split; [lia|done].
      * right. intros a Ha. destruct (decide (a = n)) as [->|Hne]; [done|].
        apply Hnone. lia.
Qed.

Lemma head_omap (os : list (option NDim.exemplar)) l :
  Forall2 (fun o e => o = None \/ o = Some e) os l -> os !! 0%nat <> Some None ->
  head (omap id os) = head l.
Proof.
  destruct 1 as [|o e os l Ho _]; simpl; [done|]. intros H0.
  destruct Ho as [-> | ->]; done.
Qed.

Lemma zip_fmap_snd {A B} (f : A -> B) (l : list A) :
  Forall (fun p => p.2 = f p.1) (zip l (f <$> l)).
Proof. induction l as [|x l IH]; simpl; constructor; done. Qed.

(** What [adjust_delta] does to the vector of exemplars and to [ids]. *)
Lemma adjust_delta_spec delta exemplars ids ndims :
  linked exemplars ids ->
  linked (Merge.adjust_delta prec emax pow delta exemplars ids ndims).1.2
         (Merge.adjust_delta prec emax pow delta exemplars ids ndims).2 /\
  length (Merge.adjust_delta prec emax pow delta exemplars ids ndims).2 = length ids /\
  (forall e, e ∈ (Merge.adjust_delta prec emax pow delta exemplars ids ndims).1.2 ->
     e ∈ exemplars) /\
  head (Merge.adjust_delta prec emax pow delta exemplars ids ndims).1.2 = head exemplars /\
  (forall e, e ∈ exemplars ->
     e ∉ (Merge.adjust_delta prec emax pow delta exemplars ids ndims).1.2 ->
     exists e', e' ∈ (Merge.adjust_delta prec emax pow delta exemplars ids ndims).1.2 /\
       (NDim.id e' < NDim.id e)%N /\
       (Merge.adjust_delta prec emax pow delta exemplars ids ndims).2
         !! N.to_nat (NDim.id e) = Some (NDim.id e') /\
       Real.ltb
         (Distance.calculate_distance prec emax (NDim.coords e') (NDim.coords e)
            ndims delta false)
         (Merge.delta_merge prec emax pow
            (Merge.total_distance prec emax (Merge.distances prec emax delta ndims exemplars))
            (length exemplars)) = true) /\
  (forall x,
     (forall e, e ∈ exemplars ->
        e ∉ (Merge.adjust_delta prec emax pow delta exemplars ids ndims).1.2 ->
        N.to_nat (NDim.id e) <> x) ->
     (Merge.adjust_delta prec emax pow delta exemplars ids ndims).2 !! x = ids !! x).
Proof.
  intros (Hasc & Hown & Hdesc & Hroots).
  unfold Merge.adjust_delta. cbv zeta. cbn [fst snd].
  set (deltas := Merge.distances prec emax delta ndims exemplars).
  set (dm := Merge.delta_merge prec emax pow (Merge.total_distance prec emax deltas)
               (length exemplars)).
  set (close := fun i j : nat =>
         Real.ltb (Distance.calculate_distance prec emax
                     (NDim.coords (exemplars !!! i)) (NDim.coords (exemplars !!! j))
                     ndims delta false) dm = true).
  assert (forall e, e ∈ exemplars -> (N.to_nat (NDim.id e) < length ids)%nat) as Hin.
  { intros e He. by eapply lookup_lt_Some, Hown. }
  destruct (merge_merging dm exemplars ids Hasc Hin close deltas)
    as (m & Hl1 & Hl2 & Hsame & Hdead & Hrest).
  { unfold deltas, Merge.distances.
    eapply Forall_impl; [apply zip_fmap_snd|].
    intros p Hp Hlt. unfold close. simpl in Hp. by rewrite <- Hp. }
  set (st := Merge.merge dm deltas exemplars ids) in *.
  assert (Forall2 (fun o e => o = None \/ o = Some e) st.1 exemplars) as Hrel.
  { apply Forall2_same_length_lookup_2; [done|].
    intros a o e Ho He. destruct (Hsame a o Ho) as [->|Heq]; [by left|].
    right. congruence. }
  destruct (ascending_omap st.1 exemplars Hrel Hasc) as [Hasc' Hsub].
  assert (forall a e, st.1 !! a = Some (Some e) -> exemplars !! a = Some e) as Hlive.
  { intros a e Ha. destruct (Hsame a _ Ha) as [?|Heq]; [done|]. by rewrite <- Heq. }
  assert (forall a e, exemplars !! a = Some e -> st.1 !! a = Some None ->
            e ∉ omap id st.1) as Hgone.
  { intros a e Ha Hd He. apply elem_of_omap_id in He as [a' Ha'].
    pose proof (Hlive a' e Ha') as Ha''.
    assert (a' = a) as -> by (by apply (ascending_inj exemplars a' a e e)).
    congruence. }
  assert (forall a e, exemplars !! a = Some e -> e ∉ omap id st.1 ->
            st.1 !! a = Some None) as Hgone'.
  { intros a e Ha He.
    destruct (lookup_lt_is_Some_2 st.1 a) as [o Ho].
    { rewrite Hl1. by eapply lookup_lt_Some. }
    destruct o as [e'|]; [|done]. exfalso. apply He.
    rewrite (Hlive a e' Ho) in Ha. simplify_eq. apply elem_of_omap_id. by exists a. }
  assert (forall x,
            (exists a e, exemplars !! a = Some e /\ st.1 !! a = Some None /\
               N.to_nat (NDim.id e) = x) \/
            (forall a e, exemplars !! a = Some e -> st.1 !! a = Some None ->
               N.to_nat (NDim.id e) <> x)) as Hcases.
  { intros x.
    destruct (bounded_search
                (fun a => match exemplars !! a, st.1 !! a with
                          | Some e, Some None => N.to_nat (NDim.id e) = x
                          | _, _ => False
                          end) (length exemplars)) as [(a & Ha & HP)|Hnone].
    - intros a. destruct (exemplars !! a) as [e|]; [|right; tauto].
      destruct (st.1 !! a) as [[e'|]|]; try (right; tauto).
      destruct (decide (N.to_nat (NDim.id e) = x)); tauto.
    - left. destruct (exemplars !! a) as [e|] eqn:Ea; [|done].
      destruct (st.1 !! a) as [[e'|]|] eqn:Eo; try done. by exists a, e.
    - right. intros a e Ha Ho Hx.
      apply (Hnone a ltac:(by eapply lookup_lt_Some)). by rewrite Ha, Ho. }
  assert (forall a e, exemplars !! a = Some e -> st.1 !! a = Some None ->
            exists eb, eb ∈ omap id st.1 /\ (NDim.id eb < NDim.id e)%N /\
              st.2 !! N.to_nat (NDim.id e) = Some (NDim.id eb) /\
              Real.ltb (Distance.calculate_distance prec emax (NDim.coords eb)
                          (NDim.coords e) ndims delta false) dm = true) as Htarget.
  { intros a e Ha Ho.
    destruct (Hdead a e Ha Ho) as (b & eb & Hb1 & _ & Hb3 & Hb4 & Hb5).
    pose proof (Hlive b eb Hb3) as Hb.
    exists eb. split_and!; [apply elem_of_omap_id; by exists b| |done|].
    - by apply (ascending_lookup exemplars b a).
    - unfold close in Hb5.
      by rewrite (list_lookup_total_correct _ _ _ Hb),
                 (list_lookup_total_correct _ _ _ Ha) in Hb5. }
  split_and!.
  - split_and!; [done| | |].
    + intros e He. pose proof (Hsub e He) as He'.
      rewrite Hrest; [by apply Hown|].
      intros a e' Ha Ho Heq. apply (Hgone a e' Ha Ho).
      apply list_elem_of_lookup in He' as [a' Ha'].
      assert (a = a') as -> by (apply (ascending_inj exemplars a a' e' e); (done || lia)).
      by simplify_eq.
    + intros x y Hxy. destruct (Hcases x) as [(a & e & Ha & Ho & Hx)|Hnone].
      * destruct (Htarget a e Ha Ho) as (eb & _ & Hlt & Hlink & _).
        rewrite <- Hx in Hxy. rewrite Hlink in Hxy. simplify_eq. lia.
      * rewrite (Hrest x Hnone) in Hxy. by apply Hdesc.
    + intros x Hx. destruct (Hcases x) as [(a & e & Ha & Ho & Hx')|Hnone].
      * destruct (Htarget a e Ha Ho) as (eb & _ & Hlt & Hlink & _).
        rewrite <- Hx' in Hx. rewrite Hlink in Hx. simplify_eq. lia.
      * rewrite (Hrest x Hnone) in Hx. destruct (Hroots x Hx) as (e & He & Hid).
        exists e. split; [|done].
        apply list_elem_of_lookup in He as [a Ha].
        destruct (lookup_lt_is_Some_2 st.1 a) as [o Ho].
        { rewrite Hl1. by eapply lookup_lt_Some. }
        destruct o as [e'|].
        -- rewrite (Hlive a e' Ho) in Ha. simplify_eq.
           apply elem_of_omap_id. by exists a.
        -- exfalso. apply (Hnone a e Ha Ho). lia.
  - done.
  - done.
  - apply head_omap; [done|]. intros H0.
    destruct (lookup_lt_is_Some_2 exemplars 0) as [e0 He0].
    { rewrite <- Hl1. by eapply lookup_lt_Some. }
    destruct (Hdead 0%nat e0 He0 H0) as (b & _ & Hb & _). lia.
  - intros e He Hnot. apply list_elem_of_lookup in He as [a Ha].
    apply (Htarget a e Ha). by apply (Hgone' a e).
  - intros x Hx. apply Hrest. intros a e Ha Ho. apply (Hx e).
    + by eapply list_elem_of_lookup_2.
    + by apply (Hgone a).
Qed.

(** X16.  [adjust_delta] merges exemplars and records the merges in
    [ids].  When the vector holds the exemplars that were not merged so
    far, in the order of their ids, it does so again after the call.
    Every exemplar that the call removes was at a distance below
    [delta_merge] of an exemplar of a smaller id that the call keeps,
    and its link in [ids] is the id of that exemplar; the first
    exemplar is never removed, and the links of all other ids are left
    as they were. *)
Theorem adjust_delta_linked delta exemplars ids ndims :
  linked exemplars ids ->
  linked (Merge.adjust_delta prec emax pow delta exemplars ids ndims).1.2
         (Merge.adjust_delta prec emax pow delta exemplars ids ndims).2 /\
  length (Merge.adjust_delta prec emax pow delta exemplars ids ndims).2 = length ids /\
  (forall e, e ∈ (Merge.adjust_delta prec emax pow delta exemplars ids ndims).1.2 ->
     e ∈ exemplars) /\
  head (Merge.adjust_delta prec emax pow delta exemplars ids ndims).1.2 = head exemplars /\
  (forall e, e ∈ exemplars ->
     e ∉ (Merge.adjust_delta prec emax pow delta exemplars ids ndims).1.2 ->
     exists e', e' ∈ (Merge.adjust_delta prec emax pow delta exemplars ids ndims).1.2 /\
       (NDim.id e' < NDim.id e)%N /\
       (Merge.adjust_delta prec emax pow delta exemplars ids ndims).2
         !! N.to_nat (NDim.id e) = Some (NDim.id e') /\
       Real.ltb
         (Distance.calculate_distance prec emax (NDim.coords e') (NDim.coords e)
            ndims delta false)
         (Merge.delta_merge prec emax pow
            (Merge.total_distance prec emax (Merge.distances prec emax delta ndims exemplars))
            (length exemplars)) = true) /\
  (forall x,
     (forall e, e ∈ exemplars ->
        e ∉ (Merge.adjust_delta prec emax pow delta exemplars ids ndims).1.2 ->
        N.to_nat (NDim.id e) <> x) ->
     (Merge.adjust_delta prec emax pow delta exemplars ids ndims).2 !! x = ids !! x).
Proof. apply adjust_delta_spec. Qed.

End AdjustDelta.

(** Three exemplars on a line, none merged so far. *)
Definition line : list NDim.exemplar :=
  [ {| NDim.id := 0; NDim.coords := [Real.of_Z 53 1024 0] |};
    {| NDim.id := 1; NDim.coords := [Real.of_Z 53 1024 1] |};
    {| NDim.id := 2; NDim.coords := [Real.of_Z 53 1024 8] |} ].

(** The square, for a [pow] whose second argument is [2]. *)
Definition square (x y : spec_float) : spec_float := SFmul 53 1024 x x.

Lemma line_linked : linked line [0; 1; 2]%N.
Proof.
  split_and!.
  - simpl. repeat constructor.
  - intros e He. repeat (apply elem_of_cons in He as [->|He]); try reflexivity.
    inversion He.
  - intros [|[|[|x]]] y [= <-]; vm_compute; by intros.
  - intros [|[|[|x]]] H; try discriminate.
    + eexists. split; [by left|done].
    + eexists. split; [right; by left|done].
    + eexists. split; [right; right; by left|done].
Qed.

Lemma adjust_delta_linked_witness :
  (Merge.adjust_delta 53 1024 square (Real.epsilon 53 1024) line [0; 1; 2]%N 1).1.2
  = [ {| NDim.id := 0; NDim.coords := [Real.of_Z 53 1024 0] |};
      {| NDim.id := 2; NDim.coords := [Real.of_Z 53 1024 8] |} ] /\
  (Merge.adjust_delta 53 1024 square (Real.epsilon 53 1024) line [0; 1; 2]%N 1).2
  = [0; 0; 2]%N /\
  linked (Merge.adjust_delta 53 1024 square (Real.epsilon 53 1024) line [0; 1; 2]%N 1).1.2
         (Merge.adjust_delta 53 1024 square (Real.epsilon 53 1024) line [0; 1; 2]%N 1).2.
Proof.
  split; [vm_compute; reflexivity|]. split; [vm_compute; reflexivity|].
  exact (proj1 (adjust_delta_linked 53 1024 square (Real.epsilon 53 1024) line
                  [0; 1; 2]%N 1 line_linked)).
Defined.

(** ** The N-D path run by one thread *)

Section LoopFacts.
Variables prec emax : Z.
Variable pow : spec_float -> spec_float -> spec_float.
Variable pmatrix : list spec_float.
Variable par : Dispatch.Params.
Variable env : Dispatch.Env.
Variable draws : Loop.Draws.
Variable contconvs : list Binning.ColumnConvertor.

Local Abbreviation nrows := (Loop.nrows contconvs).
Local Abbreviation row_step := (Loop.row_step prec emax pow pmatrix par draws contconvs).
Local Abbreviation rows_loop := (Loop.rows_loop prec emax pow pmatrix par env draws contconvs).

Hypothesis Hrows : Z.of_nat nrows < 2 ^ 31.

Lemma path_lt (n c e0 j : N) : j ∈ NDim.path n c e0 -> (j < n)%N.
Proof.
  unfold NDim.path. intros Hj. apply list_elem_of_fmap in Hj as (k & -> & Hk).
  apply elem_of_seq in Hk. unfold NDim.probe. apply N.mod_lt. lia.
Qed.

(** An id that the scan assigns is the id of an exemplar of the
    vector. *)
Lemma test_member_exemplar member exs nd delta c e0 z :
  NDim.test_member prec emax member exs nd delta c e0 = Some z ->
  exists e, e ∈ exs /\ z = to_int32 (Z.of_N (NDim.id e)).
Proof.
  unfold NDim.test_member. intros H. apply scan_some in H as (j & Hj & _ & Hz).
  apply path_lt in Hj.
  destruct (lookup_lt_is_Some_2 exs (N.to_nat j) ltac:(lia)) as [e He].
  rewrite (list_lookup_total_correct _ _ _ He) in Hz.
  exists e. split; [by eapply list_elem_of_lookup_2|done].
Qed.

Lemma ascending_snoc exs e :
  ascending exs -> Forall (fun e' => (NDim.id e' < NDim.id e)%N) exs ->
  ascending (exs ++ [e]).
Proof.
  induction exs as [|e' exs IH]; intros Hasc Hall; simpl; [done|].
  destruct Hasc as [H1 H2]. apply Forall_cons in Hall as [Hlt Hall].
  split; [|by apply IH]. apply Forall_app. split; [done|]. by repeat constructor.
Qed.

(** A new exemplar takes the next id and is its own link. *)
Lemma linked_snoc exs ids member :
  linked exs ids ->
  linked (exs ++ [{| NDim.id := N.of_nat (length ids); NDim.coords := member |}])
         (ids ++ [N.of_nat (length ids)]).
Proof.
  intros (Hasc & Hown & Hdesc & Hroots). split_and!.
  - apply ascending_snoc; [done|]. apply Forall_forall. intros e He. simpl.
    pose proof (lookup_lt_Some _ _ _ (Hown e He)). lia.
  - intros e He. apply elem_of_app in He as [He|He].
    + rewrite lookup_app_l by (by eapply lookup_lt_Some, Hown). by apply Hown.
    + apply list_elem_of_singleton in He as ->. simpl.
      rewrite Nat2N.id, lookup_app_r by lia. by rewrite Nat.sub_diag.
  - intros x y Hxy. destruct (decide (x < length ids)%nat) as [Hlt|Hge].
    + rewrite lookup_app_l in Hxy by done. by apply Hdesc.
    + rewrite lookup_app_r in Hxy by lia.
      destruct (x - length ids)%nat as [|k] eqn:Ek; simpl in Hxy; [|done].
      simplify_eq. lia.
  - intros x Hx. destruct (decide (x < length ids)%nat) as [Hlt|Hge].
    + rewrite lookup_app_l in Hx by done. destruct (Hroots x Hx) as (e & He & Hid).
      exists e. split; [apply elem_of_app; by left|done].
    + rewrite lookup_app_r in Hx by lia.
      destruct (x - length ids)%nat as [|k] eqn:Ek; simpl in Hx; [|done].
      eexists. split; [apply elem_of_app; right; by apply list_elem_of_singleton|].
      simpl. by simplify_eq.
Qed.

(** What the loop keeps, before the row [i]: the exemplars of the
    vector are the exemplars that were not merged; every row before [i]
    has the id of an exemplar, merged or not; every exemplar of the
    vector is the id of a row; the first row has the id [0], which is
    never merged. *)
Definition rows_done (i : nat) (st : Loop.state) : Prop :=
  linked (Loop.exemplars st) (Loop.ids st) /\
  (length (Loop.ids st) <= i)%nat /\
  length (Loop.d_members st) = nrows /\
  (forall r, (r < i)%nat ->
     exists x, (x < length (Loop.ids st))%nat /\
       Loop.d_members st !! r = Some (Z.of_nat x)) /\
  (forall e, e ∈ Loop.exemplars st ->
     exists r, (r < i)%nat /\ Loop.d_members st !! r = Some (Z.of_N (NDim.id e))) /\
  ((0 < i)%nat ->
     (exists e0, head (Loop.exemplars st) = Some e0 /\ NDim.id e0 = 0%N) /\
     Loop.d_members st !! 0%nat = Some 0).

Lemma rows_done_init (d : list Z) :
  length d = nrows -> rows_done 0 (Loop.init prec emax d).
Proof.
  intros Hd. split_and!; simpl; try done.
  - split_and!; try done.
    + intros e He. inversion He.
  - intros r Hr. lia.
  - intros e He. inversion He.
  - lia.
Qed.

Lemma rows_done_step i st :
  rows_done i st -> (i < nrows)%nat -> rows_done (S i) (row_step st i).
Proof.
  intros (Hlinked & Hids & Hlen & Hrows' & Hex & Hfirst) Hi.
  unfold Loop.row_step. cbv zeta.
  set (member := Loop.member_of prec emax pmatrix par draws contconvs i).
  destruct (NDim.test_member _ _ _ _ _ _ _ _) as [z|] eqn:Etest.
  - (* the row is a member *)
    destruct (test_member_exemplar _ _ _ _ _ _ _ Etest) as (e & He & ->).
    pose proof Hlinked as (_ & Hown & _ & _).
    pose proof (lookup_lt_Some _ _ _ (Hown e He)) as Hid.
    rewrite to_int32_small by (unfold INT32_MIN, INT32_MAX; lia).
    split_and!; cbn [Loop.exemplars Loop.ids Loop.d_members Loop.coprimes Loop.delta].
    + done.
    + lia.
    + by rewrite length_insert.
    + intros r Hr. destruct (decide (r = i)) as [->|Hne].
      * exists (N.to_nat (NDim.id e)). split; [done|].
        rewrite list_lookup_insert_eq by lia. f_equal. lia.
      * rewrite list_lookup_insert_ne by done. apply Hrows'. lia.
    + intros e' He'. destruct (Hex e' He') as (r & Hr & Hd).
      exists r. split; [lia|]. rewrite list_lookup_insert_ne by lia. done.
    + intros _. destruct (decide (i = 0)%nat) as [->|Hne].
      * destruct (Loop.exemplars st) as [|e0 exs]; [by inversion He|].
        destruct (Hex e0 ltac:(by left)) as (r & Hr & _). lia.
      * destruct (Hfirst ltac:(lia)) as [H0 H1]. split; [done|].
        rewrite list_lookup_insert_ne by lia. done.
  - (* the row is an exemplar *)
    set (e := {| NDim.id := N.of_nat (length (Loop.ids st)); NDim.coords := member |}).
    set (exs1 := Loop.exemplars st ++ [e]).
    set (ids1 := Loop.ids st ++ [NDim.id e]).
    assert (linked exs1 ids1) as Hl1 by (by apply linked_snoc).
    assert (length ids1 = S (length (Loop.ids st))) as Hlen1
      by (unfold ids1; rewrite length_app; simpl; lia).
    set (adjusted := if (Dispatch.nd_max_bins par <? N.of_nat (length exs1))%N
                     then Merge.adjust_delta prec emax pow (Loop.delta st) exs1 ids1
                            (Loop.ndims par contconvs)
                     else (Loop.delta st, exs1, ids1)).
    assert (linked adjusted.1.2 adjusted.2 /\ length adjusted.2 = length ids1 /\
            head adjusted.1.2 = head exs1 /\
            (forall e', e' ∈ adjusted.1.2 -> e' ∈ exs1)) as (Hl2 & Hlen2 & Hhead & Hsub).
    { unfold adjusted. destruct (_ <? _)%N; [|done].
      destruct (adjust_delta_spec prec emax pow (Loop.delta st) exs1 ids1
                  (Loop.ndims par contconvs) Hl1) as (H1 & H2 & H3 & H4 & _).
      done. }
    rewrite to_int32_small by (unfold INT32_MIN, INT32_MAX; simpl; lia).
    split_and!; cbn [Loop.exemplars Loop.ids Loop.d_members Loop.coprimes Loop.delta].
    + done.
    + lia.
    + by rewrite length_insert.
    + intros r Hr. destruct (decide (r = i)) as [->|Hne].
      * exists (length (Loop.ids st)). split; [lia|].
        rewrite list_lookup_insert_eq by lia. simpl. f_equal. lia.
      * rewrite list_lookup_insert_ne by done.
        destruct (Hrows' r ltac:(lia)) as (x & Hx & Hd). exists x. split; [lia|done].
    + intros e' He'. apply Hsub in He'. apply elem_of_app in He' as [He'|He'].
      * destruct (Hex e' He') as (r & Hr & Hd).
        exists r. split; [lia|]. rewrite list_lookup_insert_ne by lia. done.
      * apply list_elem_of_singleton in He' as ->.
        exists i. split; [lia|]. apply list_lookup_insert_eq. lia.
    + intros _. rewrite Hhead. unfold exs1.
      destruct (decide (i = 0)%nat) as [->|Hne].
      * assert (Loop.ids st = []) as Hnil by (destruct (Loop.ids st); simpl in *; [done|lia]).
        assert (Loop.exemplars st = []) as Hnil'.
        { destruct (Loop.exemplars st) as [|e0 exs]; [done|].
          destruct (Hex e0 ltac:(by left)) as (r & Hr & _). lia. }
        rewrite Hnil'. simpl. split.
        -- exists e. split; [done|]. simpl. by rewrite Hnil.
        -- rewrite list_lookup_insert_eq by lia. by rewrite Hnil.
      * destruct (Hfirst ltac:(lia)) as [(e0 & H0 & Hid0) H1]. split.
        -- exists e0. split; [|done].
           destruct (Loop.exemplars st); simpl in *; [done|done].
        -- rewrite list_lookup_insert_ne by lia. done.
Qed.

Lemma rows_done_loop k i st st' :
  rows_done i st -> (i + k <= nrows)%nat ->
  rows_loop (seq i k) st = inr st' -> rows_done (i + k) st'.
Proof.
  revert i st. induction k as [|k IH]; intros i st Hinv Hk; simpl.
  - intros [= <-]. by rewrite Nat.add_0_r.
  - destruct (Loop.report env contconvs i); [done|].
    intros Hloop. replace (i + S k)%nat with (S i + k)%nat by lia.
    apply (IH (S i) (row_step st i)); [|lia|done].
    apply rows_done_step; [done|lia].
Qed.

(** X17.  [group_nd] as one thread runs it, when the loop over the
    rows ends without an exception of the progress callback: the
    exemplars of the vector are the exemplars that were never merged,
    the recursion of [adjust_members] ends, every row gets the id of an
    exemplar of the vector, every exemplar of the vector is the id of a
    row, and the first row keeps the id [0].  The row count fits
    [int32_t], and [fuel], the depth allowed to [calculate_map], is at
    least the number of rows. *)
Theorem group_nd_assigns fuel (d : list Z) st :
  length d = nrows -> (nrows <= fuel)%nat ->
  rows_loop (seq 0 nrows) (Loop.init prec emax d) = inr st ->
  linked (Loop.exemplars st) (Loop.ids st) /\
  exists d',
    Loop.group_nd prec emax pow pmatrix par env draws contconvs fuel d = Some (inr d') /\
    length d' = nrows /\
    (forall r, (r < nrows)%nat ->
       exists e, e ∈ Loop.exemplars st /\ d' !! r = Some (Z.of_N (NDim.id e))) /\
    (forall e, e ∈ Loop.exemplars st ->
       exists r, (r < nrows)%nat /\ d' !! r = Some (Z.of_N (NDim.id e))) /\
    ((0 < nrows)%nat -> d' !! 0%nat = Some 0).
Proof.
  intros Hd Hfuel Hloop.
  pose proof (rows_done_loop nrows 0 _ st (rows_done_init d Hd) ltac:(lia) Hloop)
    as (Hlinked & Hids & Hlen & Hrows' & Hex & Hfirst).
  simpl in Hids, Hrows', Hex, Hfirst.
  split; [done|].
  pose proof Hlinked as (_ & Hown & Hdesc & Hroots).
  destruct (adjust_members_spec fuel (Loop.ids st) (Loop.d_members st) Hdesc
              ltac:(lia) ltac:(lia)) as (d' & Hd' & Hlen' & Hmap & _).
  { intros r z Hr.
    destruct (Hrows' r) as (x & Hx & Hrx).
    - rewrite <- Hlen. by eapply lookup_lt_Some.
    - rewrite Hrx in Hr. simplify_eq. lia. }
  exists d'. unfold Loop.group_nd. rewrite Hloop, Hd'. simpl.
  split_and!; [done|lia| | |].
  - intros r Hr. destruct (Hrows' r Hr) as (x & Hx & Hrx).
    destruct (Hmap r _ Hrx) as (z' & Hz' & Hle & Hfix & _).
    assert (Z.to_N z' = N.of_nat (Z.to_nat z')) as Hconv by lia.
    rewrite Hconv in Hfix. destruct (Hroots _ Hfix) as (e & He & Hid).
    exists e. split; [done|]. rewrite Hz', Hid. f_equal. lia.
  - intros e He. destruct (Hex e He) as (r & Hr & Hre).
    exists r. split; [done|].
    destruct (Hmap r _ Hre) as (z' & Hz' & _ & _ & Hroot).
    rewrite Hz'. f_equal. apply Hroot.
    rewrite N2Z.id, <- Z_N_nat, N2Z.id. by apply Hown.
  - intros Hpos. destruct (Hfirst Hpos) as [(e0 & Hhead & Hid0) H0].
    destruct (Hmap 0%nat _ H0) as (z' & Hz' & _ & _ & Hroot).
    rewrite Hz'. f_equal. apply Hroot. simpl.
    assert (e0 ∈ Loop.exemplars st) as He0.
    { destruct (Loop.exemplars st); simpl in Hhead; [done|]. simplify_eq. by left. }
    pose proof (Hown e0 He0) as H. by rewrite Hid0 in H.
Qed.

End LoopFacts.

(** Three columns of five rows. *)
Definition three_columns : list Binning.ColumnConvertor :=
  [ Dispatch.make_convertor 53 1024
      {| Dispatch.stype := Dispatch.INT32;
         Dispatch.cells := [Dispatch.CellInt 0; Dispatch.CellInt 0; Dispatch.CellInt 9;
                            Dispatch.CellInt 1; Dispatch.CellInt 10] |};
    Dispatch.make_convertor 53 1024
      {| Dispatch.stype := Dispatch.INT32;
         Dispatch.cells := [Dispatch.CellInt 0; Dispatch.CellInt 0; Dispatch.CellInt 9;
                            Dispatch.CellInt 1; Dispatch.CellInt 10] |};
    Dispatch.make_convertor 53 1024
      {| Dispatch.stype := Dispatch.INT32;
         Dispatch.cells := [Dispatch.CellInt 0; Dispatch.CellInt 0; Dispatch.CellInt 9;
                            Dispatch.CellInt 1; Dispatch.CellInt 10] |} ].

Definition first_draws : Loop.Draws :=
  {| Loop.fresh := fun _ => [S754_nan; S754_nan; S754_nan];
     Loop.exemplar_index := fun _ => 0%N;
     Loop.coprime_index := fun _ => 0%N |}.

Lemma group_nd_assigns_witness :
  Loop.group_nd 53 1024 square [] sampled_params sampled_env first_draws three_columns 5
    [7; 7; 7; 7; 7] = Some (inr [0; 0; 1; 0; 1]) /\
  exists d',
    Loop.group_nd 53 1024 square [] sampled_params sampled_env first_draws three_columns 5
      [7; 7; 7; 7; 7] = Some (inr d') /\
    length d' = Loop.nrows three_columns.
Proof.
  split; [vm_compute; reflexivity|].
  destruct (Loop.rows_loop 53 1024 square [] sampled_params sampled_env first_draws
              three_columns (seq 0 (Loop.nrows three_columns))
              (Loop.init 53 1024 [7; 7; 7; 7; 7])) as [e|st] eqn:Eloop.
  { vm_compute in Eloop. discriminate Eloop. }
  destruct (group_nd_assigns 53 1024 square [] sampled_params sampled_env first_draws
              three_columns ltac:(vm_compute; reflexivity) 5%nat [7; 7; 7; 7; 7] st
              eq_refl ltac:(vm_compute; lia) Eloop) as (_ & d' & Hd' & Hlen & _).
  exists d'. split; [exact Hd'|exact Hlen].
Defined.

(** ** The size of the exemplars table *)

Section ExemplarCount.

(** What a run of the sampler that samples has selected. *)
Lemma sampled_selected (members : list Z) draws max_bins n_na_bins m' :
  Z.of_nat (length members) < 2 ^ 31 -> (n_na_bins <= 3)%N ->
  sample_exemplars draws max_bins n_na_bins members = Some (m', true) ->
  exists sel, selected members sel m' /\ length sel = N.to_nat max_bins /\
    (length sel < length (groups_of Z.leb Z.eqb members))%nat.
Proof.
  intros Hlen Hna Hs. unfold sample_exemplars in Hs.
  destruct (N.ltb_spec (size_add max_bins n_na_bins) (N.of_nat (ngroups (group_i4 members))))
    as [Hlt|Hge]; [|done].
  destruct (sample_loop _ _ _ _ _) as [d'|] eqn:Hloop; simpl in Hs; [|done].
  injection Hs as <-.
  rewrite ngroups_i4 in Hlt.
  pose proof (ngroups_le members) as Hle. rewrite ngroups_i4 in Hle.
  destruct (sample_loop_spec members Hlen max_bins draws []
              (replicate (length members) NA_I4) d')
    as (sel & Hsel & Hsel_len).
  - lia.
  - apply selected_init.
  - simpl. lia.
  - exact Hloop.
  - pose proof (selected_length members _ _ Hsel) as Hsl.
    exists sel. split_and!; [done|done|].
    unfold size_add, SIZE_MOD in Hlt.
    destruct (N.lt_ge_cases (max_bins + n_na_bins) (2 ^ 64)) as [Hsmall|Hbig].
    + rewrite N.mod_small in Hlt by done. lia.
    + assert (2 ^ 31 < 2 ^ 64 - 3)%N by (vm_compute; reflexivity).
      assert (Z.of_nat (length sel) < 2 ^ 31) by lia.
      assert (2 ^ 64 - 3 <= max_bins)%N by lia.
      assert (2 ^ 31 = Z.of_N (2 ^ 31)%N) by (vm_compute; reflexivity).
      lia.
Qed.

(** The keys of the groups of a column, one for every group. *)
Definition group_keys (m : list Z) : list Z :=
  (fun rows : list nat => m !!! (rows !!! 0%nat)) <$> groups_of Z.leb Z.eqb m.

Lemma group_keys_row (m : list Z) i rows r :
  groups_of Z.leb Z.eqb m !! i = Some rows -> r ∈ rows ->
  group_keys m !! i = Some (m !!! r) /\ m !! r = Some (m !!! r).
Proof.
  intros Hi Hr. unfold group_keys. rewrite list_lookup_fmap, Hi. simpl.
  pose proof (groups_of_nonempty Z.leb Z.eqb m) as Hne.
  rewrite Forall_forall in Hne. specialize (Hne rows (list_elem_of_lookup_2 _ _ _ Hi)).
  destruct rows as [|r0 rows]; [done|]. simpl.
  destruct (group_i4_same m i (r0 :: rows) r0 r Hi ltac:(by left) Hr) as (k & H0 & H1).
  rewrite (list_lookup_total_correct _ _ _ H0), (list_lookup_total_correct _ _ _ H1).
  done.
Qed.

Lemma group_keys_NoDup (m : list Z) : NoDup (group_keys m).
Proof.
  apply NoDup_alt. intros i j x Hi Hj.
  unfold group_keys in Hi, Hj. rewrite list_lookup_fmap in Hi, Hj.
  destruct (groups_of Z.leb Z.eqb m !! i) as [ri|] eqn:Ei; [|done].
  destruct (groups_of Z.leb Z.eqb m !! j) as [rj|] eqn:Ej; [|done].
  simpl in Hi, Hj.
  pose proof (groups_of_nonempty Z.leb Z.eqb m) as Hne.
  rewrite Forall_forall in Hne.
  pose proof (Hne ri (list_elem_of_lookup_2 _ _ _ Ei)) as Hni.
  pose proof (Hne rj (list_elem_of_lookup_2 _ _ _ Ej)) as Hnj.
  destruct ri as [|r ri]; [done|]. destruct rj as [|r' rj]; [done|].
  simpl in Hi, Hj.
  apply (group_i4_key_iff m i j (r :: ri) (r' :: rj) r r' Ei Ej); [by left|by left|].
  destruct (group_i4_same m i (r :: ri) r r Ei ltac:(by left) ltac:(by left)) as (k & H0 & _).
  destruct (group_i4_same m j (r' :: rj) r' r' Ej ltac:(by left) ltac:(by left))
    as (k' & H0' & _).
  rewrite (list_lookup_total_correct _ _ _ H0) in Hi.
  rewrite (list_lookup_total_correct _ _ _ H0') in Hj. congruence.
Qed.

Lemma group_keys_elem (m : list Z) x :
  x ∈ group_keys m <-> exists r, m !! r = Some x.
Proof.
  split.
  - intros Hx. apply list_elem_of_lookup in Hx as [i Hi].
    unfold group_keys in Hi. rewrite list_lookup_fmap in Hi.
    destruct (groups_of Z.leb Z.eqb m !! i) as [rows|] eqn:Ei; [|done]. simpl in Hi.
    pose proof (groups_of_nonempty Z.leb Z.eqb m) as Hne.
    rewrite Forall_forall in Hne. specialize (Hne rows (list_elem_of_lookup_2 _ _ _ Ei)).
    destruct rows as [|r0 rows]; [done|].
    destruct (group_keys_row m i (r0 :: rows) r0 Ei ltac:(by left)) as [_ Hr0].
    exists r0. simpl in Hi. congruence.
  - intros [r Hr]. pose proof (lookup_lt_Some _ _ _ Hr) as Hlt.
    destruct (groups_of_cover Z.leb Z.eqb m r Hlt) as (i & rows & Hi & Hin).
    destruct (group_keys_row m i rows r Hi Hin) as [Hk Hv].
    apply (list_elem_of_lookup_2 _ i). rewrite Hk. congruence.
Qed.

(** After the sampler has sampled, the groups of the column are the
    group of the rows left out and the [max_bins] selected groups. *)
Lemma sampled_groups (members : list Z) sel (m' : list Z) :
  selected members sel m' -> (length sel < length (groups_of Z.leb Z.eqb members))%nat ->
  length (groups_of Z.leb Z.eqb m') = S (length sel).
Proof.
  intros Hsel Hlt.
  pose proof Hsel as (Hnd & Hin & Hd & Hrows).
  assert (group_keys m' ≡ₚ NA_I4 :: (Z.of_nat <$> seq 0 (length sel))) as Hperm.
  { apply NoDup_Permutation.
    - apply group_keys_NoDup.
    - apply NoDup_cons. split.
      + intros Hx. apply list_elem_of_fmap in Hx as (k & Hk & _).
        unfold NA_I4, INT32_MIN in Hk. lia.
      + apply NoDup_fmap; [intros a b; lia|apply NoDup_seq].
    - intros x. rewrite group_keys_elem. split.
      + intros [r Hr].
        assert (r < length members)%nat as Hrlt
          by (rewrite <- Hd; by eapply lookup_lt_Some).
        destruct (groups_of_cover Z.leb Z.eqb members r Hrlt) as (i & rows & Hi & Hir).
        destruct (Hrows i rows r Hi Hir) as [Hs Hn].
        destruct (decide (i ∈ sel)) as [Hisel|Hisel].
        * apply list_elem_of_lookup in Hisel as [j Hj].
          rewrite (Hs j Hj) in Hr. simplify_eq. right.
          apply list_elem_of_fmap. exists j. split; [done|].
          apply elem_of_seq. apply lookup_lt_Some in Hj. lia.
        * rewrite (Hn Hisel) in Hr. simplify_eq. by left.
      + intros Hx. apply elem_of_cons in Hx as [->|Hx].
        * destruct (selected_column members sel m' Hsel Hlt) as [[r0 Hr0] _].
          by exists r0.
        * apply list_elem_of_fmap in Hx as (j & -> & Hj). apply elem_of_seq in Hj.
          destruct (lookup_lt_is_Some_2 sel j ltac:(lia)) as [i Hi].
          pose proof (Hin i (list_elem_of_lookup_2 _ _ _ Hi)) as Hilt.
          destruct (lookup_lt_is_Some_2 _ i Hilt) as [rows Hrows'].
          pose proof (groups_of_nonempty Z.leb Z.eqb members) as Hne.
          rewrite Forall_forall in Hne.
          specialize (Hne rows (list_elem_of_lookup_2 _ _ _ Hrows')).
          destruct rows as [|r0 rows]; [done|].
          exists r0. by apply (Hrows i (r0 :: rows) r0 Hrows' ltac:(by left)). }
  apply Permutation_length in Hperm.
  unfold group_keys in Hperm. rewrite length_fmap in Hperm. simpl in Hperm.
  by rewrite length_fmap, length_seq in Hperm.
Qed.

(** Every row is counted once: under the missing value, or under one
    of the ids below [K]. *)
Lemma sum_list_append (l k : list nat) :
  sum_list (l ++ k) = (sum_list l + sum_list k)%nat.
Proof. induction l as [|x l IH]; simpl; lia. Qed.

Lemma sum_list_fmap_add (f g : nat -> nat) (l : list nat) :
  sum_list ((fun k => f k + g k)%nat <$> l)
  = (sum_list (f <$> l) + sum_list (g <$> l))%nat.
Proof.
  induction l as [|x l IH]; [done|].
  rewrite !fmap_cons. cbn [sum_list sum_list_with]. unfold id in *. lia.
Qed.

Lemma indicator_sum (x : Z) K :
  sum_list ((fun k => if decide (x = Z.of_nat k) then 1%nat else 0%nat) <$> seq 0 K)
  = if decide (0 <= x < Z.of_nat K) then 1%nat else 0%nat.
Proof.
  induction K as [|K IH]; [by rewrite decide_False by lia|].
  rewrite seq_S, fmap_app, sum_list_append, IH. simpl.
  repeat case_decide; lia.
Qed.

Lemma count_rows_cons (k x : Z) (ids : list Z) :
  count_rows k (x :: ids)
  = ((if decide (x = k) then 1 else 0) + count_rows k ids)%nat.
Proof.
  unfold count_rows. rewrite filter_cons. by case_decide.
Qed.

Lemma count_partition (ids : list Z) K :
  (forall x, x ∈ ids -> x = NA_I4 \/ 0 <= x < Z.of_nat K) ->
  length ids
  = (count_rows NA_I4 ids
     + sum_list ((fun k => count_rows (Z.of_nat k) ids) <$> seq 0 K))%nat.
Proof.
  induction ids as [|x ids IH]; intros Hin.
  - rewrite (sum_list_fmap_same 0%nat) by (by apply Forall_forall).
    unfold count_rows. simpl. lia.
  - assert (sum_list ((fun k => count_rows (Z.of_nat k) (x :: ids)) <$> seq 0 K)
            = ((if decide (0 <= x < Z.of_nat K)%Z then 1 else 0)
               + sum_list ((fun k => count_rows (Z.of_nat k) ids) <$> seq 0 K))%nat) as ->.
    { rewrite <- indicator_sum, <- sum_list_fmap_add. f_equal.
      apply list_fmap_ext. intros _ k _. apply count_rows_cons. }
    rewrite count_rows_cons. simpl.
    rewrite IH by (intros y Hy; apply Hin; by right).
    destruct (Hin x ltac:(by left)) as [->|Hx].
    + rewrite decide_True by done.
      rewrite decide_False by (unfold NA_I4, INT32_MIN; lia). lia.
    + rewrite decide_False by (unfold NA_I4, INT32_MIN; lia).
      rewrite decide_True by done. lia.
Qed.

End ExemplarCount.

Section AggregateSizes.
Variables prec emax : Z.

(** X18.  On return from [aggregate] of a table with at least
    [min_rows] rows, the exemplars table has at most
    [max_bins + n_na_bins] rows, for the [max_bins] and [n_na_bins] of
    the path taken; when an [exemplar_id] of the members table is
    missing, so that the sampler has sampled, the exemplars table has
    exactly [max_bins] rows.  The row count fits [int32_t], and the
    parallel loop of the N-D path keeps the length of the members
    column. *)
Theorem aggregate_exemplars_bound par env dt out out' ex ids members max_bins n_na_bins :
  Z.of_nat (Dispatch.nrows dt) < 2 ^ 31 ->
  (forall cs (d d' : list Z), Dispatch.nd_loop env cs d = inr d' -> length d' = length d) ->
  Dispatch.aggregate prec emax par env dt out = (out', Dispatch.Returned) ->
  Dispatch.dt_exemplars_in out' = Some ex ->
  Dispatch.dt_members_in out' = Some ids ->
  Dispatch.grouping prec emax par env dt = inr (members, Some (max_bins, n_na_bins)) ->
  (N.of_nat (length (Dispatch.ex_rows ex)) <= max_bins + n_na_bins)%N /\
  ((exists r, ids !! r = Some NA_I4) ->
   length (Dispatch.ex_rows ex) = N.to_nat max_bins).
Proof.
  intros Hrows Hnd Hagg Hex Hids Hg.
  apply aggregate_returned in Hagg as (members0 & sampler & m' & ws & Hg' & Hs & Hout).
  rewrite Hg in Hg'. injection Hg' as <- <-. simpl in Hs.
  rewrite Hout in Hex, Hids.
  cbn [Dispatch.dt_exemplars_in Dispatch.dt_members_in] in Hex, Hids.
  assert (ex = {| Dispatch.ex_rows := exemplar_indices (aggregate_exemplars ws m');
                  Dispatch.members_count := d_counts (aggregate_exemplars ws m') |})
    as -> by congruence.
  assert (ids = d_members (aggregate_exemplars ws m')) as -> by congruence.
  clear Hex Hids Hout. cbn [Dispatch.ex_rows].
  pose proof (grouping_length prec emax par env dt members _ Hnd Hg) as Hlen.
  pose proof (sample_exemplars_length _ _ _ _ _ _ Hs) as Hlen'.
  assert (n_na_bins <= 3)%N as Hnna
    by (destruct (grouping_n_na_bins prec emax _ _ _ _ _ _ Hg) as [-> | [-> | ->]]; lia).
  rewrite exemplar_indices_eq, length_fmap, length_seq, ngroups_i4.
  destruct ws.
  - destruct (sampled_selected members (Dispatch.rand env) max_bins n_na_bins m'
                ltac:(lia) Hnna Hs) as (sel & Hsel & Hsl & Hlt).
    rewrite (sampled_groups members sel m' Hsel Hlt). unfold ws_nat. split; lia.
  - assert (m' = members /\
            (N.of_nat (length (groups_of Z.leb Z.eqb members)) <= max_bins + n_na_bins)%N)
      as [-> Hle].
    { unfold sample_exemplars in Hs. rewrite ngroups_i4 in Hs.
      destruct (N.ltb_spec (size_add max_bins n_na_bins)
                  (N.of_nat (length (groups_of Z.leb Z.eqb members)))) as [Hlt|Hge].
      - destruct (sample_loop _ _ _ _ _); simpl in Hs; done.
      - split; [congruence|]. unfold size_add, SIZE_MOD in Hge.
        pose proof (N.Div0.mod_le (max_bins + n_na_bins) (2 ^ 64)). lia. }
    unfold ws_nat. split; [lia|].
    intros [r Hr]. exfalso.
    assert (r < length members)%nat as Hlt.
    { apply lookup_lt_Some in Hr. by rewrite aggregate_exemplars_length in Hr. }
    destruct (groups_of_cover Z.leb Z.eqb members r Hlt) as (i & rows & Hi & Hin).
    rewrite (aggregate_exemplars_lookup members ltac:(lia) false i rows r Hi Hin) in Hr.
    rewrite decide_True in Hr by (unfold ws_nat; lia).
    unfold NA_I4, INT32_MIN in Hr. simplify_eq. lia.
Qed.

(** X19.  On return from [aggregate] no row is lost and none is
    counted twice: the [members_count] of all exemplars and the number
    of rows whose [exemplar_id] is missing add up to the number of rows
    of the input table.  The row count fits [int32_t], and the parallel
    loop of the N-D path keeps the length of the members column. *)
Theorem aggregate_counts_total par env dt out out' ex ids :
  Z.of_nat (Dispatch.nrows dt) < 2 ^ 31 ->
  (forall cs (d d' : list Z), Dispatch.nd_loop env cs d = inr d' -> length d' = length d) ->
  Dispatch.aggregate prec emax par env dt out = (out', Dispatch.Returned) ->
  Dispatch.dt_exemplars_in out' = Some ex ->
  Dispatch.dt_members_in out' = Some ids ->
  foldr Z.add 0 (Dispatch.members_count ex) + Z.of_nat (count_rows NA_I4 ids)
  = Z.of_nat (Dispatch.nrows dt).
Proof.
  intros Hrows Hnd Hagg Hex Hids.
  destruct (aggregate_finalized prec emax par env dt out out' ex ids Hrows Hnd Hagg Hex Hids)
    as (m' & ws & Hlen & Hna & Hex' & -> & ->).
  set (res := aggregate_exemplars ws m').
  assert (d_counts res
          = (fun k => Z.of_nat (count_rows (Z.of_nat k) (d_members res)))
              <$> seq 0 (length (d_counts res))) as Hc.
  { apply list_eq. intros k. rewrite list_lookup_fmap.
    destruct (decide (k < length (d_counts res))%nat) as [Hk|Hk].
    - rewrite lookup_seq_lt by done. simpl.
      by apply aggregate_exemplars_counts; [lia| |].
    - rewrite lookup_ge_None_2 by lia.
      by rewrite lookup_ge_None_2 by (rewrite length_seq; lia). }
  assert (length (d_members res) = Dispatch.nrows dt) as Hlen_ids
    by (unfold res; by rewrite aggregate_exemplars_length).
  rewrite <- Hlen_ids.
  rewrite (count_partition (d_members res) (length (d_counts res))).
  - rewrite Hc at 1. generalize (seq 0 (length (d_counts res))). intros l.
    rewrite Nat2Z.inj_add.
    assert (foldr Z.add 0
              ((fun k => Z.of_nat (count_rows (Z.of_nat k) (d_members res))) <$> l)
            = Z.of_nat (sum_list ((fun k => count_rows (Z.of_nat k) (d_members res)) <$> l)))
      as ->; [|lia].
    induction l as [|k l IHl]; [done|].
    rewrite !fmap_cons. cbn [foldr sum_list sum_list_with]. unfold id in *.
    rewrite IHl. lia.
  - intros x Hx. apply list_elem_of_lookup in Hx as [r Hr].
    assert (r < length m')%nat as Hrlt
      by (apply lookup_lt_Some in Hr; rewrite Hlen_ids in Hr; lia).
    destruct (final_id_range m' ws r ltac:(lia) Hna Hrlt) as [Hn|(k & Hk & Hv)].
    + left. fold res in Hn. congruence.
    + right. fold res in Hv. rewrite Hr in Hv. simplify_eq.
      unfold res. rewrite d_counts_eq. rewrite exemplar_indices_eq in Hk.
      rewrite length_fmap in *. lia.
Qed.

End AggregateSizes.

Lemma aggregate_exemplars_bound_witness :
  Dispatch.aggregate 53 1024 sampled_params sampled_env sampled_table no_outputs
  = (sampled_outputs, Dispatch.Returned) /\
  (N.of_nat (length [1; 3]) <= 2 + 1)%N /\
  ((exists r, [NA_I4; 0; NA_I4; 1; 0] !! r = Some NA_I4) -> length [1; 3] = N.to_nat 2).
Proof.
  assert (Dispatch.aggregate 53 1024 sampled_params sampled_env sampled_table no_outputs
          = (sampled_outputs, Dispatch.Returned)) as H by (vm_compute; reflexivity).
  split; [exact H|].
  refine (aggregate_exemplars_bound 53 1024 sampled_params sampled_env sampled_table
            no_outputs sampled_outputs _ _ [1; 0; 3; 2; 0] 2%N 1%N _ _ H eq_refl eq_refl _).
  - vm_compute. reflexivity.
  - intros cs d d' [= <-]. reflexivity.
  - vm_compute. reflexivity.
Defined.

Lemma aggregate_counts_total_witness :
  Dispatch.aggregate 53 1024 sampled_params sampled_env sampled_table no_outputs
  = (sampled_outputs, Dispatch.Returned) /\
  foldr Z.add 0 [2; 1] + Z.of_nat (count_rows NA_I4 [NA_I4; 0; NA_I4; 1; 0]) = 5.
Proof.
  assert (Dispatch.aggregate 53 1024 sampled_params sampled_env sampled_table no_outputs
          = (sampled_outputs, Dispatch.Returned)) as H by (vm_compute; reflexivity).
  split; [exact H|].
  refine (aggregate_counts_total 53 1024 sampled_params sampled_env sampled_table
            no_outputs sampled_outputs _ _ _ _ H eq_refl eq_refl).
  - vm_compute. reflexivity.
  - intros cs d d' [= <-]. reflexivity.
Defined.
